(** * idor-scan: the scan execution engine, embedded and verified

    A shallow embedding of the Go package [cmd] of idor-scan: the identifier
    swapper (BuildSwappedURL), the request builders, baseline capture, the
    sequential and the concurrent scan and the finding classifier; with
    them the request catalogs (Postman, OpenAPI, HAR), the identifiers
    found in a URL and the delay between requests.

    Conventions of the embedding.
    - A Go [string] is a byte string: [string] of the Standard Library.
    - A Go [map[string]string] is a [gmap string string].  Go leaves the
      order of a [range] over a map unspecified; the order the runtime
      picks is the parameter [range] of the section below, and the
      list-level functions take the order as an explicit list.
    - A Go [int] is a 64-bit two's complement integer, a [Z] with the
      wrap-around written out ([wrap64]).
    - The network is a function from the request sent to the response
      received, [None] standing for a transport error.
    - Printing under [verbose], the sleeps of the rate limiter and the wall
      clock stamped on a finding are outside the model; the delay the
      sleeps are given is in it.
    - A catalog is taken as [encoding/json] or the YAML decoder hands it
      over: reading and decoding a file are outside the model. *)

From stdpp Require Import gmap strings list fin_maps pretty.
From Stdlib Require Import ZArith Ascii String Permutation Lia.

Local Open Scope string_scope.
Local Open Scope Z_scope.
Local Open Scope list_scope.

(* ===================================================================== *)
(** * Go's [strings] package, on byte strings *)
(* ===================================================================== *)

(** [len(s)] as a Go [int]. *)
Definition len (s : string) : Z := Z.of_nat (String.length s).

(** [strings.HasPrefix(s, prefix)]. *)
Definition HasPrefix (s prefix : string) : bool := String.prefix prefix s.

(** [strings.Contains(s, substr)]: [substr] starts at some offset of [s]. *)
Fixpoint Contains (s substr : string) : bool :=
  HasPrefix s substr ||
  match s with
  | EmptyString => false
  | String _ s' => Contains s' substr
  end.

(** [strings.HasSuffix(s, suffix)]:
    [len(s) >= len(suffix) && s[len(s)-len(suffix):] == suffix]. *)
Definition HasSuffix (s suffix : string) : bool :=
  (String.length suffix <=? String.length s)%nat &&
  String.eqb
    (substring (String.length s - String.length suffix) (String.length suffix) s)
    suffix.

(** [strings.TrimSuffix(s, suffix)]. *)
Definition TrimSuffix (s suffix : string) : string :=
  if HasSuffix s suffix
  then substring 0 (String.length s - String.length suffix) s
  else s.

(** The scan of [strings.Replace] for a non-empty [old]: left to right,
    occurrences not overlapping.  [skip] counts the bytes of the occurrence
    just replaced that are still to be stepped over. *)
Fixpoint replaceFrom (old new : string) (skip : nat) (s : string) : string :=
  match s with
  | EmptyString => EmptyString
  | String c s' =>
      match skip with
      | S k => replaceFrom old new k s'
      | O =>
          if HasPrefix s old
          then new +:+ replaceFrom old new (String.length old - 1) s'
          else String c (replaceFrom old new 0 s')
      end
  end.

(** [strings.Replace] with an empty [old] puts [new] in front of every
    character and at the end. (Go does so at every UTF-8 sequence; the two
    agree on ASCII text. No call modelled below passes an empty [old].) *)
Fixpoint insertAround (new : string) (s : string) : string :=
  match s with
  | EmptyString => new
  | String c s' => new +:+ String c (insertAround new s')
  end.

(** [strings.ReplaceAll(s, old, new)]. *)
Definition ReplaceAll (s old new : string) : string :=
  match old with
  | EmptyString => insertAround new s
  | String _ _ => replaceFrom old new 0 s
  end.

(** One byte of [strings.ToLower]: [A]..[Z] to [a]..[z]. (Bytes outside
    ASCII are kept: header names, the only strings lower-cased here, are
    ASCII.) *)
Definition lowerByte (c : ascii) : ascii :=
  let n := nat_of_ascii c in
  if ((65 <=? n) && (n <=? 90))%nat then ascii_of_nat (n + 32) else c.

Definition upperByte (c : ascii) : ascii :=
  let n := nat_of_ascii c in
  if ((97 <=? n) && (n <=? 122))%nat then ascii_of_nat (n - 32) else c.

Fixpoint ToLower (s : string) : string :=
  match s with
  | EmptyString => EmptyString
  | String c s' => String (lowerByte c) (ToLower s')
  end.

(* ===================================================================== *)
(** * Go's [int] *)
(* ===================================================================== *)

(** A value brought back into the range of a 64-bit signed integer. *)
Definition wrap64 (z : Z) : Z := (z + 2 ^ 63) mod 2 ^ 64 - 2 ^ 63.

Definition in_int (z : Z) : Prop := - 2 ^ 63 <= z < 2 ^ 63.

Definition int_sub (x y : Z) : Z := wrap64 (x - y).
Definition int_neg (x : Z) : Z := wrap64 (- x).

(** [func abs(x int) int]. *)
Definition abs (x : Z) : Z := if x <? 0 then int_neg x else x.

(* ===================================================================== *)
(** * Data model (types.go, baseline file, concurrent.go) *)
(* ===================================================================== *)

(** [type User struct]. *)
Record User := {
  User_Name : string;
  User_Headers : gmap string string;
  User_Params : gmap string string
}.

(** [type APIRequest struct]. *)
Record APIRequest := {
  APIRequest_Method : string;
  APIRequest_URL : string;
  APIRequest_Headers : gmap string string;
  APIRequest_Body : string;
  APIRequest_Params : gmap string string
}.

(** [type Finding struct]; [Severity] is a string in the source. The
    [Timestamp] field, a reading of the wall clock, is not modelled. *)
Record Finding := {
  Finding_Severity : string;
  Finding_Endpoint : string;
  Finding_Method : string;
  Finding_Description : string;
  Finding_Evidence : string
}.

(** [type Baseline struct]. *)
Record Baseline := {
  Baseline_StatusCode : Z;
  Baseline_BodySize : Z;
  Baseline_BodyHash : string
}.

(** [type BaselineMap map[string]map[string]Baseline]:
    endpoint -> user -> baseline. *)
Abbreviation BaselineMap := (gmap string (gmap string Baseline)).

(** [type ScanJob struct]. *)
Record ScanJob := {
  ScanJob_Request : APIRequest;
  ScanJob_Attacker : User;
  ScanJob_Victim : User;
  ScanJob_Baseline : Baseline
}.

(** [type Scanner struct]: the two slices. The [client] is the parameter
    [executeRequest] below, [rateDelay] only times the sleeps. *)
Record Scanner := {
  Users : list User;
  Requests : list APIRequest
}.

(** Where a [worker] goroutine stands: blocked in [range jobs], between
    the receive of a job and the send of its result, or past its loop. *)
Inductive WorkerState :=
| Waiting
| Holding (job : ScanJob)
| Exited.

Record Pool := {
  Pool_capacity : nat;                   (* cap(jobs) = cap(results) *)
  Pool_pending : list ScanJob;           (* still to be sent by main *)
  Pool_jobs : list ScanJob;              (* buffer of [jobs], oldest first *)
  Pool_closed : bool;                    (* [close(jobs)] done *)
  Pool_workers : list WorkerState;
  Pool_results : list (option Finding);  (* buffer of [results] *)
  Pool_findings : list Finding           (* collected by main *)
}.

Inductive Actor :=
| Main
| Worker (i : nat).

(* ===================================================================== *)
(** * net/http, as far as the scanner uses it *)
(* ===================================================================== *)

(** [textproto.validHeaderFieldByte]: the token characters of RFC 7230. *)
Definition validHeaderFieldByte (c : ascii) : bool :=
  let n := nat_of_ascii c in
  (((48 <=? n) && (n <=? 57)) || ((65 <=? n) && (n <=? 90)) ||
   ((97 <=? n) && (n <=? 122)))%nat ||
  existsb (Nat.eqb n) [33; 35; 36; 37; 38; 39; 42; 43; 45; 46; 94; 95; 96; 124; 126]%nat.

Fixpoint allValidHeaderBytes (s : string) : bool :=
  match s with
  | EmptyString => true
  | String c s' => validHeaderFieldByte c && allValidHeaderBytes s'
  end.

(** The rewriting loop of [textproto.canonicalMIMEHeaderKey]: upper case
    for the first letter and for a letter after a dash, lower case for
    every other letter. *)
Fixpoint canonicalFrom (upper : bool) (s : string) : string :=
  match s with
  | EmptyString => EmptyString
  | String c s' =>
      let c' := if upper then upperByte c else lowerByte c in
      String c' (canonicalFrom (Ascii.eqb c' "-"%char) s')
  end.

(** [textproto.CanonicalMIMEHeaderKey]: a key holding a byte that is not a
    token character (a space too) is returned as it is. *)
Definition CanonicalMIMEHeaderKey (s : string) : string :=
  if allValidHeaderBytes s then canonicalFrom true s else s.

(** [*http.Request] as the scanner builds it. [Request_Header] is the
    [http.Header]; the scanner only ever calls [Set] on it, which leaves
    one value per key. *)
Record HttpRequest := {
  Request_Method : string;
  Request_URL : string;
  Request_Body : string;
  Request_Header : gmap string string
}.

(** [http.Header.Set(key, value)]: the entry goes under the canonical form
    of [key] and replaces what was there. *)
Definition Header_Set (h : gmap string string) (key value : string)
  : gmap string string :=
  <[CanonicalMIMEHeaderKey key := value]> h.

(** What the scanner reads of an [*http.Response]: the status code and the
    bytes [io.ReadAll] returns for the body. *)
Record HttpResponse := {
  Response_StatusCode : Z;
  Response_Body : string
}.

(* ===================================================================== *)
(** * The identifier swapper *)
(* ===================================================================== *)

(** The three placeholder spellings of a parameter:
    [{key}], [:key], [{{key}}]. *)
Definition placeholders (key : string) : list string :=
  [ "{" +:+ key +:+ "}"; ":" +:+ key; "{{" +:+ key +:+ "}}" ].

(** One parameter of the placeholder pass. *)
Definition replacePlaceholder (result : string) (kv : string * string) : string :=
  foldl (fun result placeholder => ReplaceAll result placeholder kv.2)
        result (placeholders kv.1).

(** Strategy 1 of [BuildSwappedURL] and [BuildSwappedBody], and the loop of
    [buildRequest], on one string: [params] lists the map in the order the
    [range] visits it. *)
Definition replacePlaceholders (params : list (string * string)) (s : string)
  : string :=
  foldl replacePlaceholder s params.

(** The body of the strategy 2 loop of [BuildSwappedURL]. *)
Definition replaceLiteral (victimParams : gmap string string)
    (result : string) (kv : string * string) : string :=
  let key := kv.1 in
  let attackerVal := kv.2 in
  match victimParams !! key with
  | Some victimVal =>
      if negb (String.eqb attackerVal victimVal) then
        let result := ReplaceAll result ("/" +:+ attackerVal +:+ "/")
                                        ("/" +:+ victimVal +:+ "/") in
        let result := ReplaceAll result ("/" +:+ attackerVal +:+ "?")
                                        ("/" +:+ victimVal +:+ "?") in
        let result :=
          if HasSuffix result ("/" +:+ attackerVal)
          then TrimSuffix result ("/" +:+ attackerVal) +:+ "/" +:+ victimVal
          else result in
        let result := ReplaceAll result ("=" +:+ attackerVal +:+ "&")
                                        ("=" +:+ victimVal +:+ "&") in
        if HasSuffix result ("=" +:+ attackerVal)
        then TrimSuffix result ("=" +:+ attackerVal) +:+ "=" +:+ victimVal
        else result
      else result
  | None => result
  end.

(** Strategy 2 of [BuildSwappedURL]: [attackerParams] lists the attacker's
    map in the order the [range] visits it. *)
Definition replaceLiterals (attackerParams : list (string * string))
    (victimParams : gmap string string) (url : string) : string :=
  foldl (replaceLiteral victimParams) url attackerParams.

(** [fmt.Sprintf("%s %s", req.Method, req.URL)], the key of a template in
    the baseline map. *)
Definition endpointOf (req : APIRequest) : string :=
  APIRequest_Method req +:+ " " +:+ APIRequest_URL req.

(** [baselines[endpoint][name]] with its [ok]: a missing endpoint gives a
    nil inner map, and a lookup in a nil map misses. *)
Definition lookupBaseline (baselines : BaselineMap) (endpoint name : string)
  : option Baseline :=
  baselines !! endpoint ≫= (fun users => users !! name).

(** The keywords of [buildRequestNoAuth]. *)
Definition authKeywords : list string :=
  [ "auth"; "cookie"; "session"; "token"; "x-api-key" ].

(** The inner loop of [buildRequestNoAuth]: does the lower-cased key hold
    one of the keywords? *)
Definition isAuth (key : string) : bool :=
  existsb (fun kw => Contains (ToLower key) kw) authKeywords.

(** The counters of the summary at the end of [runScan]:
    (critical, high, medium). *)
Definition countSeverities (findings : list Finding) : Z * Z * Z :=
  foldl (fun '(critical, high, medium) f =>
           if String.eqb (Finding_Severity f) "CRITICAL" then (critical + 1, high, medium)
           else if String.eqb (Finding_Severity f) "HIGH" then (critical, high + 1, medium)
           else if String.eqb (Finding_Severity f) "MEDIUM" then (critical, high, medium + 1)
           else (critical, high, medium))
        (0, 0, 0) findings.

(** [findings = append(findings, *f)] guarded by [f != nil]. *)
Definition appendFinding (findings : list Finding) (f : option Finding)
  : list Finding :=
  match f with
  | Some f => findings ++ [f]
  | None => findings
  end.

(** The loop nest shared by [RunWithBaseline] and the queueing loop of
    [RunWithBaselineConcurrent]: every ordered pair of users, the pairs
    with equal names passed over by [continue]. *)
Definition forEachPair {A : Type} (users : list User)
    (body : User → User → A → A) (acc : A) : A :=
  foldl (fun acc attacker =>
           foldl (fun acc victim =>
                    if String.eqb (User_Name attacker) (User_Name victim)
                    then acc
                    else body attacker victim acc)
                 acc users)
        acc users.

(** The loop nest of [Run]: the pairs with equal indices passed over. *)
Definition forEachIndexPair {A : Type} (users : list User)
    (body : User → User → A → A) (acc : A) : A :=
  foldl (fun acc '(i, user1) =>
           foldl (fun acc '(j, user2) =>
                    if Nat.eqb i j then acc else body user1 user2 acc)
                 acc (zip (seq 0 (List.length users)) users))
        acc (zip (seq 0 (List.length users)) users).

(** The pairs at which the body of [forEachPair] runs, in order: the
    cross-identity tests of one template. *)
Definition crossPairs (users : list User) : list (User * User) :=
  forEachPair users (fun attacker victim acc => acc ++ [(attacker, victim)]) [].

(** The victims of one attacker: the users under another name. *)
Definition victimsOf (users : list User) (attacker : User) : list (User * User) :=
  (fun victim => (attacker, victim))
    <$> filter (fun victim => User_Name attacker ≠ User_Name victim) users.

(** The job the queueing loop sends for a template and a pair of users:
    none when the victim has no baseline under the endpoint. *)
Definition jobOf (baselines : BaselineMap) (req : APIRequest)
    (p : User * User) : option ScanJob :=
  match lookupBaseline baselines (endpointOf req) (User_Name p.2) with
  | None => None
  | Some baseline =>
      Some {| ScanJob_Request := req;
              ScanJob_Attacker := p.1;
              ScanJob_Victim := p.2;
              ScanJob_Baseline := baseline |}
  end.

(** The double quote, as a string. *)
Definition quote : string := String (ascii_of_nat 34) EmptyString.

(** The body of the second loop of [BuildSwappedBody]. *)
Definition replaceBodyLiteral (victimParams : gmap string string)
    (result : string) (kv : string * string) : string :=
  let key := kv.1 in
  let attackerVal := kv.2 in
  match victimParams !! key with
  | Some victimVal =>
      if negb (String.eqb attackerVal victimVal) then
        let result := ReplaceAll result (quote +:+ attackerVal +:+ quote)
                                        (quote +:+ victimVal +:+ quote) in
        ReplaceAll result attackerVal victimVal
      else result
  | None => result
  end.

(** The decision rule of the cross-identity test in the words of the
    specification: a function of the status code, the size of the response
    body and the size of the victim's baseline body. *)
Definition severityRule (statusCode responseBodySize baselineBodySize : Z)
  : option string :=
  if ((statusCode =? 200) || (statusCode =? 201)) &&
     (Z.abs (responseBodySize - baselineBodySize) <? 50) &&
     (0 <? baselineBodySize)
  then Some "CRITICAL"
  else if ((statusCode =? 200) || (statusCode =? 201)) && (50 <? responseBodySize)
  then Some "HIGH"
  else None.

(* ===================================================================== *)
(** * The request catalogs: HAR files and Postman collections *)
(* ===================================================================== *)

(** The structures [encoding/json] decodes a HAR file into. *)
Record HARHeader := {
  HARHeader_Name : string;
  HARHeader_Value : string
}.

Record HARPostData := {
  HARPostData_MimeType : string;
  HARPostData_Text : string
}.

(** [PostData] is a pointer in the source: [None] is its [nil]. *)
Record HARRequest := {
  HARRequest_Method : string;
  HARRequest_URL : string;
  HARRequest_Headers : list HARHeader;
  HARRequest_PostData : option HARPostData
}.

Record HAREntry := {
  HAREntry_Request : HARRequest
}.

Record HARLog := {
  HARLog_Entries : list HAREntry
}.

Record HARFile := {
  HARFile_Log : HARLog
}.

(** The test of the header loop of [parseHARFile]: pseudo-headers and the
    headers a browser adds are passed over. ([strings.ToLower] as above: on
    the ASCII letters.) *)
Definition harSkipped (name : string) : bool :=
  let lowerName := ToLower name in
  HasPrefix lowerName ":" ||
  String.eqb lowerName "host" ||
  String.eqb lowerName "connection" ||
  String.eqb lowerName "accept-encoding" ||
  String.eqb lowerName "accept-language" ||
  String.eqb lowerName "user-agent".

(** The header loop of [parseHARFile]. *)
Definition harHeaders (hs : list HARHeader) : gmap string string :=
  foldl (fun headers h =>
           if harSkipped (HARHeader_Name h) then headers
           else <[HARHeader_Name h := HARHeader_Value h]> headers)
        ∅ hs.

(** The key by which [parseHARFile] tells entries apart. *)
Definition harKey (entry : HAREntry) : string :=
  HARRequest_Method (HAREntry_Request entry) +:+ " " +:+
  HARRequest_URL (HAREntry_Request entry).

(** The template [parseHARFile] makes of an entry. *)
Definition harRequest (entry : HAREntry) : APIRequest :=
  let headers := harHeaders (HARRequest_Headers (HAREntry_Request entry)) in
  let body :=
    match HARRequest_PostData (HAREntry_Request entry) with
    | Some postData => HARPostData_Text postData
    | None => EmptyString
    end in
  {| APIRequest_Method := HARRequest_Method (HAREntry_Request entry);
     APIRequest_URL := HARRequest_URL (HAREntry_Request entry);
     APIRequest_Headers := headers;
     APIRequest_Body := body;
     APIRequest_Params := ∅ |}.

(** One turn of the loop of [parseHARFile] over the entries; [seen] is the
    set of the keys mapped to [true]. *)
Definition harStep (state : list APIRequest * gset string) (entry : HAREntry)
  : list APIRequest * gset string :=
  let '(requests, seen) := state in
  let key := harKey entry in
  if decide (key ∈ seen) then (requests, seen)
  else (requests ++ [harRequest entry], {[ key ]} ∪ seen).

(** [parseHARFile], from the file read and decoded. *)
Definition parseHARFile (har : HARFile) : list APIRequest :=
  (foldl harStep ([], ∅) (HARLog_Entries (HARFile_Log har))).1.

(** What the loop of [parseHARFile] keeps true, with [processed] the
    entries behind it. *)
Definition harInvariant (processed : list HAREntry)
    (state : list APIRequest * gset string) : Prop :=
  (∀ key, key ∈ state.2 ↔ key ∈ harKey <$> processed)
  ∧ (∀ key, key ∈ state.2 ↔ key ∈ endpointOf <$> state.1)
  ∧ NoDup (endpointOf <$> state.1)
  ∧ (∀ req, req ∈ state.1 ↔
       (∃ before entry after,
          processed = before ++ entry :: after ∧
          (harKey entry ∉ harKey <$> before) ∧
          req = harRequest entry))
  ∧ (List.length state.1 ≤ List.length processed)%nat.

(** The structures a Postman collection is decoded into. An item with
    sub-items is a folder. *)
Record PostmanHeader := {
  PostmanHeader_Key : string;
  PostmanHeader_Value : string
}.

Record PostmanURL := {
  PostmanURL_Raw : string;
  PostmanURL_Host : list string;
  PostmanURL_Path : list string
}.

Record PostmanBody := {
  PostmanBody_Mode : string;
  PostmanBody_Raw : string
}.

Record PostmanRequest := {
  PostmanRequest_Method : string;
  PostmanRequest_Header : list PostmanHeader;
  PostmanRequest_URL : PostmanURL;
  PostmanRequest_Body : PostmanBody
}.

#[warnings="-register-all"]
Inductive PostmanItem :=
| mkPostmanItem (Name : string) (Request : PostmanRequest) (Item : list PostmanItem).

Definition PostmanItem_Request (item : PostmanItem) : PostmanRequest :=
  match item with mkPostmanItem _ request _ => request end.

Definition PostmanItem_Item (item : PostmanItem) : list PostmanItem :=
  match item with mkPostmanItem _ _ items => items end.

(** The template [parseItems] makes of the request of an item. *)
Definition postmanRequest (request : PostmanRequest) : APIRequest :=
  let headers :=
    foldl (fun headers h => <[PostmanHeader_Key h := PostmanHeader_Value h]> headers)
          ∅ (PostmanRequest_Header request) in
  {| APIRequest_Method := PostmanRequest_Method request;
     APIRequest_URL := PostmanURL_Raw (PostmanRequest_URL request);
     APIRequest_Headers := headers;
     APIRequest_Body := PostmanBody_Raw (PostmanRequest_Body request);
     APIRequest_Params := ∅ |}.

(** [parseItems]. *)
Fixpoint parseItems (item : PostmanItem) : list APIRequest :=
  match item with
  | mkPostmanItem _ request items =>
      match items with
      | _ :: _ =>
          (fix parseAll (subItems : list PostmanItem) : list APIRequest :=
             match subItems with
             | [] => []
             | subItem :: rest => parseItems subItem ++ parseAll rest
             end) items
      | [] =>
          if negb (String.eqb (PostmanRequest_Method request) EmptyString)
          then [postmanRequest request]
          else []
      end
  end.

(** [parsePostmanCollection], from the collection read and decoded:
    [items] is its [Item]. *)
Definition parsePostmanCollection (items : list PostmanItem) : list APIRequest :=
  foldl (fun requests item => requests ++ parseItems item) [] items.

(** The items without sub-items under an item, itself included. *)
Inductive leafOf : PostmanItem → PostmanItem → Prop :=
| leafOf_here (item : PostmanItem) :
    PostmanItem_Item item = [] → leafOf item item
| leafOf_under (item subItem leaf : PostmanItem) :
    subItem ∈ PostmanItem_Item item → leafOf subItem leaf → leafOf item leaf.

(** The value of the last header of a list under a name. *)
Definition lastValue {H : Type} (name : H → string) (value : H → string)
    (hs : list H) (key : string) : option string :=
  last (value <$> filter (fun h => name h = key) hs).

(* ===================================================================== *)
(** * Identifiers in URLs, the OpenAPI catalog and the request rate *)
(* ===================================================================== *)

(** [strings.Split(s, sep)] for a separator of one byte: the pieces of [s]
    between the separators; a string without the separator is the one
    piece. *)
Fixpoint SplitByte (sep : ascii) (s : string) : list string :=
  match s with
  | EmptyString => [EmptyString]
  | String c s' =>
      if Ascii.eqb c sep then EmptyString :: SplitByte sep s'
      else match SplitByte sep s' with
           | part :: parts => String c part :: parts
           | [] => [String c EmptyString]
           end
  end.

Definition inCutset (cutset : string) (c : ascii) : bool :=
  existsb (Ascii.eqb c) (list_ascii_of_string cutset).

Fixpoint TrimLeft (s cutset : string) : string :=
  match s with
  | EmptyString => EmptyString
  | String c s' => if inCutset cutset c then TrimLeft s' cutset else s
  end.

Fixpoint TrimRight (s cutset : string) : string :=
  match s with
  | EmptyString => EmptyString
  | String c s' =>
      match TrimRight s' cutset with
      | EmptyString => if inCutset cutset c then EmptyString else String c EmptyString
      | kept => String c kept
      end
  end.

(** [strings.Trim(s, cutset)] for a cutset of ASCII bytes. *)
Definition Trim (s cutset : string) : string :=
  TrimRight (TrimLeft s cutset) cutset.

(** [type IDPattern struct]. *)
Record IDPattern := {
  IDPattern_Location : string;
  IDPattern_Key : string;
  IDPattern_Value : string
}.

(** [idPatterns]: the sources of the three regular expressions. *)
Definition idPatterns : list string :=
  [ "[0-9a-f]{8}-[0-9a-f]{4}-[0-9a-f]{4}-[0-9a-f]{4}-[0-9a-f]{12}";
    "[0-9a-f]{24}";
    "\b\d{1,10}\b" ].

(** [idSegmentPatterns]. *)
Definition idSegmentPatterns : list string :=
  [ "users"; "user"; "accounts"; "account"; "profiles"; "profile";
    "orders"; "order"; "items"; "item"; "posts"; "post";
    "comments"; "comment"; "messages"; "message"; "files"; "file";
    "documents"; "document"; "records"; "record"; "entries"; "entry";
    "customers"; "customer"; "products"; "product"; "invoices"; "invoice" ].

(** The test of the inner loop of [SwapIDsInURL]: one of the two names,
    in lower case, contains the other. *)
Definition keyMatches (paramKey idKey : string) : bool :=
  Contains (ToLower paramKey) (ToLower idKey) ||
  Contains (ToLower idKey) (ToLower paramKey).

(** The structures an OpenAPI or Swagger description is decoded into; of
    the description itself the fields [parseOpenAPISpec] reads. The
    operations of a path and the request body of an operation are pointers
    in the source: [None] is [nil]. *)
Record OpenAPIServer := {
  OpenAPIServer_URL : string
}.

Record Schema := {
  Schema_Type : string
}.

(** [type Parameter struct]; the name of the type is a keyword here. *)
Record OpenAPIParameter := {
  Parameter_Name : string;
  Parameter_In : string;
  Parameter_Required : bool;
  Parameter_Schema : Schema
}.

Record MediaType := {
  MediaType_Schema : Schema
}.

Record RequestBody := {
  RequestBody_Content : gmap string MediaType
}.

Record Operation := {
  Operation_OperationID : string;
  Operation_Summary : string;
  Operation_Parameters : list OpenAPIParameter;
  Operation_RequestBody : option RequestBody
}.

Record PathItem := {
  PathItem_Get : option Operation;
  PathItem_Post : option Operation;
  PathItem_Put : option Operation;
  PathItem_Patch : option Operation;
  PathItem_Delete : option Operation;
  PathItem_Options : option Operation;
  PathItem_Head : option Operation
}.

Record OpenAPISpec := {
  OpenAPISpec_Servers : list OpenAPIServer;
  OpenAPISpec_Host : string;
  OpenAPISpec_BasePath : string;
  OpenAPISpec_Schemes : list string;
  OpenAPISpec_Paths : gmap string PathItem
}.

(** The base URL [parseOpenAPISpec] puts in front of every path. *)
Definition baseURLOf (spec : OpenAPISpec) : string :=
  match OpenAPISpec_Servers spec with
  | server :: _ => TrimSuffix (OpenAPIServer_URL server) "/"
  | [] =>
      if negb (String.eqb (OpenAPISpec_Host spec) EmptyString)
      then
        let scheme :=
          match OpenAPISpec_Schemes spec with
          | first :: _ => first
          | [] => "https"
          end in
        scheme +:+ "://" +:+ OpenAPISpec_Host spec +:+ OpenAPISpec_BasePath spec
      else EmptyString
  end.

(** The map [operations] of one path. *)
Definition operationsOf (pathItem : PathItem) : gmap string (option Operation) :=
  <["HEAD" := PathItem_Head pathItem]>
  (<["OPTIONS" := PathItem_Options pathItem]>
  (<["DELETE" := PathItem_Delete pathItem]>
  (<["PATCH" := PathItem_Patch pathItem]>
  (<["PUT" := PathItem_Put pathItem]>
  (<["POST" := PathItem_Post pathItem]>
  (<["GET" := PathItem_Get pathItem]> ∅)))))).

(** The header loop of [parseOpenAPISpec]: a parameter sent in a header
    becomes a header whose value is the placeholder of its name. *)
Definition openAPIHeaders (parameters : list OpenAPIParameter) : gmap string string :=
  foldl (fun headers param =>
           if String.eqb (Parameter_In param) "header"
           then <[Parameter_Name param := "{" +:+ Parameter_Name param +:+ "}"]> headers
           else headers)
        ∅ parameters.

(** The template [parseOpenAPISpec] makes of one operation of one path. *)
Definition openAPIRequest (baseURL path method : string) (op : Operation)
  : APIRequest :=
  {| APIRequest_Method := method;
     APIRequest_URL := baseURL +:+ path;
     APIRequest_Headers := openAPIHeaders (Operation_Parameters op);
     APIRequest_Body := EmptyString;
     APIRequest_Params := ∅ |}.

(** [time.Duration]: nanoseconds. *)
Definition Millisecond : Z := 1000000.
Definition Second : Z := 1000000000.

(** The delay [NewScanner] starts with. *)
Definition defaultRateDelay : Z := 100 * Millisecond.

(** [SetRateLimit]: the delay of the scanner after the call, from the
    delay before it. Go's integer division truncates. *)
Definition SetRateLimit (rateDelay requestsPerSecond : Z) : Z :=
  if 0 <? requestsPerSecond then Second ÷ requestsPerSecond else rateDelay.

(** [NewRateLimiter]: the delay of the limiter; [None] is the run-time
    panic of an integer division by zero. *)
Definition NewRateLimiter (requestsPerSecond : Z) : option Z :=
  if requestsPerSecond =? 0 then None else Some (Second ÷ requestsPerSecond).

(** [Wait]: the time slept, from the delay of the limiter and the time
    [elapsed] since the call before. *)
Definition Wait (delay elapsed : Z) : Z :=
  if elapsed <? delay then int_sub delay elapsed else 0.

(* ===================================================================== *)
(** * A worked scan: the demonstration set-up of the repository *)
(* ===================================================================== *)

Definition alice : User :=
  {| User_Name := "alice";
     User_Headers := {[ "Authorization" := "Bearer alice-token" ]};
     User_Params := {[ "user_id" := "123" ]} |}.

Definition bob : User :=
  {| User_Name := "bob";
     User_Headers := {[ "Authorization" := "Bearer bob-token" ]};
     User_Params := {[ "user_id" := "456" ]} |}.

(** A second identity under the name of [alice]. *)
Definition alice2 : User :=
  {| User_Name := "alice";
     User_Headers := {[ "Authorization" := "Bearer other-token" ]};
     User_Params := {[ "user_id" := "789" ]} |}.

Definition getUser : APIRequest :=
  {| APIRequest_Method := "GET";
     APIRequest_URL := "http://localhost:8888/api/users/{user_id}";
     APIRequest_Headers := {[ "Accept" := "application/json" ]};
     APIRequest_Body := EmptyString;
     APIRequest_Params := ∅ |}.

Definition getHealth : APIRequest :=
  {| APIRequest_Method := "GET";
     APIRequest_URL := "http://localhost:8888/health";
     APIRequest_Headers := ∅;
     APIRequest_Body := EmptyString;
     APIRequest_Params := ∅ |}.

(** An identity whose credential is spelled in lower case, and a template
    recorded with the credential of alice. *)
Definition mallory : User :=
  {| User_Name := "mallory";
     User_Headers := {[ "authorization" := "Bearer mallory-token" ]};
     User_Params := ∅ |}.

Definition getAliceRecorded : APIRequest :=
  {| APIRequest_Method := "GET";
     APIRequest_URL := "http://localhost:8888/api/users/123";
     APIRequest_Headers := {[ "Authorization" := "Bearer alice-token" ]};
     APIRequest_Body := EmptyString;
     APIRequest_Params := ∅ |}.

Definition demoScanner : Scanner :=
  {| Users := [alice; bob]; Requests := [getUser; getHealth] |}.

(** Two identities under one name. *)
Definition twoAlices : Scanner :=
  {| Users := [alice; alice2]; Requests := [getUser] |}.

(** The request of bob for the profile of alice, the response of the
    server below to it, and the baseline of alice for the template. *)
Definition bobAsAlice : HttpRequest :=
  {| Request_Method := "GET";
     Request_URL := "http://localhost:8888/api/users/123";
     Request_Body := EmptyString;
     Request_Header := {[ "Authorization" := "Bearer bob-token" ]} |}.

Definition aliceProfile : HttpResponse :=
  {| Response_StatusCode := 200;
     Response_Body :=
       "{id: 123, name: Alice, email: alice@example.com, ssn: 111-22-3333}" |}.

Definition aliceBaseline : Baseline :=
  {| Baseline_StatusCode := 200;
     Baseline_BodySize := 66;
     Baseline_BodyHash := EmptyString |}.

Definition aliceOnly : BaselineMap :=
  {[ "GET http://localhost:8888/api/users/{user_id}" := {[ "alice" := aliceBaseline ]} ]}.

(** A schedule of main and two workers under which the results come back
    out of the order of the queue. *)
Definition interleaved : list Actor :=
  [ Main; Main; Worker 0; Worker 1; Main; Main; Main; Worker 1; Worker 0;
    Worker 1; Worker 0; Main; Worker 0; Main; Worker 1; Main; Main;
    Worker 0; Worker 1 ].

(** Every method and URL accepted by [http.NewRequest]. *)
Definition acceptAll (method url : string) : bool := true.

(** A server in the manner of the test server of the repository: no
    [Authorization] header, 401; a profile for the ids 123 and 456 whoever
    asks; [ok] for the health check; 404 otherwise. *)
Definition vulnerableServer (r : HttpRequest) : option HttpResponse :=
  if HasSuffix (Request_URL r) "/health" then
    Some {| Response_StatusCode := 200; Response_Body := "ok" |}
  else
    match Request_Header r !! "Authorization" with
    | None =>
        Some {| Response_StatusCode := 401;
                Response_Body := "{error: unauthorized}" |}
    | Some _ =>
        if HasSuffix (Request_URL r) "/123" then
          Some {| Response_StatusCode := 200;
                  Response_Body :=
                    "{id: 123, name: Alice, email: alice@example.com, ssn: 111-22-3333}" |}
        else if HasSuffix (Request_URL r) "/456" then
          Some {| Response_StatusCode := 200;
                  Response_Body :=
                    "{id: 456, name: Bob, email: bob@example.com, ssn: 444-55-6666}" |}
        else
          Some {| Response_StatusCode := 404; Response_Body := "Not found" |}
    end.

(** A server that answers every request with 200 and a page of 64 bytes. *)
Definition openServer (r : HttpRequest) : option HttpResponse :=
  Some {| Response_StatusCode := 200;
          Response_Body :=
            "0123456789abcdef0123456789abcdef0123456789abcdef0123456789abcdef" |}.

(** Modelled from the spec: [buildRequestWithSwap], whose file is missing
    from the sources; section 4.2 has it combine strategy 1 (the victim's
    placeholders) with strategy 2 (the victim's literals for the
    attacker's) before attaching the attacker's headers. It serves the
    worked examples only; the theorems hold for every builder. *)
Definition swapRequest (req : APIRequest) (attacker victim : User)
  : option HttpRequest :=
  let url :=
    replaceLiterals (map_to_list (User_Params attacker)) (User_Params victim)
      (replacePlaceholders (map_to_list (User_Params victim))
                           (APIRequest_URL req)) in
  let body :=
    foldl (replaceBodyLiteral (User_Params victim))
      (replacePlaceholders (map_to_list (User_Params victim))
                           (APIRequest_Body req))
      (map_to_list (User_Params attacker)) in
  Some {| Request_Method := APIRequest_Method req;
          Request_URL := url;
          Request_Body := body;
          Request_Header :=
            foldl (fun h kv => Header_Set h kv.1 kv.2) ∅
                  (map_to_list (User_Headers attacker)) |}.

(** A recording in the manner of a browser: the profile of alice asked
    for twice, the second time with another credential, and an order
    posted. *)
Definition harGetAlice : HAREntry :=
  {| HAREntry_Request :=
       {| HARRequest_Method := "GET";
          HARRequest_URL := "http://localhost:8888/api/users/123";
          HARRequest_Headers :=
            [ {| HARHeader_Name := ":authority"; HARHeader_Value := "localhost:8888" |};
              {| HARHeader_Name := "Host"; HARHeader_Value := "localhost:8888" |};
              {| HARHeader_Name := "Accept"; HARHeader_Value := "text/html" |};
              {| HARHeader_Name := "Authorization"; HARHeader_Value := "Bearer alice-token" |};
              {| HARHeader_Name := "Accept"; HARHeader_Value := "application/json" |} ];
          HARRequest_PostData := None |} |}.

Definition harGetAliceAgain : HAREntry :=
  {| HAREntry_Request :=
       {| HARRequest_Method := "GET";
          HARRequest_URL := "http://localhost:8888/api/users/123";
          HARRequest_Headers :=
            [ {| HARHeader_Name := "Authorization"; HARHeader_Value := "Bearer other-token" |} ];
          HARRequest_PostData := None |} |}.

Definition harPostOrder : HAREntry :=
  {| HAREntry_Request :=
       {| HARRequest_Method := "POST";
          HARRequest_URL := "http://localhost:8888/api/orders";
          HARRequest_Headers :=
            [ {| HARHeader_Name := "User-Agent"; HARHeader_Value := "Mozilla/5.0" |};
              {| HARHeader_Name := "Content-Type"; HARHeader_Value := "application/json" |} ];
          HARRequest_PostData :=
            Some {| HARPostData_MimeType := "application/json";
                    HARPostData_Text := "{owner: 123}" |} |} |}.

Definition demoHAR : HARFile :=
  {| HARFile_Log :=
       {| HARLog_Entries := [harGetAlice; harGetAliceAgain; harPostOrder] |} |}.

Definition harScanner : Scanner :=
  {| Users := [alice; bob]; Requests := parseHARFile demoHAR |}.

(** A description with one path and two operations. *)
Definition getUserOperation : Operation :=
  {| Operation_OperationID := "getUser";
     Operation_Summary := "Read a user";
     Operation_Parameters :=
       [ {| Parameter_Name := "user_id"; Parameter_In := "path";
            Parameter_Required := true;
            Parameter_Schema := {| Schema_Type := "integer" |} |};
         {| Parameter_Name := "X-Api-Key"; Parameter_In := "header";
            Parameter_Required := true;
            Parameter_Schema := {| Schema_Type := "string" |} |} ];
     Operation_RequestBody := None |}.

Definition deleteUserOperation : Operation :=
  {| Operation_OperationID := "deleteUser";
     Operation_Summary := "Delete a user";
     Operation_Parameters := [];
     Operation_RequestBody :=
       Some {| RequestBody_Content :=
                 {[ "application/json" :=
                      {| MediaType_Schema := {| Schema_Type := "object" |} |} ]} |} |}.

Definition demoSpec : OpenAPISpec :=
  {| OpenAPISpec_Servers := [ {| OpenAPIServer_URL := "http://localhost:8888/" |} ];
     OpenAPISpec_Host := EmptyString;
     OpenAPISpec_BasePath := EmptyString;
     OpenAPISpec_Schemes := [];
     OpenAPISpec_Paths :=
       {[ "/api/users/{user_id}" :=
            {| PathItem_Get := Some getUserOperation;
               PathItem_Post := None;
               PathItem_Put := None;
               PathItem_Patch := None;
               PathItem_Delete := Some deleteUserOperation;
               PathItem_Options := None;
               PathItem_Head := None |} ]} |}.

(** A matcher for the worked examples: a segment of decimal digits, one
    to ten of them, fits the third expression; nothing fits the others. *)
Definition isDigit (c : ascii) : bool :=
  let n := nat_of_ascii c in ((48 <=? n) && (n <=? 57))%nat.

Definition digitsOnly (re part : string) : bool :=
  String.eqb re "\b\d{1,10}\b"
  && forallb isDigit (list_ascii_of_string part)
  && (1 <=? String.length part)%nat && (String.length part <=? 10)%nat.

Section Scanner.

(** The order in which the runtime visits a map in a [range]. *)
Variable range : gmap string string → list (string * string).
Hypothesis range_perm : ∀ m, range m ≡ₚ map_to_list m.

(** Whether [http.NewRequest(method, url, body)] returns a request: the
    method is valid and the URL parses. That is net/http's business. *)
Variable NewRequest_ok : string → string → bool.

(** [s.client.Do(req)]: the response of the server under test to the
    request, [None] for a transport error. *)
Variable executeRequest : HttpRequest → option HttpResponse.

(** [buildRequestWithSwap(req, attacker, victim)], called by the two
    baseline tests; its file is not part of the sources at hand, so it is
    a parameter. [None] is its [nil]. *)
Variable buildRequestWithSwap : APIRequest → User → User → option HttpRequest.

(** [BuildSwappedURL]. *)
Definition BuildSwappedURL (originalURL : string)
    (attackerParams victimParams : gmap string string) : string :=
  let result := originalURL in
  let result := replacePlaceholders (range victimParams) result in
  replaceLiterals (range attackerParams) victimParams result.

(** [buildRequest]: the URL and the body go through the placeholder loop
    side by side. *)
Definition buildRequest (req : APIRequest) (user : User)
    (params : gmap string string) : option HttpRequest :=
  let '(url, body) :=
    foldl (fun '(url, body) '(key, val) =>
             foldl (fun '(url, body) placeholder =>
                      (ReplaceAll url placeholder val,
                       ReplaceAll body placeholder val))
                   (url, body) (placeholders key))
          (APIRequest_URL req, APIRequest_Body req) (range params) in
  if NewRequest_ok (APIRequest_Method req) url then
    let header :=
      foldl (fun h '(key, val) => Header_Set h key val)
            ∅ (range (User_Headers user)) in
    let header :=
      foldl (fun h '(key, val) =>
               match User_Headers user !! key with
               | Some _ => h
               | None => Header_Set h key val
               end)
            header (range (APIRequest_Headers req)) in
    Some {| Request_Method := APIRequest_Method req;
            Request_URL := url;
            Request_Body := body;
            Request_Header := header |}
  else None.

(** [buildRequestNoAuth]. *)
Definition buildRequestNoAuth (req : APIRequest) : option HttpRequest :=
  if NewRequest_ok (APIRequest_Method req) (APIRequest_URL req) then
    let header :=
      foldl (fun h '(key, val) =>
               if isAuth key then h else Header_Set h key val)
            ∅ (range (APIRequest_Headers req)) in
    Some {| Request_Method := APIRequest_Method req;
            Request_URL := APIRequest_URL req;
            Request_Body := APIRequest_Body req;
            Request_Header := header |}
  else None.

(** [testCrossUserAccess]. *)
Definition testCrossUserAccess (req : APIRequest) (attacker victim : User)
  : option Finding :=
  match buildRequest req attacker (User_Params victim) with
  | None => None
  | Some testReq =>
      match executeRequest testReq with
      | None => None
      | Some resp =>
          let body := Response_Body resp in
          if (Response_StatusCode resp =? 200) || (Response_StatusCode resp =? 201)
          then Some {|
            Finding_Severity := "CRITICAL";
            Finding_Endpoint := APIRequest_URL req;
            Finding_Method := APIRequest_Method req;
            Finding_Description :=
              "User '" +:+ User_Name attacker +:+
              "' accessed resources belonging to '" +:+ User_Name victim +:+ "'";
            Finding_Evidence :=
              "Status: " +:+ pretty (Response_StatusCode resp) +:+
              ", Size: " +:+ pretty (len body) +:+ " bytes (expected 403/404)" |}
          else None
      end
  end.

(** [testNoAuth]. *)
Definition testNoAuth (req : APIRequest) : option Finding :=
  match buildRequestNoAuth req with
  | None => None
  | Some testReq =>
      match executeRequest testReq with
      | None => None
      | Some resp =>
          let body := Response_Body resp in
          if (Response_StatusCode resp =? 200) && (50 <? len body) then
            let bodyStr := body in
            if Contains bodyStr "unauthorized" || Contains bodyStr "forbidden"
            then None
            else Some {|
              Finding_Severity := "HIGH";
              Finding_Endpoint := APIRequest_URL req;
              Finding_Method := APIRequest_Method req;
              Finding_Description := "Endpoint accessible without authentication";
              Finding_Evidence :=
                "Status: " +:+ pretty (Response_StatusCode resp) +:+
                ", Response size: " +:+ pretty (len body) +:+ " bytes" |}
          else None
      end
  end.

(** [Run]: the scan without baselines. *)
Definition Run (s : Scanner) : list Finding :=
  foldl (fun findings req =>
           let findings :=
             forEachIndexPair (Users s)
               (fun user1 user2 findings =>
                  appendFinding findings (testCrossUserAccess req user1 user2))
               findings in
           appendFinding findings (testNoAuth req))
        [] (Requests s).

(** The body of the inner loop of [CaptureBaselines]. *)
Definition captureBaseline (req : APIRequest) (endpoint : string)
    (baselines : BaselineMap) (user : User) : BaselineMap :=
  match buildRequest req user (User_Params user) with
  | None => baselines
  | Some testReq =>
      match executeRequest testReq with
      | None => baselines
      | Some resp =>
          let body := Response_Body resp in
          <[endpoint :=
              <[User_Name user :=
                  {| Baseline_StatusCode := Response_StatusCode resp;
                     Baseline_BodySize := len body;
                     Baseline_BodyHash := EmptyString |}]>
                (default ∅ (baselines !! endpoint))]> baselines
      end
  end.

(** [CaptureBaselines]. *)
Definition CaptureBaselines (s : Scanner) : BaselineMap :=
  foldl (fun baselines req =>
           let endpoint := endpointOf req in
           let baselines := <[endpoint := ∅]> baselines in
           foldl (captureBaseline req endpoint) baselines (Users s))
        ∅ (Requests s).

(** [testCrossUserWithBaseline]. *)
Definition testCrossUserWithBaseline (req : APIRequest)
    (attacker victim : User) (baselines : BaselineMap) : option Finding :=
  let endpoint := endpointOf req in
  match lookupBaseline baselines endpoint (User_Name victim) with
  | None => None
  | Some victimBaseline =>
      match buildRequestWithSwap req attacker victim with
      | None => None
      | Some testReq =>
          match executeRequest testReq with
          | None => None
          | Some resp =>
              let body := Response_Body resp in
              if (Response_StatusCode resp =? 200) || (Response_StatusCode resp =? 201)
              then
                let sizeDiff :=
                  abs (int_sub (len body) (Baseline_BodySize victimBaseline)) in
                if (sizeDiff <? 50) && (0 <? Baseline_BodySize victimBaseline)
                then Some {|
                  Finding_Severity := "CRITICAL";
                  Finding_Endpoint := APIRequest_URL req;
                  Finding_Method := APIRequest_Method req;
                  Finding_Description :=
                    "User '" +:+ User_Name attacker +:+ "' accessed '" +:+
                    User_Name victim +:+
                    "'s data (response matches victim's baseline)";
                  Finding_Evidence :=
                    "Status: " +:+ pretty (Response_StatusCode resp) +:+
                    ", Size: " +:+ pretty (len body) +:+
                    " bytes (victim baseline: " +:+
                    pretty (Baseline_BodySize victimBaseline) +:+ " bytes)" |}
                else if 50 <? len body
                then Some {|
                  Finding_Severity := "HIGH";
                  Finding_Endpoint := APIRequest_URL req;
                  Finding_Method := APIRequest_Method req;
                  Finding_Description :=
                    "User '" +:+ User_Name attacker +:+ "' got 200 accessing '" +:+
                    User_Name victim +:+
                    "'s resource (size differs from baseline)";
                  Finding_Evidence :=
                    "Status: " +:+ pretty (Response_StatusCode resp) +:+
                    ", Size: " +:+ pretty (len body) +:+
                    " bytes (victim baseline: " +:+
                    pretty (Baseline_BodySize victimBaseline) +:+ " bytes)" |}
                else None
              else None
          end
      end
  end.

(** The loops of [RunWithBaseline], from baselines already captured. *)
Definition runWithBaselines (s : Scanner) (baselines : BaselineMap)
  : list Finding :=
  foldl (fun findings req =>
           let findings :=
             forEachPair (Users s)
               (fun attacker victim findings =>
                  appendFinding findings
                    (testCrossUserWithBaseline req attacker victim baselines))
               findings in
           appendFinding findings (testNoAuth req))
        [] (Requests s).

(** [RunWithBaseline]. *)
Definition RunWithBaseline (s : Scanner) : list Finding :=
  let baselines := CaptureBaselines s in
  runWithBaselines s baselines.

(** [executeScanJob]. *)
Definition executeScanJob (job : ScanJob) : option Finding :=
  match buildRequestWithSwap (ScanJob_Request job) (ScanJob_Attacker job)
                             (ScanJob_Victim job) with
  | None => None
  | Some testReq =>
      match executeRequest testReq with
      | None => None
      | Some resp =>
          let body := Response_Body resp in
          if (Response_StatusCode resp =? 200) || (Response_StatusCode resp =? 201)
          then
            let sizeDiff :=
              abs (int_sub (len body) (Baseline_BodySize (ScanJob_Baseline job))) in
            if (sizeDiff <? 50) && (0 <? Baseline_BodySize (ScanJob_Baseline job))
            then Some {|
              Finding_Severity := "CRITICAL";
              Finding_Endpoint := APIRequest_URL (ScanJob_Request job);
              Finding_Method := APIRequest_Method (ScanJob_Request job);
              Finding_Description :=
                "User '" +:+ User_Name (ScanJob_Attacker job) +:+ "' accessed '" +:+
                User_Name (ScanJob_Victim job) +:+
                "'s data (response matches victim's baseline)";
              Finding_Evidence :=
                "Status: " +:+ pretty (Response_StatusCode resp) +:+
                ", Size: " +:+ pretty (len body) +:+
                " bytes (victim baseline: " +:+
                pretty (Baseline_BodySize (ScanJob_Baseline job)) +:+ " bytes)" |}
            else if 50 <? len body
            then Some {|
              Finding_Severity := "HIGH";
              Finding_Endpoint := APIRequest_URL (ScanJob_Request job);
              Finding_Method := APIRequest_Method (ScanJob_Request job);
              Finding_Description :=
                "User '" +:+ User_Name (ScanJob_Attacker job) +:+
                "' got 200 accessing '" +:+ User_Name (ScanJob_Victim job) +:+
                "'s resource (size differs from baseline)";
              Finding_Evidence :=
                "Status: " +:+ pretty (Response_StatusCode resp) +:+
                ", Size: " +:+ pretty (len body) +:+
                " bytes (victim baseline: " +:+
                pretty (Baseline_BodySize (ScanJob_Baseline job)) +:+ " bytes)" |}
            else None
          else None
      end
  end.

(** The jobs the queueing loop of [RunWithBaselineConcurrent] sends for
    one template, in the order it sends them. *)
Definition queueJobsFor (users : list User) (baselines : BaselineMap)
    (req : APIRequest) (jobs : list ScanJob) : list ScanJob :=
  let endpoint := endpointOf req in
  forEachPair users
    (fun attacker victim jobs =>
       match lookupBaseline baselines endpoint (User_Name victim) with
       | None => jobs
       | Some baseline =>
           jobs ++ [ {| ScanJob_Request := req;
                        ScanJob_Attacker := attacker;
                        ScanJob_Victim := victim;
                        ScanJob_Baseline := baseline |} ]
       end)
    jobs.

(** All the jobs of the queueing loop, in the order they are sent. *)
Definition queueJobs (s : Scanner) (baselines : BaselineMap) : list ScanJob :=
  foldl (fun jobs req => queueJobsFor (Users s) baselines req jobs)
        [] (Requests s).

(** ** The worker pool of [RunWithBaselineConcurrent]

    The goroutines are the main one and [workers] copies of [worker]. The
    two channels are buffered with room for one entry per template and
    pair of users ([capacity]); a send into a full buffer and a receive
    from an empty open one block. The scheduler is a list of actors: at
    each step the named goroutine makes its next move. *)

Definition allExited (workers : list WorkerState) : bool :=
  forallb (fun w => match w with Exited => true | _ => false end) workers.

(** The next move of the main goroutine: send the next job; then close
    [jobs]; then receive from [results]. [None]: it is blocked, or done. *)
Definition stepMain (p : Pool) : option Pool :=
  match Pool_pending p with
  | job :: pending =>
      if (List.length (Pool_jobs p) <? Pool_capacity p)%nat
      then Some {| Pool_capacity := Pool_capacity p;
                   Pool_pending := pending;
                   Pool_jobs := Pool_jobs p ++ [job];
                   Pool_closed := Pool_closed p;
                   Pool_workers := Pool_workers p;
                   Pool_results := Pool_results p;
                   Pool_findings := Pool_findings p |}
      else None
  | [] =>
      if negb (Pool_closed p)
      then Some {| Pool_capacity := Pool_capacity p;
                   Pool_pending := [];
                   Pool_jobs := Pool_jobs p;
                   Pool_closed := true;
                   Pool_workers := Pool_workers p;
                   Pool_results := Pool_results p;
                   Pool_findings := Pool_findings p |}
      else
        match Pool_results p with
        | result :: results =>
            Some {| Pool_capacity := Pool_capacity p;
                    Pool_pending := [];
                    Pool_jobs := Pool_jobs p;
                    Pool_closed := true;
                    Pool_workers := Pool_workers p;
                    Pool_results := results;
                    Pool_findings := appendFinding (Pool_findings p) result |}
        | [] => None
        end
  end.

(** The next move of worker [i]: receive a job, or leave the loop when
    [jobs] is closed and drained; run the job it holds and send the
    result. *)
Definition stepWorker (i : nat) (p : Pool) : option Pool :=
  match Pool_workers p !! i with
  | Some Waiting =>
      match Pool_jobs p with
      | job :: jobs =>
          Some {| Pool_capacity := Pool_capacity p;
                  Pool_pending := Pool_pending p;
                  Pool_jobs := jobs;
                  Pool_closed := Pool_closed p;
                  Pool_workers := <[i := Holding job]> (Pool_workers p);
                  Pool_results := Pool_results p;
                  Pool_findings := Pool_findings p |}
      | [] =>
          if Pool_closed p
          then Some {| Pool_capacity := Pool_capacity p;
                       Pool_pending := Pool_pending p;
                       Pool_jobs := [];
                       Pool_closed := true;
                       Pool_workers := <[i := Exited]> (Pool_workers p);
                       Pool_results := Pool_results p;
                       Pool_findings := Pool_findings p |}
          else None
      end
  | Some (Holding job) =>
      if (List.length (Pool_results p) <? Pool_capacity p)%nat
      then Some {| Pool_capacity := Pool_capacity p;
                   Pool_pending := Pool_pending p;
                   Pool_jobs := Pool_jobs p;
                   Pool_closed := Pool_closed p;
                   Pool_workers := <[i := Waiting]> (Pool_workers p);
                   Pool_results := Pool_results p ++ [executeScanJob job];
                   Pool_findings := Pool_findings p |}
      else None
  | Some Exited | None => None
  end.

Definition step (a : Actor) (p : Pool) : option Pool :=
  match a with
  | Main => stepMain p
  | Worker i => stepWorker i p
  end.

(** The pool under a schedule; [None] when the schedule names a
    goroutine that cannot move. *)
Fixpoint runSchedule (schedule : list Actor) (p : Pool) : option Pool :=
  match schedule with
  | [] => Some p
  | a :: schedule =>
      match step a p with
      | Some p' => runSchedule schedule p'
      | None => None
      end
  end.

(** Main leaves [for result := range results] when [results] is closed
    (every worker has called [wg.Done]) and drained. *)
Definition finished (p : Pool) : bool :=
  match Pool_pending p, Pool_results p with
  | [], [] => Pool_closed p && allExited (Pool_workers p)
  | _, _ => false
  end.

Definition startPool (capacity workers : nat) (jobs : list ScanJob) : Pool :=
  {| Pool_capacity := capacity;
     Pool_pending := jobs;
     Pool_jobs := [];
     Pool_closed := false;
     Pool_workers := replicate workers Waiting;
     Pool_results := [];
     Pool_findings := [] |}.

(** The no-auth loop that ends [RunWithBaselineConcurrent]. *)
Definition noAuthTests (s : Scanner) (findings : list Finding) : list Finding :=
  foldl (fun findings req => appendFinding findings (testNoAuth req))
        findings (Requests s).

(** [RunWithBaselineConcurrent] from baselines already captured, under a
    schedule: [None] when the schedule does not take the pool to its
    end. *)
Definition runConcurrentWithBaselines (schedule : list Actor) (s : Scanner)
    (workers : Z) (baselines : BaselineMap) : option (list Finding) :=
  let workers := if workers <=? 0 then 5 else workers in
  let capacity :=
    (List.length (Requests s) * List.length (Users s) * List.length (Users s))%nat in
  match runSchedule schedule
          (startPool capacity (Z.to_nat workers) (queueJobs s baselines)) with
  | Some p =>
      if finished p then Some (noAuthTests s (Pool_findings p)) else None
  | None => None
  end.

(** [RunWithBaselineConcurrent]. *)
Definition RunWithBaselineConcurrent (schedule : list Actor) (s : Scanner)
    (workers : Z) : option (list Finding) :=
  let baselines := CaptureBaselines s in
  runConcurrentWithBaselines schedule s workers baselines.

(** [BuildSwappedBody]. *)
Definition BuildSwappedBody (originalBody : string)
    (attackerParams victimParams : gmap string string) : string :=
  let result := originalBody in
  let result := replacePlaceholders (range victimParams) result in
  foldl (replaceBodyLiteral victimParams) result (range attackerParams).

(** The finding a worker is about to send, if it holds a job that gives
    one. *)
Definition inFlight (w : WorkerState) : list Finding :=
  match w with
  | Holding job => option_list (executeScanJob job)
  | Waiting | Exited => []
  end.

(** The findings a pool has collected or has still to produce: those
    collected, those in the buffer of [results], those of the jobs held by
    workers, those of the jobs in the buffer of [jobs] or still to be
    sent. *)
Definition accounted (p : Pool) : list Finding :=
  Pool_findings p ++ omap id (Pool_results p) ++
  (Pool_workers p ≫= inFlight) ++
  omap executeScanJob (Pool_jobs p ++ Pool_pending p).

(** What holds of a pool all along: [jobs] is closed only once every job
    is sent, and a worker has left only once [jobs] is closed and empty. *)
Definition poolInvariant (p : Pool) : Prop :=
  (Pool_closed p = true → Pool_pending p = []) ∧
  (Exited ∈ Pool_workers p → Pool_closed p = true ∧ Pool_jobs p = []).

(** One schedule that takes a pool of [workers] workers through [jobs]
    jobs: main sends every job and closes [jobs]; worker 0 runs the jobs
    one by one, main collecting each result; then every worker leaves. *)
Definition steadySchedule (jobs workers : nat) : list Actor :=
  replicate jobs Main ++ [Main] ++
  List.concat (replicate jobs [Worker 0; Worker 0; Main]) ++
  (Worker <$> seq 0 workers).

(** The severities a finding of the scanner is ever given. *)
Definition criticalOrHigh (f : Finding) : Prop :=
  Finding_Severity f = "CRITICAL" ∨ Finding_Severity f = "HIGH".

(** [baseline] is what capture records for a template of the scan under
    [endpoint] and a user of the scan called [name]: the status and the
    body size of the response to that user's own request. *)
Definition captured (s : Scanner) (endpoint name : string) (baseline : Baseline)
  : Prop :=
  ∃ req user testReq resp,
    req ∈ Requests s ∧ user ∈ Users s ∧
    endpointOf req = endpoint ∧ User_Name user = name ∧
    buildRequest req user (User_Params user) = Some testReq ∧
    executeRequest testReq = Some resp ∧
    baseline = {| Baseline_StatusCode := Response_StatusCode resp;
                  Baseline_BodySize := len (Response_Body resp);
                  Baseline_BodyHash := EmptyString |}.

(** ** Measures on the pool *)

(** The steps a worker has still to make before it has left: one when it
    waits, three when it holds a job (send the result, then leave). *)
Definition workerSteps (w : WorkerState) : nat :=
  match w with
  | Waiting => 1
  | Holding _ => 3
  | Exited => 0
  end.

(** The steps the goroutines of a pool have still to make: four for a job
    still to be sent (send, receive, send the result, collect it), three
    for a job in the buffer of [jobs], one for a result in the buffer of
    [results], those of the workers, and one for [close(jobs)]. *)
Definition stepsLeft (p : Pool) : nat :=
  (4 * List.length (Pool_pending p) + 3 * List.length (Pool_jobs p) +
   sum_list_with workerSteps (Pool_workers p) +
   List.length (Pool_results p) +
   (if Pool_closed p then 0 else 1))%nat.

Definition holdsJob (w : WorkerState) : nat :=
  match w with
  | Holding _ => 1
  | Waiting | Exited => 0
  end.

(** The jobs and results between the queueing loop and the collecting
    loop. *)
Definition inTransit (p : Pool) : nat :=
  (List.length (Pool_pending p) + List.length (Pool_jobs p) +
   sum_list_with holdsJob (Pool_workers p) +
   List.length (Pool_results p))%nat.

(** The pool [RunWithBaselineConcurrent] starts: both channels made with
    room for [len(s.Requests)*len(s.Users)*len(s.Users)] entries, the
    workers started, the jobs of the queueing loop still to be sent. *)
Definition scanPool (s : Scanner) (workers : Z) (baselines : BaselineMap) : Pool :=
  startPool
    (List.length (Requests s) * List.length (Users s) * List.length (Users s))
    (Z.to_nat (if workers <=? 0 then 5 else workers))
    (queueJobs s baselines).

(** The baseline [CaptureBaselines] records for a response. *)
Definition baselineOf (resp : HttpResponse) : Baseline :=
  {| Baseline_StatusCode := Response_StatusCode resp;
     Baseline_BodySize := len (Response_Body resp);
     Baseline_BodyHash := EmptyString |}.

(** The exchange [CaptureBaselines] makes for a template and a user: the
    user's own request, and the response to it. *)
Definition ownExchange (req : APIRequest) (user : User) : option HttpResponse :=
  buildRequest req user (User_Params user) ≫= executeRequest.

(** The pairs at which the body of [forEachIndexPair] runs, in order: the
    cross-user tests [Run] makes for one template. *)
Definition indexPairs (users : list User) : list (User * User) :=
  forEachIndexPair users (fun user1 user2 acc => acc ++ [(user1, user2)]) [].

(** The users with their indices, as [for i, user := range s.Users] visits
    them. *)
Definition indexed (users : list User) : list (nat * User) :=
  zip (seq 0 (List.length users)) users.

(** The second users of one first user in [Run]: those at another
    index. *)
Definition othersOf (users : list User) (iu : nat * User) : list (User * User) :=
  (fun ju => (iu.2, ju.2)) <$> filter (fun ju => iu.1 ≠ ju.1) (indexed users).

(** The number of findings of one severity. *)
Definition countOf (severity : string) (findings : list Finding) : Z :=
  Z.of_nat (List.length (filter (fun f => Finding_Severity f = severity) findings)).

(** The choice of mode in [runScan]: the worker pool when more than one
    worker is asked for, the sequential scan otherwise. *)
Definition scanFindings (schedule : list Actor) (s : Scanner) (workers : Z)
  : option (list Finding) :=
  if 1 <? workers
  then RunWithBaselineConcurrent schedule s workers
  else Some (RunWithBaseline s).

(** [urlContainsParams]: the loop leaves with [true] at the first value
    that is not empty and occurs in the URL. *)
Definition urlContainsParams (urlStr : string) (params : gmap string string)
  : bool :=
  if Nat.eqb (size params) 0 then false
  else existsb (fun kv => negb (String.eqb kv.2 EmptyString) && Contains urlStr kv.2)
               (range params).

(** ** Identifiers in URLs *)

(** [re.MatchString(s)] of package [regexp], by the source of the
    expression: the regular expression engine is not modelled. *)
Variable MatchString : string → string → bool.

(** [ExtractIDsFromURL]. The two inner loops leave at their first hit, so
    a segment is reported once under the rule of the segment before it
    whatever the number of names and expressions that fit.
    ([strings.ToLower] as above: on the ASCII letters.) *)
Definition ExtractIDsFromURL (urlStr : string) : list IDPattern :=
  let parts := SplitByte "/" urlStr in
  foldl (fun patterns ip =>
           let '(i, part) := ip in
           if String.eqb part EmptyString then patterns
           else
             let patterns :=
               match i with
               | O => patterns
               | S j =>
                   let prevPart := ToLower (default EmptyString (parts !! j)) in
                   if existsb (fun seg => String.eqb prevPart seg
                                          || HasSuffix prevPart seg)
                              idSegmentPatterns
                   then
                     if existsb (fun re => MatchString re part) idPatterns
                     then patterns ++ [ {| IDPattern_Location := "path";
                                           IDPattern_Key := prevPart;
                                           IDPattern_Value := part |} ]
                     else patterns
                   else patterns
               end in
             if HasPrefix part "{" && HasSuffix part "}"
             then patterns ++ [ {| IDPattern_Location := "path";
                                   IDPattern_Key := Trim part "{}";
                                   IDPattern_Value := part |} ]
             else patterns)
        [] (zip (seq 0 (List.length parts)) parts).

(** [SwapIDsInURL]: for every identifier, the value of the first
    parameter of the target, in the order the map is visited, whose name
    fits replaces the identifier everywhere. *)
Definition SwapIDsInURL (urlStr : string) (sourceIDs : list IDPattern)
    (targetParams : gmap string string) : string :=
  foldl (fun result id =>
           match List.find (fun kv => keyMatches kv.1 (IDPattern_Key id))
                           (range targetParams) with
           | Some (_, paramVal) => ReplaceAll result (IDPattern_Value id) paramVal
           | None => result
           end)
        urlStr sourceIDs.

(** ** The OpenAPI catalog *)

(** The orders in which [range] visits the paths of a description and the
    operations of a path. *)
Variable rangePaths : gmap string PathItem → list (string * PathItem).
Hypothesis rangePaths_perm : ∀ m, rangePaths m ≡ₚ map_to_list m.
Variable rangeOperations
  : gmap string (option Operation) → list (string * option Operation).
Hypothesis rangeOperations_perm : ∀ m, rangeOperations m ≡ₚ map_to_list m.

(** [parseOpenAPISpec], from the description read and decoded. *)
Definition parseOpenAPISpec (spec : OpenAPISpec) : list APIRequest :=
  let baseURL := baseURLOf spec in
  foldl (fun requests pp =>
           let '(path, pathItem) := pp in
           foldl (fun requests mo =>
                    match mo with
                    | (_, None) => requests
                    | (method, Some op) =>
                        requests ++ [openAPIRequest baseURL path method op]
                    end)
                 requests (rangeOperations (operationsOf pathItem)))
        [] (rangePaths (OpenAPISpec_Paths spec)).

(* ===================================================================== *)
(** * Properties *)
(* ===================================================================== *)

(** ** Strings *)

Lemma append_cons (c : ascii) (a b : string) :
  String c a +:+ b = String c (a +:+ b).
Proof. reflexivity. Qed.

Lemma append_assoc (a b c : string) : (a +:+ b) +:+ c = a +:+ (b +:+ c).
Proof.
  induction a as [|x a IH]; [reflexivity|].
  rewrite !append_cons. by f_equal.
Qed.

Lemma HasPrefix_nil (s : string) : HasPrefix s EmptyString = true.
Proof. by destruct s. Qed.

Lemma HasPrefix_cons (c d : ascii) (s t : string) :
  HasPrefix (String c s) (String d t) = true ↔ d = c ∧ HasPrefix s t = true.
Proof.
  unfold HasPrefix; simpl.
  destruct (ascii_dec d c) as [->|Hne].
  - split; [by intros ?|by intros [_ ?]].
  - split; [done|]. by intros [? _].
Qed.

Lemma HasPrefix_app (s a b : string) :
  HasPrefix s (a +:+ b) = true → HasPrefix s a = true.
Proof.
  revert s; induction a as [|c a IH]; intros s H; [apply HasPrefix_nil|].
  destruct s as [|d s]; [done|].
  rewrite append_cons in H. apply HasPrefix_cons in H as [-> H].
  apply HasPrefix_cons; auto.
Qed.

Lemma Contains_nil (s : string) : Contains s EmptyString = true.
Proof. destruct s; simpl; by rewrite ?HasPrefix_nil. Qed.

Lemma Contains_cons_false (c : ascii) (s sub : string) :
  Contains (String c s) sub = false →
  HasPrefix (String c s) sub = false ∧ Contains s sub = false.
Proof. cbn [Contains]. by intros [? ?]%orb_false_elim. Qed.

(** A string that holds [a ++ b] holds [a]. *)
Lemma Contains_app_l (s a b : string) :
  Contains s (a +:+ b) = true → Contains s a = true.
Proof.
  induction s as [|c s IH]; cbn [Contains]; intros [H|H]%orb_prop.
  - by rewrite (HasPrefix_app _ _ _ H).
  - done.
  - by rewrite (HasPrefix_app _ _ _ H).
  - rewrite (IH H). by rewrite orb_true_r.
Qed.

(** A string that holds [c :: t] holds [t]. *)
Lemma Contains_tail (s : string) (c : ascii) (t : string) :
  Contains s (String c t) = true → Contains s t = true.
Proof.
  induction s as [|d s IH]; cbn [Contains]; intros [H|H]%orb_prop.
  - done.
  - done.
  - apply HasPrefix_cons in H as [_ H].
    destruct s; cbn [Contains]; rewrite H; by rewrite ?orb_true_r.
  - rewrite (IH H). by rewrite orb_true_r.
Qed.

Lemma replaceFrom_absent (old new s : string) :
  Contains s old = false → replaceFrom old new 0 s = s.
Proof.
  induction s as [|c s IH]; [done|].
  intros [Hp Hc]%Contains_cons_false.
  cbn [replaceFrom]. rewrite Hp. by rewrite IH.
Qed.

(** [ReplaceAll] leaves alone a string in which [old] does not occur. *)
Lemma ReplaceAll_absent (s old new : string) :
  Contains s old = false → ReplaceAll s old new = s.
Proof.
  destruct old as [|c old]; [by rewrite Contains_nil|].
  apply replaceFrom_absent.
Qed.

(** ** The placeholder pass *)

(** A string without [{key}] and [:key] has none of the three placeholders
    of [key]: [{{key}}] holds [{key}]. *)
Lemma placeholders_absent (s key : string) :
  Contains s ("{" +:+ key +:+ "}") = false →
  Contains s (":" +:+ key) = false →
  ∀ placeholder, placeholder ∈ placeholders key → Contains s placeholder = false.
Proof.
  intros H1 H2 ph Hph. unfold placeholders in Hph.
  apply elem_of_cons in Hph as [->|Hph]; [done|].
  apply elem_of_cons in Hph as [->|Hph]; [done|].
  apply list_elem_of_singleton in Hph as ->.
  destruct (Contains s ("{{" +:+ key +:+ "}}")) eqn:E; [|done].
  apply Contains_tail in E.
  assert (Heq : ("{" +:+ key +:+ "}") +:+ "}" = String "{" (key +:+ "}}"))
    by (by rewrite !append_assoc).
  rewrite <- Heq in E. apply Contains_app_l in E. congruence.
Qed.

Lemma replacePlaceholder_absent (s : string) (kv : string * string) :
  Contains s ("{" +:+ kv.1 +:+ "}") = false →
  Contains s (":" +:+ kv.1) = false →
  replacePlaceholder s kv = s.
Proof.
  intros H1 H2. unfold replacePlaceholder.
  pose proof (placeholders_absent s kv.1 H1 H2) as Habs.
  induction (placeholders kv.1) as [|ph phs IH]; [done|].
  simpl. rewrite ReplaceAll_absent.
  - apply IH. intros p Hp. apply Habs. by right.
  - apply Habs. by left.
Qed.

(** The placeholder pass leaves alone a string that holds no placeholder
    of the parameters. *)
Lemma replacePlaceholders_absent (params : list (string * string)) (s : string) :
  (∀ key val, (key, val) ∈ params →
     Contains s ("{" +:+ key +:+ "}") = false ∧ Contains s (":" +:+ key) = false) →
  replacePlaceholders params s = s.
Proof.
  unfold replacePlaceholders.
  induction params as [|[key val] params IH]; intros H; [done|].
  simpl. destruct (H key val) as [H1 H2]; [by left|].
  rewrite replacePlaceholder_absent by done.
  apply IH. intros k v Hkv. apply (H k v). by right.
Qed.



(** C5 (as amended). A second run of the placeholder pass, over the same
    parameter map in whatever order, returns the result of the first run
    unchanged whenever that result holds no placeholder [{name}] or [:name]
    of a parameter of the map (and then it holds no [{{name}}] either). *)
Theorem placeholder_pass_stable (params : gmap string string)
    (first second : list (string * string)) (s : string) :
  first ≡ₚ map_to_list params →
  second ≡ₚ map_to_list params →
  (∀ key val, params !! key = Some val →
     Contains (replacePlaceholders first s) ("{" +:+ key +:+ "}") = false ∧
     Contains (replacePlaceholders first s) (":" +:+ key) = false) →
  replacePlaceholders second (replacePlaceholders first s)
  = replacePlaceholders first s.
Proof.
  intros _ Hsecond Hclean.
  apply replacePlaceholders_absent.
  intros key val Hin. apply (Hclean key val).
  apply elem_of_map_to_list. by rewrite <- Hsecond.
Qed.

(** ** The literal pass *)

Lemma replaceLiteral_same (victimParams : gmap string string)
    (result key val : string) :
  (∀ victimVal, victimParams !! key = Some victimVal → val = victimVal) →
  replaceLiteral victimParams result (key, val) = result.
Proof.
  intros Hsame. unfold replaceLiteral. cbn [fst snd].
  destruct (victimParams !! key) as [victimVal|] eqn:E; [|done].
  rewrite (Hsame victimVal eq_refl).
  by rewrite String.eqb_refl.
Qed.

(** The literal pass over parameters that each agree with the victim's. *)
Lemma replaceLiterals_same (victimParams : gmap string string)
    (order : list (string * string)) (url : string) :
  (∀ key val victimVal,
     (key, val) ∈ order → victimParams !! key = Some victimVal → val = victimVal) →
  replaceLiterals order victimParams url = url.
Proof.
  unfold replaceLiterals.
  induction order as [|[key val] order IH]; intros Hsame; [done|].
  cbn [foldl]. rewrite replaceLiteral_same.
  - apply IH. intros k v vv Hkv. apply (Hsame k v vv). by right.
  - intros victimVal Hv. apply (Hsame key val victimVal); [by left|done].
Qed.

(** C6. Strategy 2 of BuildSwappedURL returns the URL as it got it when the
    attacker and the victim have the same value under every key they
    share, whatever the order in which the attacker's map is visited. *)
Theorem literal_pass_identity (attackerParams victimParams : gmap string string)
    (order : list (string * string)) (url : string) :
  order ≡ₚ map_to_list attackerParams →
  (∀ key attackerVal victimVal,
     attackerParams !! key = Some attackerVal →
     victimParams !! key = Some victimVal →
     attackerVal = victimVal) →
  replaceLiterals order victimParams url = url.
Proof.
  intros Horder Hsame.
  apply replaceLiterals_same.
  intros key val victimVal Hin Hvictim.
  apply (Hsame key val victimVal); [|done].
  apply elem_of_map_to_list. by rewrite <- Horder.
Qed.

(** With such parameters [BuildSwappedURL] is its placeholder pass. *)
Lemma BuildSwappedURL_same_values (originalURL : string)
    (attackerParams victimParams : gmap string string) :
  (∀ key attackerVal victimVal,
     attackerParams !! key = Some attackerVal →
     victimParams !! key = Some victimVal →
     attackerVal = victimVal) →
  BuildSwappedURL originalURL attackerParams victimParams
  = replacePlaceholders (range victimParams) originalURL.
Proof.
  intros Hsame. unfold BuildSwappedURL.
  apply replaceLiterals_same.
  intros key val victimVal Hin Hvictim.
  apply (Hsame key val victimVal); [|done].
  apply elem_of_map_to_list. by rewrite <- (range_perm attackerParams).
Qed.

(** ** The decision rule of the baseline tests *)

Lemma wrap64_in_int (z : Z) : in_int z → wrap64 z = z.
Proof.
  unfold in_int, wrap64. intros H.
  rewrite Z.mod_small; lia.
Qed.

(** Within the range of [int], and for a length, the test
    [sizeDiff < 50 && BodySize > 0] of the code is the test of the rule:
    with a positive baseline the subtraction cannot wrap, and without one
    the second conjunct fails whatever the first gives. *)
Lemma sizeDiff_test (size baseline : Z) :
  0 <= size < 2 ^ 63 → in_int baseline →
  (abs (int_sub size baseline) <? 50) && (0 <? baseline)
  = (Z.abs (size - baseline) <? 50) && (0 <? baseline).
Proof.
  intros Hsize Hbase. unfold in_int in Hbase.
  destruct (0 <? baseline) eqn:Hpos; [|by rewrite !andb_false_r].
  apply Z.ltb_lt in Hpos. rewrite !andb_true_r.
  unfold int_sub. rewrite wrap64_in_int by (unfold in_int; lia).
  unfold abs, int_neg.
  destruct (size - baseline <? 0) eqn:Hneg.
  - apply Z.ltb_lt in Hneg.
    rewrite wrap64_in_int by (unfold in_int; lia).
    by rewrite Z.abs_neq by lia.
  - apply Z.ltb_ge in Hneg. by rewrite Z.abs_eq by lia.
Qed.

Lemma len_nonneg (s : string) : 0 <= len s.
Proof. unfold len. lia. Qed.

(** C1. With a baseline for the victim, a request built and a response
    received, the severity of the finding of [testCrossUserWithBaseline],
    and of [executeScanJob] on the job with that baseline, is the value of
    [severityRule] at the status code, the size of the response and the
    size of the baseline: CRITICAL, else HIGH, else no finding. With a
    baseline of size 0 a 200 of more than 50 bytes is HIGH, and a 403 gives
    no finding. *)
Theorem severity_is_severityRule (req : APIRequest) (attacker victim : User)
    (baselines : BaselineMap) (victimBaseline : Baseline)
    (testReq : HttpRequest) (resp : HttpResponse) :
  lookupBaseline baselines (endpointOf req) (User_Name victim) = Some victimBaseline →
  in_int (Baseline_BodySize victimBaseline) →
  len (Response_Body resp) < 2 ^ 63 →
  buildRequestWithSwap req attacker victim = Some testReq →
  executeRequest testReq = Some resp →
  let rule :=
    severityRule (Response_StatusCode resp) (len (Response_Body resp))
                 (Baseline_BodySize victimBaseline) in
  Finding_Severity <$> testCrossUserWithBaseline req attacker victim baselines = rule
  ∧ Finding_Severity <$>
      executeScanJob {| ScanJob_Request := req;
                        ScanJob_Attacker := attacker;
                        ScanJob_Victim := victim;
                        ScanJob_Baseline := victimBaseline |} = rule
  ∧ (Baseline_BodySize victimBaseline = 0 →
     Response_StatusCode resp = 200 →
     50 < len (Response_Body resp) →
     rule = Some "HIGH")
  ∧ (Response_StatusCode resp = 403 → rule = None).
Proof.
  intros Hbase Hint Hlen Hbuild Hexec rule.
  pose proof (len_nonneg (Response_Body resp)) as Hnn.
  pose proof (sizeDiff_test (len (Response_Body resp))
                (Baseline_BodySize victimBaseline) (conj Hnn Hlen) Hint) as Htest.
  repeat split.
  - unfold testCrossUserWithBaseline. rewrite Hbase, Hbuild, Hexec.
    cbn zeta. subst rule. unfold severityRule.
    destruct ((Response_StatusCode resp =? 200) || (Response_StatusCode resp =? 201));
      [|done].
    rewrite Htest. cbn [andb].
    destruct ((Z.abs _ <? 50) && _); [done|].
    by destruct (50 <? len (Response_Body resp)).
  - unfold executeScanJob. cbn [ScanJob_Request ScanJob_Attacker ScanJob_Victim
                                ScanJob_Baseline].
    rewrite Hbuild, Hexec.
    cbn zeta. subst rule. unfold severityRule.
    destruct ((Response_StatusCode resp =? 200) || (Response_StatusCode resp =? 201));
      [|done].
    rewrite Htest. cbn [andb].
    destruct ((Z.abs _ <? 50) && _); [done|].
    by destruct (50 <? len (Response_Body resp)).
  - intros Hzero Hstatus Hbig. subst rule. unfold severityRule.
    rewrite Hzero, Hstatus. cbn.
    rewrite andb_false_r.
    by apply Z.ltb_lt in Hbig as ->.
  - intros Hstatus. subst rule. unfold severityRule. by rewrite Hstatus.
Qed.

(** ** The no-auth test *)

(** C2. [testNoAuth] returns a finding exactly when a request was built,
    a response came back, its status is 200, its body is longer than 50
    bytes and holds neither [unauthorized] nor [forbidden]; the finding is
    then HIGH. A failed build and a transport error give no finding. *)
Theorem testNoAuth_finding (req : APIRequest) :
  (is_Some (testNoAuth req) ↔
     ∃ testReq resp,
       buildRequestNoAuth req = Some testReq ∧
       executeRequest testReq = Some resp ∧
       Response_StatusCode resp = 200 ∧
       50 < len (Response_Body resp) ∧
       Contains (Response_Body resp) "unauthorized" = false ∧
       Contains (Response_Body resp) "forbidden" = false)
  ∧ (∀ f, testNoAuth req = Some f → Finding_Severity f = "HIGH")
  ∧ (buildRequestNoAuth req = None → testNoAuth req = None)
  ∧ (∀ testReq, buildRequestNoAuth req = Some testReq →
       executeRequest testReq = None → testNoAuth req = None).
Proof.
  unfold testNoAuth. repeat split.
  - destruct (buildRequestNoAuth req) as [testReq|]; [|by intros [? ?]].
    destruct (executeRequest testReq) as [resp|] eqn:Hexec; [|by intros [? ?]].
    cbn zeta.
    destruct (Response_StatusCode resp =? 200) eqn:Hstatus; [|by intros [? ?]].
    destruct (50 <? len (Response_Body resp)) eqn:Hsize; [|by intros [? ?]].
    cbn [andb].
    destruct (Contains (Response_Body resp) "unauthorized") eqn:Hu;
      [by intros [? ?]|].
    destruct (Contains (Response_Body resp) "forbidden") eqn:Hf;
      [by intros [? ?]|].
    intros _. exists testReq, resp.
    apply Z.eqb_eq in Hstatus. apply Z.ltb_lt in Hsize. done.
  - intros (testReq & resp & -> & -> & Hstatus & Hsize & -> & ->).
    cbn zeta. apply Z.eqb_eq in Hstatus as ->. apply Z.ltb_lt in Hsize as ->.
    by eexists.
  - intros f.
    destruct (buildRequestNoAuth req) as [testReq|]; [|done].
    destruct (executeRequest testReq) as [resp|]; [|done].
    cbn zeta.
    destruct ((Response_StatusCode resp =? 200) && (50 <? len (Response_Body resp)));
      [|done].
    destruct (Contains _ "unauthorized" || Contains _ "forbidden"); [done|].
    by intros [= <-].
  - by intros ->.
  - by intros testReq -> ->.
Qed.

(** ** Severities *)

Lemma testCrossUserAccess_severity (req : APIRequest) (attacker victim : User)
    (f : Finding) :
  testCrossUserAccess req attacker victim = Some f →
  Finding_Severity f = "CRITICAL".
Proof.
  unfold testCrossUserAccess.
  destruct (buildRequest _ _ _) as [testReq|]; [|done].
  destruct (executeRequest testReq) as [resp|]; [|done].
  cbn zeta. destruct (_ || _); [|done]. by intros [= <-].
Qed.

Lemma testCrossUserWithBaseline_severity (req : APIRequest)
    (attacker victim : User) (baselines : BaselineMap) (f : Finding) :
  testCrossUserWithBaseline req attacker victim baselines = Some f →
  Finding_Severity f = "CRITICAL" ∨ Finding_Severity f = "HIGH".
Proof.
  unfold testCrossUserWithBaseline.
  destruct (lookupBaseline _ _ _) as [victimBaseline|]; [|done].
  destruct (buildRequestWithSwap _ _ _) as [testReq|]; [|done].
  destruct (executeRequest testReq) as [resp|]; [|done].
  cbn zeta. destruct (_ || _); [|done].
  destruct (_ && _); [intros [= <-]; by left|].
  destruct (50 <? _); [intros [= <-]; by right|done].
Qed.

Lemma executeScanJob_severity (job : ScanJob) (f : Finding) :
  executeScanJob job = Some f →
  Finding_Severity f = "CRITICAL" ∨ Finding_Severity f = "HIGH".
Proof.
  unfold executeScanJob.
  destruct (buildRequestWithSwap _ _ _) as [testReq|]; [|done].
  destruct (executeRequest testReq) as [resp|]; [|done].
  cbn zeta. destruct (_ || _); [|done].
  destruct (_ && _); [intros [= <-]; by left|].
  destruct (50 <? _); [intros [= <-]; by right|done].
Qed.

Lemma testNoAuth_severity (req : APIRequest) (f : Finding) :
  testNoAuth req = Some f → Finding_Severity f = "HIGH".
Proof.
  unfold testNoAuth.
  destruct (buildRequestNoAuth req) as [testReq|]; [|done].
  destruct (executeRequest testReq) as [resp|]; [|done].
  cbn zeta. destruct (_ && _); [|done].
  destruct (_ || _); [done|]. by intros [= <-].
Qed.

(** ** The loops *)

Lemma foldl_snoc_pair {A B : Type} (l acc : list (A * B)) :
  foldl (fun acc p => acc ++ [(p.1, p.2)]) acc l = acc ++ l.
Proof.
  revert acc. induction l as [|[a b] l IH]; intros acc; cbn [foldl].
  - by rewrite app_nil_r.
  - rewrite IH. by rewrite <- app_assoc.
Qed.

(** A loop that appends the finding of each test, when there is one,
    appends the findings of the tests in order. *)
Lemma foldl_appendFinding {A : Type} (test : A → option Finding)
    (l : list A) (findings : list Finding) :
  foldl (fun findings x => appendFinding findings (test x)) findings l
  = findings ++ omap test l.
Proof.
  revert findings. induction l as [|x l IH]; intros findings; cbn [foldl omap list_omap].
  - by rewrite app_nil_r.
  - rewrite IH. unfold appendFinding.
    destruct (test x); [by rewrite <- app_assoc|done].
Qed.

Lemma forEachPair_inner {A : Type} (body : User → User → A → A)
    (attacker : User) (users : list User) (acc : A) :
  foldl (fun acc victim =>
           if String.eqb (User_Name attacker) (User_Name victim)
           then acc else body attacker victim acc)
        acc users
  = foldl (fun acc p => body p.1 p.2 acc) acc (victimsOf users attacker).
Proof.
  unfold victimsOf. revert acc.
  induction users as [|victim users IH]; intros acc; [done|].
  cbn [foldl]. rewrite filter_cons.
  destruct (String.eqb_spec (User_Name attacker) (User_Name victim)) as [Heq|Hne].
  - rewrite decide_False by (intros H; by apply H). apply IH.
  - rewrite decide_True by done. cbn [fmap list_fmap foldl]. apply IH.
Qed.

Lemma forEachPair_outer {A : Type} (body : User → User → A → A)
    (attackers users : list User) (acc : A) :
  foldl (fun acc attacker =>
           foldl (fun acc victim =>
                    if String.eqb (User_Name attacker) (User_Name victim)
                    then acc else body attacker victim acc)
                 acc users)
        acc attackers
  = foldl (fun acc p => body p.1 p.2 acc) acc (attackers ≫= victimsOf users).
Proof.
  revert acc.
  induction attackers as [|attacker attackers IH]; intros acc; [done|].
  cbn [foldl mbind list_bind]. rewrite foldl_app, forEachPair_inner. apply IH.
Qed.

Lemma forEachPair_bind {A : Type} (body : User → User → A → A)
    (users : list User) (acc : A) :
  forEachPair users body acc
  = foldl (fun acc p => body p.1 p.2 acc) acc (users ≫= victimsOf users).
Proof. apply forEachPair_outer. Qed.

(** The tests of one template are the pairs of users under different
    names, attacker-major. *)
Lemma crossPairs_bind (users : list User) :
  crossPairs users = users ≫= victimsOf users.
Proof.
  unfold crossPairs. rewrite forEachPair_bind. apply foldl_snoc_pair.
Qed.

(** The body of the loop nest runs at the pairs of [crossPairs], in their
    order, and nowhere else. *)
Lemma forEachPair_crossPairs {A : Type} (body : User → User → A → A)
    (users : list User) (acc : A) :
  forEachPair users body acc
  = foldl (fun acc p => body p.1 p.2 acc) acc (crossPairs users).
Proof. by rewrite crossPairs_bind, forEachPair_bind. Qed.

Lemma appendFinding_app (findings : list Finding) (f : option Finding) :
  appendFinding findings f = findings ++ option_list f.
Proof. destruct f; [done|]. by rewrite app_nil_r. Qed.

(** The sequential scan, template by template: the findings of the
    cross-identity tests at the pairs of [crossPairs], then that of the
    no-auth test. *)
Lemma runWithBaselines_bind (s : Scanner) (baselines : BaselineMap) :
  runWithBaselines s baselines
  = Requests s ≫= (fun req =>
      omap (fun p => testCrossUserWithBaseline req p.1 p.2 baselines)
           (crossPairs (Users s))
      ++ option_list (testNoAuth req)).
Proof.
  unfold runWithBaselines.
  assert (H : ∀ requests findings,
             foldl (fun findings req =>
                      let findings :=
                        forEachPair (Users s)
                          (fun attacker victim findings =>
                             appendFinding findings
                               (testCrossUserWithBaseline req attacker victim baselines))
                          findings in
                      appendFinding findings (testNoAuth req))
                   findings requests
             = findings ++ (requests ≫= (fun req =>
                 omap (fun p => testCrossUserWithBaseline req p.1 p.2 baselines)
                      (crossPairs (Users s))
                 ++ option_list (testNoAuth req)))).
  { induction requests as [|req requests IH]; intros findings;
      cbn [foldl mbind list_bind].
    - by rewrite app_nil_r.
    - rewrite IH. cbn zeta.
      rewrite forEachPair_bind, <- crossPairs_bind.
      rewrite (foldl_appendFinding
                 (fun p => testCrossUserWithBaseline req p.1 p.2 baselines)).
      rewrite appendFinding_app. by rewrite <- !app_assoc. }
  apply (H (Requests s) []).
Qed.

Lemma elem_of_crossPairs (users : list User) (attacker victim : User) :
  (attacker, victim) ∈ crossPairs users ↔
  attacker ∈ users ∧ victim ∈ users ∧ User_Name attacker ≠ User_Name victim.
Proof.
  rewrite crossPairs_bind, list_elem_of_bind. unfold victimsOf. split.
  - intros (a & Hrow & Ha).
    apply list_elem_of_fmap in Hrow as (v & [= -> ->] & Hv).
    apply list_elem_of_filter in Hv as [Hne Hv]. done.
  - intros (Ha & Hv & Hne). exists attacker. split; [|done].
    apply list_elem_of_fmap. exists victim. split; [done|].
    by apply list_elem_of_filter.
Qed.

Lemma queueJobsFor_omap (users : list User) (baselines : BaselineMap)
    (req : APIRequest) (jobs : list ScanJob) :
  queueJobsFor users baselines req jobs
  = jobs ++ omap (jobOf baselines req) (crossPairs users).
Proof.
  unfold queueJobsFor. rewrite forEachPair_bind, <- crossPairs_bind.
  generalize (crossPairs users) as pairs. intros pairs. revert jobs.
  induction pairs as [|[attacker victim] pairs IH]; intros jobs;
    cbn [foldl omap list_omap].
  - by rewrite app_nil_r.
  - rewrite IH. unfold jobOf at 2. cbn [fst snd].
    destruct (lookupBaseline _ _ _); [by rewrite <- app_assoc|done].
Qed.

Lemma queueJobs_bind (s : Scanner) (baselines : BaselineMap) :
  queueJobs s baselines
  = Requests s ≫= (fun req => omap (jobOf baselines req) (crossPairs (Users s))).
Proof.
  unfold queueJobs.
  assert (H : ∀ requests jobs,
             foldl (fun jobs req => queueJobsFor (Users s) baselines req jobs)
                   jobs requests
             = jobs ++ (requests ≫= (fun req =>
                          omap (jobOf baselines req) (crossPairs (Users s))))).
  { induction requests as [|req requests IH]; intros jobs;
      cbn [foldl mbind list_bind].
    - by rewrite app_nil_r.
    - rewrite IH, queueJobsFor_omap. by rewrite <- app_assoc. }
  apply (H (Requests s) []).
Qed.

Lemma elem_of_queueJobs (s : Scanner) (baselines : BaselineMap) (job : ScanJob) :
  job ∈ queueJobs s baselines ↔
  ScanJob_Request job ∈ Requests s ∧
  (ScanJob_Attacker job, ScanJob_Victim job) ∈ crossPairs (Users s) ∧
  lookupBaseline baselines (endpointOf (ScanJob_Request job))
                 (User_Name (ScanJob_Victim job)) = Some (ScanJob_Baseline job).
Proof.
  rewrite queueJobs_bind, list_elem_of_bind. split.
  - intros (req & Hjob & Hreq).
    apply list_elem_of_omap in Hjob as ([attacker victim] & Hpair & Hjob).
    unfold jobOf in Hjob. cbn [fst snd] in Hjob.
    destruct (lookupBaseline _ _ _) as [baseline|] eqn:Hbase; [|done].
    injection Hjob as <-. done.
  - intros (Hreq & Hpair & Hbase). exists (ScanJob_Request job). split; [|done].
    apply list_elem_of_omap. exists (ScanJob_Attacker job, ScanJob_Victim job).
    split; [done|]. unfold jobOf. cbn [fst snd]. rewrite Hbase.
    by destruct job.
Qed.

(** C3. No cross-identity test of the sequential path and no job of the
    concurrent path has an attacker and a victim of the same name: the
    sequential scan runs its cross-identity tests at the pairs of
    [crossPairs] and only there, these pairs have two different names, and
    so have the jobs queued. *)
Theorem no_self_pairs (s : Scanner) (baselines : BaselineMap) :
  runWithBaselines s baselines
  = Requests s ≫= (fun req =>
      omap (fun p => testCrossUserWithBaseline req p.1 p.2 baselines)
           (crossPairs (Users s))
      ++ option_list (testNoAuth req))
  ∧ (∀ attacker victim,
       (attacker, victim) ∈ crossPairs (Users s) →
       User_Name attacker ≠ User_Name victim)
  ∧ (∀ job,
       job ∈ queueJobs s baselines →
       User_Name (ScanJob_Attacker job) ≠ User_Name (ScanJob_Victim job)).
Proof.
  split; [apply runWithBaselines_bind|]. split.
  - intros attacker victim Hpair.
    by apply elem_of_crossPairs in Hpair as (_ & _ & Hne).
  - intros job Hjob.
    apply elem_of_queueJobs in Hjob as (_ & Hpair & _).
    by apply elem_of_crossPairs in Hpair as (_ & _ & Hne).
Qed.

(** ** Counting the tests *)

(** Among users of distinct names, all but at most one have a name other
    than [name]. *)
Lemma length_filter_other_name (users : list User) (name : string) :
  NoDup (User_Name <$> users) →
  List.length (filter (fun victim => name ≠ User_Name victim) users)
  = (List.length users - (if decide (name ∈ User_Name <$> users) then 1 else 0))%nat.
Proof.
  induction users as [|user users IH]; intros Hnodup; [done|].
  rewrite fmap_cons in Hnodup. apply NoDup_cons in Hnodup as [Hfresh Hnodup].
  specialize (IH Hnodup). rewrite filter_cons.
  destruct (decide (name = User_Name user)) as [->|Hne].
  - rewrite decide_False by (intros H; by apply H).
    rewrite IH. rewrite decide_False by done.
    rewrite decide_True by (rewrite fmap_cons; by left).
    cbn [List.length]. lia.
  - rewrite decide_True by done. cbn [List.length]. rewrite IH.
    destruct (decide (name ∈ User_Name <$> users)) as [Hin|Hnin].
    + rewrite decide_True by (rewrite fmap_cons; by right).
      assert (List.length users ≠ 0%nat); [|lia].
      destruct users; [by apply elem_of_nil in Hin|done].
    + rewrite decide_False; [lia|].
      rewrite fmap_cons. intros [?|?]%elem_of_cons; done.
Qed.

Lemma length_victimsOf (users : list User) (attacker : User) :
  NoDup (User_Name <$> users) → attacker ∈ users →
  List.length (victimsOf users attacker) = (List.length users - 1)%nat.
Proof.
  intros Hnodup Hin. unfold victimsOf.
  rewrite length_fmap, length_filter_other_name by done.
  rewrite decide_True; [done|]. by apply list_elem_of_fmap_2.
Qed.

Lemma length_crossPairs (users : list User) :
  NoDup (User_Name <$> users) →
  List.length (crossPairs users)
  = (List.length users * (List.length users - 1))%nat.
Proof.
  intros Hnodup. rewrite crossPairs_bind.
  assert (H : ∀ attackers, attackers ⊆ users →
             List.length (attackers ≫= victimsOf users)
             = (List.length attackers * (List.length users - 1))%nat).
  { induction attackers as [|attacker attackers IH]; intros Hsub; [done|].
    cbn [mbind list_bind]. rewrite length_app, IH, length_victimsOf.
    - cbn [List.length]. lia.
    - done.
    - apply Hsub. by left.
    - intros u Hu. apply Hsub. by right. }
  by apply H.
Qed.

(** The pairs of the jobs queued for a template are the pairs tested whose
    victim has a baseline. *)
Lemma queueJobsFor_pairs (users : list User) (baselines : BaselineMap)
    (req : APIRequest) :
  (fun job => (ScanJob_Attacker job, ScanJob_Victim job))
    <$> queueJobsFor users baselines req []
  = filter (fun p => is_Some (lookupBaseline baselines (endpointOf req)
                                              (User_Name p.2)))
           (crossPairs users).
Proof.
  rewrite queueJobsFor_omap. cbn [app].
  induction (crossPairs users) as [|[attacker victim] pairs IH]; [done|].
  cbn [omap list_omap]. rewrite filter_cons. unfold jobOf at 1. cbn [fst snd].
  destruct (lookupBaseline _ _ _) as [baseline|].
  - rewrite decide_True by done. cbn [fmap list_fmap]. by f_equal.
  - rewrite decide_False by (by intros [? ?]). done.
Qed.

Lemma length_filter_split {A : Type} (P : A → Prop) `{∀ x, Decision (P x)}
    (l : list A) :
  (List.length (filter P l) + List.length (filter (fun x => ¬ P x) l))%nat
  = List.length l.
Proof.
  induction l as [|x l IH]; [done|].
  rewrite !filter_cons.
  destruct (decide (P x)).
  - rewrite decide_False by (intros Hn; by apply Hn). cbn [List.length]. lia.
  - rewrite decide_True by done. cbn [List.length]. lia.
Qed.

(** C7 (as amended). With [k] identities of pairwise distinct names, the
    sequential path runs [k * (k - 1)] cross-identity tests per template;
    the concurrent path queues, for the template, the job of each of these
    pairs whose victim has a baseline, so [k * (k - 1)] jobs less the pairs
    without a baseline. *)
Theorem cross_test_count (s : Scanner) (baselines : BaselineMap) (req : APIRequest) :
  NoDup (User_Name <$> Users s) →
  let k := List.length (Users s) in
  let missing :=
    filter (fun p => ¬ is_Some (lookupBaseline baselines (endpointOf req)
                                               (User_Name p.2)))
           (crossPairs (Users s)) in
  List.length (crossPairs (Users s)) = (k * (k - 1))%nat
  ∧ (fun job => (ScanJob_Attacker job, ScanJob_Victim job))
      <$> queueJobsFor (Users s) baselines req []
    = filter (fun p => is_Some (lookupBaseline baselines (endpointOf req)
                                               (User_Name p.2)))
             (crossPairs (Users s))
  ∧ List.length (queueJobsFor (Users s) baselines req [])
    = (k * (k - 1) - List.length missing)%nat.
Proof.
  intros Hnodup k missing.
  pose proof (length_crossPairs (Users s) Hnodup) as Hlen.
  pose proof (queueJobsFor_pairs (Users s) baselines req) as Hpairs.
  split; [done|]. split; [done|].
  pose proof (length_filter_split
                (fun p => is_Some (lookupBaseline baselines (endpointOf req)
                                                  (User_Name p.2)))
                (crossPairs (Users s))) as Hsplit.
  rewrite <- Hpairs, length_fmap in Hsplit.
  subst k missing. lia.
Qed.

(** ** Baselines *)

Lemma lookupBaseline_insert (baselines : BaselineMap) (endpoint endpoint' : string)
    (users : gmap string Baseline) (name : string) :
  lookupBaseline (<[endpoint := users]> baselines) endpoint' name
  = if decide (endpoint = endpoint') then users !! name
    else lookupBaseline baselines endpoint' name.
Proof.
  unfold lookupBaseline. rewrite lookup_insert.
  by destruct (decide (endpoint = endpoint')).
Qed.

Lemma captureBaseline_captured (s : Scanner) (req : APIRequest) (user : User)
    (baselines : BaselineMap) :
  req ∈ Requests s → user ∈ Users s →
  (∀ endpoint name baseline,
     lookupBaseline baselines endpoint name = Some baseline →
     captured s endpoint name baseline) →
  is_Some (baselines !! endpointOf req) →
  (∀ endpoint name baseline,
     lookupBaseline (captureBaseline req (endpointOf req) baselines user)
                    endpoint name = Some baseline →
     captured s endpoint name baseline)
  ∧ is_Some (captureBaseline req (endpointOf req) baselines user !! endpointOf req).
Proof.
  intros Hreq Huser Hinv [inner Hinner]. unfold captureBaseline.
  destruct (buildRequest req user (User_Params user)) as [testReq|] eqn:Hbuild;
    [|by rewrite Hinner].
  destruct (executeRequest testReq) as [resp|] eqn:Hexec; [|by rewrite Hinner].
  cbn zeta. split; [|by rewrite lookup_insert_eq].
  intros endpoint name baseline. rewrite lookupBaseline_insert.
  destruct (decide (endpointOf req = endpoint)) as [<-|Hne]; [|apply Hinv].
  rewrite Hinner. cbn [default]. rewrite lookup_insert.
  destruct (decide (User_Name user = name)) as [<-|Hname].
  - intros [= <-]. by exists req, user, testReq, resp.
  - intros Hold. apply Hinv. unfold lookupBaseline. by rewrite Hinner.
Qed.

(** Every entry of the map [CaptureBaselines] returns was recorded from
    the response to a user's own request. *)
Lemma CaptureBaselines_captured (s : Scanner) (endpoint name : string)
    (baseline : Baseline) :
  lookupBaseline (CaptureBaselines s) endpoint name = Some baseline →
  captured s endpoint name baseline.
Proof.
  unfold CaptureBaselines.
  assert (Hinner : ∀ req users baselines,
             req ∈ Requests s → users ⊆ Users s →
             (∀ endpoint name baseline,
                lookupBaseline baselines endpoint name = Some baseline →
                captured s endpoint name baseline) →
             is_Some (baselines !! endpointOf req) →
             ∀ endpoint name baseline,
               lookupBaseline
                 (foldl (captureBaseline req (endpointOf req)) baselines users)
                 endpoint name = Some baseline →
               captured s endpoint name baseline).
  { intros req users. induction users as [|user users IH];
      intros baselines Hreq Hsub Hinv Hsome; [done|].
    cbn [foldl].
    destruct (captureBaseline_captured s req user baselines) as [Hinv' Hsome'];
      [done|apply Hsub; by left|done|done|].
    apply IH; [done|intros u Hu; apply Hsub; by right|done|done]. }
  assert (Houter : ∀ requests baselines,
             requests ⊆ Requests s →
             (∀ endpoint name baseline,
                lookupBaseline baselines endpoint name = Some baseline →
                captured s endpoint name baseline) →
             ∀ endpoint name baseline,
               lookupBaseline
                 (foldl (fun baselines req =>
                           let endpoint := endpointOf req in
                           let baselines := <[endpoint := ∅]> baselines in
                           foldl (captureBaseline req endpoint) baselines (Users s))
                        baselines requests)
                 endpoint name = Some baseline →
               captured s endpoint name baseline).
  { induction requests as [|req requests IH]; intros baselines Hsub Hinv; [done|].
    cbn [foldl]. apply IH; [intros r Hr; apply Hsub; by right|].
    cbn zeta. apply Hinner.
    - apply Hsub. by left.
    - done.
    - intros endpoint' name' baseline'. rewrite lookupBaseline_insert.
      destruct (decide _); [by rewrite lookup_empty|apply Hinv].
    - by rewrite lookup_insert_eq. }
  apply Houter; [done|].
  intros endpoint' name' baseline'. unfold lookupBaseline.
  by rewrite lookup_empty.
Qed.

(** C4. Every job queued carries the baseline found under its endpoint and
    its victim's name in the map captured before the queueing loop, and
    that baseline was recorded from the response to the victim's own
    request for a template with that endpoint. For a template and a victim
    without a baseline the loop queues no job, whoever the attacker, and
    the sequential test returns no finding. *)
Theorem jobs_have_captured_baselines (s : Scanner) :
  let baselines := CaptureBaselines s in
  (∀ job, job ∈ queueJobs s baselines →
     lookupBaseline baselines (endpointOf (ScanJob_Request job))
                    (User_Name (ScanJob_Victim job))
     = Some (ScanJob_Baseline job)
     ∧ captured s (endpointOf (ScanJob_Request job))
                (User_Name (ScanJob_Victim job)) (ScanJob_Baseline job))
  ∧ (∀ req attacker victim,
       lookupBaseline baselines (endpointOf req) (User_Name victim) = None →
       jobOf baselines req (attacker, victim) = None
       ∧ (∀ job, job ∈ queueJobs s baselines →
            ¬ (ScanJob_Request job = req ∧ ScanJob_Victim job = victim))
       ∧ testCrossUserWithBaseline req attacker victim baselines = None).
Proof.
  intros baselines. split.
  - intros job Hjob. apply elem_of_queueJobs in Hjob as (_ & _ & Hbase).
    split; [done|]. by apply CaptureBaselines_captured.
  - intros req attacker victim Hnone. repeat split.
    + unfold jobOf. cbn [snd]. by rewrite Hnone.
    + intros job Hjob [<- <-].
      apply elem_of_queueJobs in Hjob as (_ & _ & Hbase). congruence.
    + unfold testCrossUserWithBaseline. by rewrite Hnone.
Qed.

(** ** The worker pool *)

Lemma omap_cons_app {A B : Type} (f : A → option B) (x : A) (l : list A) :
  omap f (x :: l) = option_list (f x) ++ omap f l.
Proof. cbn [omap list_omap]. by destruct (f x). Qed.

(** Replacing the state of one worker trades what it had in flight for
    what it has now. *)
Lemma inFlight_insert (workers : list WorkerState) (i : nat) (w w' : WorkerState) :
  workers !! i = Some w →
  inFlight w ++ (<[i := w']> workers ≫= inFlight)
  ≡ₚ inFlight w' ++ (workers ≫= inFlight).
Proof.
  revert i. induction workers as [|w0 workers IH]; intros i Hi; [done|].
  destruct i as [|i].
  - injection Hi as ->. cbn [insert list_insert mbind list_bind].
    rewrite !app_assoc. f_equiv. apply Permutation_app_comm.
  - cbn [insert list_insert mbind list_bind].
    cbn [lookup list_lookup] in Hi.
    rewrite (Permutation_app_swap_app (inFlight w) (inFlight w0)).
    rewrite (Permutation_app_swap_app (inFlight w') (inFlight w0)).
    f_equiv. by apply IH.
Qed.

(** No step of a goroutine loses or invents a finding. *)
Lemma step_accounted (a : Actor) (p p' : Pool) :
  step a p = Some p' → accounted p' ≡ₚ accounted p.
Proof.
  destruct a as [|i]; cbn [step].
  - unfold stepMain.
    destruct (Pool_pending p) as [|job pending] eqn:Hpending.
    + destruct (Pool_closed p); cbn [negb].
      * destruct (Pool_results p) as [|result results] eqn:Hresults; [done|].
        intros [= <-]. unfold accounted. cbn. rewrite Hresults, Hpending.
        rewrite appendFinding_app, omap_cons_app.
        destruct result; cbn; by rewrite <- ?app_assoc.
      * intros [= <-]. unfold accounted. cbn. by rewrite Hpending.
    + destruct (_ <? _)%nat; [|done].
      intros [= <-]. unfold accounted. cbn. rewrite Hpending.
      by rewrite <- app_assoc.
  - unfold stepWorker.
    destruct (Pool_workers p !! i) as [[|job|]|] eqn:Hw; [| |done|done].
    + destruct (Pool_jobs p) as [|job jobs] eqn:Hjobs.
      * destruct (Pool_closed p); [|done].
        intros [= <-]. unfold accounted. cbn. rewrite Hjobs.
        apply (inFlight_insert _ _ _ Exited) in Hw. cbn [inFlight app] in Hw.
        by rewrite Hw.
      * intros [= <-]. unfold accounted. cbn. rewrite Hjobs.
        apply (inFlight_insert _ _ _ (Holding job)) in Hw.
        cbn [inFlight app] in Hw. rewrite Hw.
        cbn [app]. rewrite omap_cons_app.
        do 2 f_equiv. rewrite !app_assoc. f_equiv. apply Permutation_app_comm.
    + destruct (_ <? _)%nat; [|done].
      intros [= <-]. unfold accounted. cbn.
      apply (inFlight_insert _ _ _ Waiting) in Hw. cbn [inFlight app] in Hw.
      rewrite <- Hw, omap_app, omap_cons_app. cbn [omap list_omap id].
      by rewrite app_nil_r, <- !app_assoc.
Qed.

Lemma runSchedule_accounted (schedule : list Actor) (p p' : Pool) :
  runSchedule schedule p = Some p' → accounted p' ≡ₚ accounted p.
Proof.
  revert p. induction schedule as [|a schedule IH]; intros p; cbn [runSchedule].
  - by intros [= <-].
  - destruct (step a p) as [p1|] eqn:Hstep; [|done].
    intros Hrun. rewrite (IH _ Hrun). by apply (step_accounted a).
Qed.

Lemma elem_of_insert_inv {A : Type} (l : list A) (i : nat) (x y : A) :
  x ∈ <[i := y]> l → x = y ∨ x ∈ l.
Proof.
  revert i. induction l as [|z l IH]; intros i; [by right|].
  destruct i as [|i]; cbn [insert list_insert].
  - intros [->|H]%elem_of_cons; [by left|right; by right].
  - intros [->|H]%elem_of_cons; [right; by left|].
    destruct (IH _ H) as [->|H']; [by left|right; by right].
Qed.

Lemma step_poolInvariant (a : Actor) (p p' : Pool) :
  step a p = Some p' → poolInvariant p → poolInvariant p'.
Proof.
  unfold poolInvariant. intros Hstep [Hclosed Hexited].
  destruct a as [|i]; cbn [step] in Hstep.
  - unfold stepMain in Hstep.
    destruct (Pool_pending p) as [|job pending] eqn:Hpending.
    + destruct (Pool_closed p) eqn:Hc; cbn [negb] in Hstep.
      * destruct (Pool_results p) as [|result results]; [done|].
        injection Hstep as <-. cbn. split; [done|].
        intros Hin. by destruct (Hexited Hin) as [_ ->].
      * injection Hstep as <-. cbn. split; [done|].
        intros Hin. by destruct (Hexited Hin) as [? _].
    + destruct (_ <? _)%nat; [|done]. injection Hstep as <-. cbn.
      destruct (Pool_closed p) eqn:Hc; [by specialize (Hclosed eq_refl)|].
      split; [done|]. intros Hin. by destruct (Hexited Hin) as [? _].
  - unfold stepWorker in Hstep.
    destruct (Pool_workers p !! i) as [[|job|]|] eqn:Hw; [| |done|done].
    + destruct (Pool_jobs p) as [|job jobs] eqn:Hjobs.
      * destruct (Pool_closed p) eqn:Hc; [|done].
        injection Hstep as <-. cbn. split; [by intros _; apply Hclosed|done].
      * injection Hstep as <-. cbn. split; [done|].
        intros [?|Hin]%elem_of_insert_inv; [done|].
        by destruct (Hexited Hin) as [_ ?].
    + destruct (_ <? _)%nat; [|done]. injection Hstep as <-. cbn.
      split; [done|].
      intros [?|Hin]%elem_of_insert_inv; [done|]. by apply Hexited.
Qed.

Lemma step_workers_length (a : Actor) (p p' : Pool) :
  step a p = Some p' →
  List.length (Pool_workers p') = List.length (Pool_workers p).
Proof.
  destruct a as [|i]; cbn [step].
  - unfold stepMain.
    destruct (Pool_pending p).
    + destruct (negb (Pool_closed p)); [by intros [= <-]|].
      destruct (Pool_results p); [done|by intros [= <-]].
    + destruct (_ <? _)%nat; [by intros [= <-]|done].
  - unfold stepWorker.
    destruct (Pool_workers p !! i) as [[|job|]|]; [| |done|done].
    + destruct (Pool_jobs p).
      * destruct (Pool_closed p); [|done].
        intros [= <-]. cbn. by rewrite length_insert.
      * intros [= <-]. cbn. by rewrite length_insert.
    + destruct (_ <? _)%nat; [|done].
      intros [= <-]. cbn. by rewrite length_insert.
Qed.

Lemma runSchedule_invariants (schedule : list Actor) (p p' : Pool) :
  runSchedule schedule p = Some p' → poolInvariant p →
  poolInvariant p' ∧ List.length (Pool_workers p') = List.length (Pool_workers p).
Proof.
  revert p. induction schedule as [|a schedule IH]; intros p; cbn [runSchedule].
  - by intros [= <-].
  - destruct (step a p) as [p1|] eqn:Hstep; [|done].
    intros Hrun Hinv.
    destruct (IH _ Hrun (step_poolInvariant _ _ _ Hstep Hinv)) as [Hinv' Hlen].
    split; [done|]. rewrite Hlen. by apply (step_workers_length a).
Qed.

Lemma allExited_inFlight (workers : list WorkerState) :
  allExited workers = true → workers ≫= inFlight = [].
Proof.
  unfold allExited. induction workers as [|w workers IH]; [done|].
  cbn [forallb mbind list_bind]. intros [Hw Hws]%andb_prop.
  rewrite IH by done. by destruct w.
Qed.

Lemma allExited_elem (workers : list WorkerState) :
  allExited workers = true → workers ≠ [] → Exited ∈ workers.
Proof.
  destruct workers as [|w workers]; [done|].
  unfold allExited. cbn [forallb]. intros [Hw _]%andb_prop _.
  destruct w; [done|done|by left].
Qed.

Lemma replicate_Waiting_inFlight (n : nat) :
  replicate n Waiting ≫= inFlight = [].
Proof. induction n as [|n IH]; [done|]. by cbn [replicate mbind list_bind app]. Qed.

(** When the pool is through, main has collected the findings of the jobs
    queued, each once, in some order. *)
Lemma pool_collects_all (schedule : list Actor) (capacity workers : nat)
    (jobs : list ScanJob) (p : Pool) :
  workers ≠ 0%nat →
  runSchedule schedule (startPool capacity workers jobs) = Some p →
  finished p = true →
  Pool_findings p ≡ₚ omap executeScanJob jobs.
Proof.
  intros Hworkers Hrun Hfinished.
  pose proof (runSchedule_accounted _ _ _ Hrun) as Hacc.
  destruct (runSchedule_invariants _ _ _ Hrun) as [[_ Hexited] Hlen].
  { split; [done|]. cbn. by intros [? _]%elem_of_replicate. }
  cbn in Hlen. rewrite length_replicate in Hlen.
  unfold finished in Hfinished.
  destruct (Pool_pending p) eqn:Hpending; [|done].
  destruct (Pool_results p) eqn:Hresults; [|done].
  apply andb_prop in Hfinished as [_ Hall].
  destruct Hexited as [_ Hjobs].
  { apply allExited_elem; [done|]. intros Hnil. rewrite Hnil in Hlen. done. }
  unfold accounted in Hacc. cbn in Hacc.
  rewrite Hpending, Hresults, Hjobs, allExited_inFlight in Hacc by done.
  rewrite replicate_Waiting_inFlight in Hacc. cbn in Hacc.
  by rewrite app_nil_r in Hacc.
Qed.

(** *** A schedule that runs the pool to its end *)

Lemma runSchedule_app (l1 l2 : list Actor) (p : Pool) :
  runSchedule (l1 ++ l2) p = runSchedule l1 p ≫= runSchedule l2.
Proof.
  revert p. induction l1 as [|a l1 IH]; intros p; [done|].
  cbn [app runSchedule]. destruct (step a p); [apply IH|done].
Qed.

Lemma send_phase (capacity : nat) (pending jobs : list ScanJob)
    (workers : list WorkerState) :
  (List.length jobs + List.length pending ≤ capacity)%nat →
  runSchedule (replicate (List.length pending) Main)
    {| Pool_capacity := capacity; Pool_pending := pending; Pool_jobs := jobs;
       Pool_closed := false; Pool_workers := workers;
       Pool_results := []; Pool_findings := [] |}
  = Some {| Pool_capacity := capacity; Pool_pending := []; Pool_jobs := jobs ++ pending;
            Pool_closed := false; Pool_workers := workers;
            Pool_results := []; Pool_findings := [] |}.
Proof.
  revert jobs. induction pending as [|job pending IH]; intros jobs Hcap.
  - by rewrite app_nil_r.
  - cbn [List.length replicate runSchedule step]. unfold stepMain.
    cbn [Pool_pending Pool_jobs Pool_capacity Pool_closed Pool_workers
         Pool_results Pool_findings].
    cbn [List.length] in Hcap.
    destruct (Nat.ltb_spec (List.length jobs) capacity) as [_|Hge]; [|lia].
    rewrite IH by (rewrite length_app; cbn [List.length]; lia).
    by rewrite <- app_assoc.
Qed.

Lemma work_phase (capacity : nat) (jobs : list ScanJob)
    (others : list WorkerState) (findings : list Finding) :
  (List.length jobs ≤ capacity)%nat →
  runSchedule (List.concat (replicate (List.length jobs) [Worker 0; Worker 0; Main]))
    {| Pool_capacity := capacity; Pool_pending := []; Pool_jobs := jobs;
       Pool_closed := true; Pool_workers := Waiting :: others;
       Pool_results := []; Pool_findings := findings |}
  = Some {| Pool_capacity := capacity; Pool_pending := []; Pool_jobs := [];
            Pool_closed := true; Pool_workers := Waiting :: others;
            Pool_results := [];
            Pool_findings := findings ++ omap executeScanJob jobs |}.
Proof.
  revert findings. induction jobs as [|job jobs IH]; intros findings Hcap.
  - cbn. by rewrite app_nil_r.
  - cbn [List.length] in Hcap.
    cbn [List.length replicate List.concat app runSchedule step].
    unfold stepWorker at 1.
    cbn [Pool_pending Pool_jobs Pool_capacity Pool_closed Pool_workers
         Pool_results Pool_findings lookup list_lookup].
    unfold stepWorker at 1.
    cbn [Pool_pending Pool_jobs Pool_capacity Pool_closed Pool_workers
         Pool_results Pool_findings lookup list_lookup insert list_insert
         List.length].
    destruct (Nat.ltb_spec 0 capacity) as [_|Hge]; [|lia].
    unfold stepMain at 1.
    cbn [Pool_pending Pool_jobs Pool_capacity Pool_closed Pool_workers
         Pool_results Pool_findings negb app insert list_insert].
    rewrite IH by lia. rewrite appendFinding_app, omap_cons_app.
    by rewrite <- app_assoc.
Qed.

Lemma exit_phase (capacity exited waiting : nat) (findings : list Finding) :
  runSchedule (Worker <$> seq exited waiting)
    {| Pool_capacity := capacity; Pool_pending := []; Pool_jobs := [];
       Pool_closed := true;
       Pool_workers := replicate exited Exited ++ replicate waiting Waiting;
       Pool_results := []; Pool_findings := findings |}
  = Some {| Pool_capacity := capacity; Pool_pending := []; Pool_jobs := [];
            Pool_closed := true;
            Pool_workers := replicate (exited + waiting) Exited;
            Pool_results := []; Pool_findings := findings |}.
Proof.
  revert exited. induction waiting as [|waiting IH]; intros exited.
  - cbn. by rewrite app_nil_r, Nat.add_0_r.
  - cbn [seq fmap list_fmap runSchedule step]. unfold stepWorker.
    cbn [Pool_pending Pool_jobs Pool_capacity Pool_closed Pool_workers
         Pool_results Pool_findings].
    assert (Hlookup : (replicate exited Exited ++ replicate (S waiting) Waiting)
                        !! exited = Some Waiting).
    { apply list_lookup_middle. by rewrite length_replicate. }
    rewrite Hlookup.
    assert (Hinsert : <[exited := Exited]>
                        (replicate exited Exited ++ replicate (S waiting) Waiting)
                      = replicate (S exited) Exited ++ replicate waiting Waiting).
    { rewrite insert_app_r_alt by (by rewrite length_replicate).
      rewrite length_replicate, Nat.sub_diag.
      rewrite (replicate_S_end exited). by rewrite <- app_assoc. }
    rewrite Hinsert. rewrite (IH (S exited)).
    do 3 f_equal. lia.
Qed.

Lemma allExited_replicate (n : nat) : allExited (replicate n Exited) = true.
Proof. unfold allExited. induction n as [|n IH]; [done|]. by cbn. Qed.

(** Under [steadySchedule] a pool with a worker and room for its jobs comes
    to its end, with the findings of the jobs in the order queued. *)
Lemma steadySchedule_finishes (capacity workers : nat) (jobs : list ScanJob) :
  workers ≠ 0%nat → (List.length jobs ≤ capacity)%nat →
  ∃ p, runSchedule (steadySchedule (List.length jobs) workers)
                   (startPool capacity workers jobs) = Some p
       ∧ finished p = true
       ∧ Pool_findings p = omap executeScanJob jobs.
Proof.
  intros Hworkers Hcap. unfold steadySchedule, startPool.
  destruct workers as [|others]; [done|].
  eexists. split; [|split].
  - rewrite runSchedule_app, send_phase by (cbn [List.length]; lia).
    cbn [mbind option_bind app runSchedule step]. unfold stepMain at 1.
    cbn [Pool_pending Pool_jobs Pool_capacity Pool_closed Pool_workers
         Pool_results Pool_findings negb].
    rewrite runSchedule_app. cbn [replicate].
    rewrite work_phase by done. cbn [mbind option_bind app].
    apply (exit_phase capacity 0 (S others)).
  - cbn. by rewrite allExited_replicate.
  - done.
Qed.

Lemma length_omap_le {A B : Type} (f : A → option B) (l : list A) :
  (List.length (omap f l) ≤ List.length l)%nat.
Proof.
  induction l as [|x l IH]; [done|].
  cbn [omap list_omap List.length]. destruct (f x); cbn [List.length]; lia.
Qed.

(** The buffers have room for every job of the queueing loop. *)
Lemma length_queueJobs (s : Scanner) (baselines : BaselineMap) :
  (List.length (queueJobs s baselines)
   ≤ List.length (Requests s) * List.length (Users s) * List.length (Users s))%nat.
Proof.
  rewrite queueJobs_bind.
  assert (Hpairs : (List.length (crossPairs (Users s))
                    ≤ List.length (Users s) * List.length (Users s))%nat).
  { rewrite crossPairs_bind.
    assert (H : ∀ attackers,
               (List.length (attackers ≫= victimsOf (Users s))
                ≤ List.length attackers * List.length (Users s))%nat);
      [|apply H].
    induction attackers as [|attacker attackers IH]; [done|].
    cbn [mbind list_bind List.length]. rewrite length_app.
    unfold victimsOf at 1. rewrite length_fmap.
    pose proof (length_filter (fun victim => User_Name attacker ≠ User_Name victim)
                  (Users s)).
    lia. }
  induction (Requests s) as [|req requests IH]; [done|].
  cbn [mbind list_bind List.length]. rewrite length_app.
  pose proof (length_omap_le (jobOf baselines req) (crossPairs (Users s))).
  lia.
Qed.

(** ** The two modes *)

(** A job, when there is one, gives what the sequential test gives. *)
Lemma executeScanJob_jobOf (baselines : BaselineMap) (req : APIRequest)
    (p : User * User) :
  jobOf baselines req p ≫= executeScanJob
  = testCrossUserWithBaseline req p.1 p.2 baselines.
Proof.
  unfold jobOf, testCrossUserWithBaseline.
  destruct (lookupBaseline _ _ _) as [baseline|]; [|done].
  cbn [mbind option_bind]. unfold executeScanJob.
  cbn [ScanJob_Request ScanJob_Attacker ScanJob_Victim ScanJob_Baseline].
  done.
Qed.

Lemma omap_omap {A B C : Type} (f : A → option B) (g : B → option C) (l : list A) :
  omap g (omap f l) = omap (fun x => f x ≫= g) l.
Proof.
  induction l as [|x l IH]; [done|].
  cbn [omap list_omap]. destruct (f x) as [y|]; cbn [omap list_omap mbind option_bind].
  - by rewrite IH.
  - done.
Qed.

Lemma omap_bind {A B C : Type} (f : A → list B) (g : B → option C) (l : list A) :
  omap g (l ≫= f) = l ≫= (fun x => omap g (f x)).
Proof.
  induction l as [|x l IH]; [done|].
  cbn [mbind list_bind]. by rewrite omap_app, IH.
Qed.

Lemma jobOf_findings (baselines : BaselineMap) (req : APIRequest)
    (pairs : list (User * User)) :
  omap executeScanJob (omap (jobOf baselines req) pairs)
  = omap (fun p => testCrossUserWithBaseline req p.1 p.2 baselines) pairs.
Proof.
  rewrite omap_omap.
  induction pairs as [|p pairs IH]; [done|].
  cbn [omap list_omap]. by rewrite executeScanJob_jobOf, IH.
Qed.

(** The findings of the jobs queued, in the order queued, are the findings
    of the sequential tests, template by template. *)
Lemma queueJobs_findings (s : Scanner) (baselines : BaselineMap) :
  omap executeScanJob (queueJobs s baselines)
  = Requests s ≫= (fun req =>
      omap (fun p => testCrossUserWithBaseline req p.1 p.2 baselines)
           (crossPairs (Users s))).
Proof.
  rewrite queueJobs_bind, omap_bind.
  induction (Requests s) as [|req requests IH]; [done|].
  cbn [mbind list_bind]. by rewrite IH, jobOf_findings.
Qed.

Lemma noAuthTests_app (s : Scanner) (findings : list Finding) :
  noAuthTests s findings = findings ++ omap testNoAuth (Requests s).
Proof. apply foldl_appendFinding. Qed.

Lemma bind_app_Permutation {A B : Type} (f g : A → list B) (l : list A) :
  l ≫= (fun x => f x ++ g x) ≡ₚ (l ≫= f) ++ (l ≫= g).
Proof.
  induction l as [|x l IH]; [done|].
  cbn [mbind list_bind]. rewrite IH.
  rewrite <- !app_assoc. f_equiv.
  rewrite !app_assoc. f_equiv. apply Permutation_app_comm.
Qed.

Lemma bind_option_list {A B : Type} (f : A → option B) (l : list A) :
  l ≫= (fun x => option_list (f x)) = omap f l.
Proof.
  induction l as [|x l IH]; [done|].
  cbn [mbind list_bind]. by rewrite IH, omap_cons_app.
Qed.

(** The findings of a finished pool followed by those of the no-auth
    tests are, up to order, the findings of the sequential scan. *)
Lemma concurrent_findings_Permutation (s : Scanner) (baselines : BaselineMap)
    (poolFindings : list Finding) :
  poolFindings ≡ₚ omap executeScanJob (queueJobs s baselines) →
  noAuthTests s poolFindings ≡ₚ runWithBaselines s baselines.
Proof.
  intros Hpool.
  rewrite noAuthTests_app, Hpool, queueJobs_findings, runWithBaselines_bind.
  rewrite bind_app_Permutation. by rewrite bind_option_list.
Qed.

Lemma workers_nonzero (workers : Z) :
  Z.to_nat (if workers <=? 0 then 5 else workers) ≠ 0%nat.
Proof. destruct (Z.leb_spec workers 0); lia. Qed.

(** C8. Whatever the schedule of the goroutines, a run of the concurrent
    scan that comes to its end returns the findings of the sequential scan
    in some order, so as many of them; and for every worker count there is
    a schedule under which the run comes to its end. *)
Theorem concurrent_same_findings (s : Scanner) (workers : Z) :
  (∃ schedule findings,
     RunWithBaselineConcurrent schedule s workers = Some findings)
  ∧ (∀ schedule findings,
       RunWithBaselineConcurrent schedule s workers = Some findings →
       findings ≡ₚ RunWithBaseline s
       ∧ List.length findings = List.length (RunWithBaseline s)).
Proof.
  unfold RunWithBaselineConcurrent, runConcurrentWithBaselines, RunWithBaseline.
  cbn zeta.
  pose proof (workers_nonzero workers) as Hworkers.
  set (baselines := CaptureBaselines s) in *.
  set (n := Z.to_nat (if workers <=? 0 then 5 else workers)) in *.
  split.
  - destruct (steadySchedule_finishes
                (List.length (Requests s) * List.length (Users s)
                 * List.length (Users s))
                n (queueJobs s baselines) Hworkers (length_queueJobs s baselines))
      as (p & Hrun & Hfinished & _).
    eexists _, _. by rewrite Hrun, Hfinished.
  - intros schedule findings.
    destruct (runSchedule _ _) as [p|] eqn:Hrun; [|done].
    destruct (finished p) eqn:Hfinished; [|done].
    intros [= <-].
    pose proof (pool_collects_all _ _ _ _ _ Hworkers Hrun Hfinished) as Hpool.
    pose proof (concurrent_findings_Permutation s baselines _ Hpool) as Hperm.
    split; [done|]. by rewrite Hperm.
Qed.

(** ** Severities of a whole scan *)

Lemma foldl_invariant {A B : Type} (P : A → Prop) (f : A → B → A)
    (l : list B) (acc : A) :
  (∀ acc x, P acc → P (f acc x)) → P acc → P (foldl f acc l).
Proof.
  intros Hstep. revert acc.
  induction l as [|x l IH]; intros acc Hacc; [done|].
  cbn [foldl]. apply IH. by apply Hstep.
Qed.

Lemma appendFinding_Forall (P : Finding → Prop) (findings : list Finding)
    (f : option Finding) :
  Forall P findings → (∀ x, f = Some x → P x) → Forall P (appendFinding findings f).
Proof.
  intros Hall Hf. destruct f as [x|]; [|done].
  cbn. apply Forall_app. split; [done|]. constructor; [by apply Hf|done].
Qed.

Lemma Run_severity (s : Scanner) : Forall criticalOrHigh (Run s).
Proof.
  unfold Run. apply foldl_invariant; [|done].
  intros findings req Hall.
  apply appendFinding_Forall.
  - unfold forEachIndexPair.
    apply foldl_invariant; [|done]. intros acc [i user1] Hacc.
    apply foldl_invariant; [|done]. intros acc' [j user2] Hacc'.
    destruct (Nat.eqb i j); [done|].
    apply appendFinding_Forall; [done|].
    intros f Hf. left. by apply testCrossUserAccess_severity in Hf.
  - intros f Hf. right. by apply testNoAuth_severity in Hf.
Qed.

Lemma runWithBaselines_severity (s : Scanner) (baselines : BaselineMap) :
  Forall criticalOrHigh (runWithBaselines s baselines).
Proof.
  unfold runWithBaselines. apply foldl_invariant; [|done].
  intros findings req Hall.
  apply appendFinding_Forall.
  - unfold forEachPair.
    apply foldl_invariant; [|done]. intros acc attacker Hacc.
    apply foldl_invariant; [|done]. intros acc' victim Hacc'.
    destruct (String.eqb _ _); [done|].
    apply appendFinding_Forall; [done|].
    intros f Hf. by apply testCrossUserWithBaseline_severity in Hf.
  - intros f Hf. right. by apply testNoAuth_severity in Hf.
Qed.

Lemma runConcurrent_severity (schedule : list Actor) (s : Scanner) (workers : Z)
    (baselines : BaselineMap) (findings : list Finding) :
  runConcurrentWithBaselines schedule s workers baselines = Some findings →
  Forall criticalOrHigh findings.
Proof.
  unfold runConcurrentWithBaselines. cbn zeta.
  destruct (runSchedule _ _) as [p|] eqn:Hrun; [|done].
  destruct (finished p) eqn:Hfinished; [|done].
  intros [= <-].
  pose proof (pool_collects_all _ _ _ _ _ (workers_nonzero workers) Hrun Hfinished)
    as Hpool.
  rewrite (concurrent_findings_Permutation s baselines _ Hpool).
  apply runWithBaselines_severity.
Qed.

(** The summary counts no MEDIUM among findings that are CRITICAL or
    HIGH. *)
Lemma countSeverities_medium (findings : list Finding) :
  Forall criticalOrHigh findings → (countSeverities findings).2 = 0.
Proof.
  unfold countSeverities. intros Hall.
  assert (H : ∀ critical high,
             (foldl (fun '(critical, high, medium) f =>
                       if String.eqb (Finding_Severity f) "CRITICAL"
                       then (critical + 1, high, medium)
                       else if String.eqb (Finding_Severity f) "HIGH"
                       then (critical, high + 1, medium)
                       else if String.eqb (Finding_Severity f) "MEDIUM"
                       then (critical, high, medium + 1)
                       else (critical, high, medium))
                    (critical, high, 0) findings).2 = 0);
    [|apply H].
  induction Hall as [|f findings Hf Hall IH]; intros critical high; [done|].
  cbn [foldl]. destruct Hf as [-> | ->]; cbn; apply IH.
Qed.

(** C10. A finding of [testCrossUserAccess], [testCrossUserWithBaseline],
    [executeScanJob] or [testNoAuth] is CRITICAL or HIGH, so is every
    finding of the three scans, and the summary counts no MEDIUM. *)
Theorem findings_critical_or_high (s : Scanner) (workers : Z) :
  (∀ req attacker victim baselines job f,
     testCrossUserAccess req attacker victim = Some f ∨
     testCrossUserWithBaseline req attacker victim baselines = Some f ∨
     executeScanJob job = Some f ∨
     testNoAuth req = Some f →
     criticalOrHigh f ∧ Finding_Severity f ≠ "MEDIUM")
  ∧ Forall criticalOrHigh (Run s)
  ∧ Forall criticalOrHigh (RunWithBaseline s)
  ∧ (∀ schedule findings,
       RunWithBaselineConcurrent schedule s workers = Some findings →
       Forall criticalOrHigh findings ∧ (countSeverities findings).2 = 0)
  ∧ (countSeverities (Run s)).2 = 0
  ∧ (countSeverities (RunWithBaseline s)).2 = 0.
Proof.
  split; [|split; [|split; [|split; [|split]]]].
  - intros req attacker victim baselines job f H.
    assert (Hf : criticalOrHigh f).
    { destruct H as [H|[H|[H|H]]].
      - left. by apply testCrossUserAccess_severity in H.
      - by apply testCrossUserWithBaseline_severity in H.
      - by apply executeScanJob_severity in H.
      - right. by apply testNoAuth_severity in H. }
    split; [done|]. by destruct Hf as [-> | ->].
  - apply Run_severity.
  - apply runWithBaselines_severity.
  - intros schedule findings Hrun.
    apply runConcurrent_severity in Hrun.
    split; [done|]. by apply countSeverities_medium.
  - apply countSeverities_medium, Run_severity.
  - apply countSeverities_medium, runWithBaselines_severity.
Qed.

(** ** Headers of the request built *)

Lemma range_empty : range ∅ = [].
Proof.
  apply Permutation_nil_r. rewrite <- (map_to_list_empty (A := string)).
  apply range_perm.
Qed.

Lemma range_singleton (key val : string) : range {[ key := val ]} = [(key, val)].
Proof.
  apply Permutation_singleton_r. rewrite <- map_to_list_singleton.
  apply range_perm.
Qed.

(** The first header loop of [buildRequest] over entries that agree on the
    canonical key of [key] keeps what is stored under it. *)
Lemma identity_headers_keep (key val : string) (entries : list (string * string))
    (h : gmap string string) :
  (∀ key' val', (key', val') ∈ entries →
     CanonicalMIMEHeaderKey key' = CanonicalMIMEHeaderKey key → val' = val) →
  h !! CanonicalMIMEHeaderKey key = Some val →
  foldl (fun h '(key, val) => Header_Set h key val) h entries
    !! CanonicalMIMEHeaderKey key = Some val.
Proof.
  revert h. induction entries as [|[key' val'] entries IH]; intros h Hagree Hh; [done|].
  cbn [foldl]. apply IH.
  - intros k v Hin. apply Hagree. by right.
  - unfold Header_Set. rewrite lookup_insert.
    destruct (decide _) as [Heq|]; [|done].
    f_equal. apply (Hagree key' val'); [by left|done].
Qed.

Lemma identity_headers_set (key val : string) (entries : list (string * string))
    (h : gmap string string) :
  (key, val) ∈ entries →
  (∀ key' val', (key', val') ∈ entries →
     CanonicalMIMEHeaderKey key' = CanonicalMIMEHeaderKey key → val' = val) →
  foldl (fun h '(key, val) => Header_Set h key val) h entries
    !! CanonicalMIMEHeaderKey key = Some val.
Proof.
  revert h. induction entries as [|[key' val'] entries IH]; intros h Hin Hagree.
  - by apply elem_of_nil in Hin.
  - cbn [foldl]. apply elem_of_cons in Hin as [[= <- <-]|Hin].
    + apply identity_headers_keep.
      * intros k v Hkv. apply Hagree. by right.
      * unfold Header_Set. by rewrite lookup_insert_eq.
    + apply IH; [done|]. intros k v Hkv. apply Hagree. by right.
Qed.

(** The second header loop of [buildRequest] keeps what is stored under
    the canonical key of [key] when every template header with that
    canonical key is spelled as a header of the user. *)
Lemma template_headers_keep (user : User) (key val : string)
    (entries : list (string * string)) (h : gmap string string) :
  (∀ key' val', (key', val') ∈ entries →
     CanonicalMIMEHeaderKey key' = CanonicalMIMEHeaderKey key →
     is_Some (User_Headers user !! key')) →
  h !! CanonicalMIMEHeaderKey key = Some val →
  foldl (fun h '(key, val) =>
           match User_Headers user !! key with
           | Some _ => h
           | None => Header_Set h key val
           end) h entries
    !! CanonicalMIMEHeaderKey key = Some val.
Proof.
  revert h. induction entries as [|[key' val'] entries IH]; intros h Hspelled Hh; [done|].
  cbn [foldl]. apply IH.
  - intros k v Hin. apply (Hspelled k v). by right.
  - destruct (User_Headers user !! key') as [v|] eqn:Huser; [done|].
    unfold Header_Set. rewrite lookup_insert.
    destruct (decide _) as [Heq|]; [|done].
    destruct (Hspelled key' val') as [v Hv]; [by left|done|congruence].
Qed.

(** Where the identity's header does take precedence: the request carries
    the identity's value under the canonical form of the header's name when
    the identity has no other value under that canonical form and every
    template header of that canonical form is spelled exactly as a header
    of the identity. *)
Lemma identity_header_precedence (req : APIRequest) (user : User)
    (params : gmap string string) (testReq : HttpRequest) (key val : string) :
  buildRequest req user params = Some testReq →
  User_Headers user !! key = Some val →
  (∀ key' val', User_Headers user !! key' = Some val' →
     CanonicalMIMEHeaderKey key' = CanonicalMIMEHeaderKey key → val' = val) →
  (∀ key', is_Some (APIRequest_Headers req !! key') →
     CanonicalMIMEHeaderKey key' = CanonicalMIMEHeaderKey key →
     is_Some (User_Headers user !! key')) →
  Request_Header testReq !! CanonicalMIMEHeaderKey key = Some val.
Proof.
  intros Hbuild Hkey Hagree Hspelled. unfold buildRequest in Hbuild.
  destruct (foldl _ _ (range params)) as [url body].
  destruct (NewRequest_ok _ url); [|done].
  injection Hbuild as <-. cbn [Request_Header].
  apply template_headers_keep.
  - intros key' val' Hin. apply Hspelled.
    exists val'. apply elem_of_map_to_list.
    by rewrite <- (range_perm (APIRequest_Headers req)).
  - apply identity_headers_set.
    + rewrite (range_perm (User_Headers user)). by apply elem_of_map_to_list.
    + intros key' val' Hin. apply Hagree.
      apply elem_of_map_to_list. by rewrite <- (range_perm (User_Headers user)).
Qed.

(** C9, the case the code misses. The identity [mallory] defines the header
    [authorization]; the template carries [Authorization]. The test of the
    second loop looks the template's spelling up in the identity's map and
    misses, and [Set] stores both under [Authorization]: the request built
    carries the template's credential, not the identity's. *)
Theorem template_header_overrides_identity :
  NewRequest_ok "GET" "http://localhost:8888/api/users/123" = true →
  User_Headers mallory !! "authorization" = Some "Bearer mallory-token"
  ∧ ∃ testReq,
      buildRequest getAliceRecorded mallory (User_Params mallory) = Some testReq
      ∧ Request_Header testReq !! CanonicalMIMEHeaderKey "authorization"
        = Some "Bearer alice-token"
      ∧ ∀ name, Request_Header testReq !! name ≠ Some "Bearer mallory-token".
Proof.
  intros Hok. split; [done|].
  unfold buildRequest.
  cbn [getAliceRecorded mallory User_Params User_Headers APIRequest_URL
       APIRequest_Body APIRequest_Method APIRequest_Headers].
  rewrite range_empty, !range_singleton. cbn [foldl]. rewrite Hok.
  eexists. split; [done|]. cbn [Request_Header].
  rewrite lookup_singleton_ne by done.
  unfold Header_Set.
  change (CanonicalMIMEHeaderKey "authorization") with "Authorization".
  change (CanonicalMIMEHeaderKey "Authorization") with "Authorization".
  rewrite insert_insert_eq. split.
  - by rewrite lookup_insert_eq.
  - intros name. rewrite lookup_insert.
    destruct (decide _); [done|]. by rewrite lookup_empty.
Qed.

(** ** The pool neither blocks nor runs on *)

Lemma sum_list_with_insert {A : Type} (f : A → nat) (l : list A) (i : nat)
    (x y : A) :
  l !! i = Some x →
  (sum_list_with f (<[i := y]> l) + f x = sum_list_with f l + f y)%nat.
Proof.
  revert i. induction l as [|z l IH]; intros i Hi; [done|].
  destruct i as [|i]; simpl.
  - injection Hi as ->. lia.
  - specialize (IH i Hi). lia.
Qed.

(** Every step of a goroutine is one of the steps counted by
    [stepsLeft]. *)
Lemma step_stepsLeft (a : Actor) (p p' : Pool) :
  step a p = Some p' → stepsLeft p = S (stepsLeft p').
Proof.
  destruct a as [|i]; cbn [step].
  - unfold stepMain.
    destruct (Pool_pending p) as [|job pending] eqn:Hpending.
    + destruct (Pool_closed p) eqn:Hclosed; cbn [negb].
      * destruct (Pool_results p) as [|result results] eqn:Hresults; [done|].
        intros [= <-]. unfold stepsLeft. cbn. rewrite Hpending, Hresults, Hclosed.
        cbn [List.length]. lia.
      * intros [= <-]. unfold stepsLeft. cbn. rewrite Hpending, Hclosed.
        cbn [List.length]. lia.
    + destruct (_ <? _)%nat; [|done].
      intros [= <-]. unfold stepsLeft. cbn. rewrite Hpending, length_app.
      cbn [List.length]. lia.
  - unfold stepWorker.
    destruct (Pool_workers p !! i) as [[|job|]|] eqn:Hw; [| |done|done].
    + destruct (Pool_jobs p) as [|job jobs] eqn:Hjobs.
      * destruct (Pool_closed p) eqn:Hclosed; [|done].
        intros [= <-]. unfold stepsLeft. cbn. rewrite Hjobs, Hclosed.
        pose proof (sum_list_with_insert workerSteps _ _ _ Exited Hw) as Hsum.
        cbn [workerSteps List.length] in *. lia.
      * intros [= <-]. unfold stepsLeft. cbn. rewrite Hjobs.
        pose proof (sum_list_with_insert workerSteps _ _ _ (Holding job) Hw) as Hsum.
        cbn [workerSteps List.length] in *. lia.
    + destruct (_ <? _)%nat; [|done].
      intros [= <-]. unfold stepsLeft. cbn. rewrite length_app.
      pose proof (sum_list_with_insert workerSteps _ _ _ Waiting Hw) as Hsum.
      cbn [workerSteps List.length] in *. lia.
Qed.

Lemma runSchedule_stepsLeft (schedule : list Actor) (p p' : Pool) :
  runSchedule schedule p = Some p' →
  stepsLeft p = (List.length schedule + stepsLeft p')%nat.
Proof.
  revert p. induction schedule as [|a schedule IH]; intros p; cbn [runSchedule].
  - by intros [= <-].
  - destruct (step a p) as [p1|] eqn:Hstep; [|done].
    intros Hrun. rewrite (step_stepsLeft _ _ _ Hstep), (IH _ Hrun).
    cbn [List.length]. lia.
Qed.

(** No step adds to what is between the two loops, and none changes the
    capacity of the channels. *)
Lemma step_inTransit (a : Actor) (p p' : Pool) :
  step a p = Some p' →
  (inTransit p' ≤ inTransit p)%nat ∧ Pool_capacity p' = Pool_capacity p.
Proof.
  destruct a as [|i]; cbn [step].
  - unfold stepMain.
    destruct (Pool_pending p) as [|job pending] eqn:Hpending.
    + destruct (Pool_closed p); cbn [negb].
      * destruct (Pool_results p) as [|result results] eqn:Hresults; [done|].
        intros [= <-]. unfold inTransit. cbn. rewrite Hpending, Hresults.
        cbn [List.length]. split; [lia|done].
      * intros [= <-]. unfold inTransit. cbn. rewrite Hpending. split; [lia|done].
    + destruct (_ <? _)%nat; [|done].
      intros [= <-]. unfold inTransit. cbn. rewrite Hpending, length_app.
      cbn [List.length]. split; [lia|done].
  - unfold stepWorker.
    destruct (Pool_workers p !! i) as [[|job|]|] eqn:Hw; [| |done|done].
    + destruct (Pool_jobs p) as [|job jobs] eqn:Hjobs.
      * destruct (Pool_closed p); [|done].
        intros [= <-]. unfold inTransit. cbn. rewrite Hjobs.
        pose proof (sum_list_with_insert holdsJob _ _ _ Exited Hw) as Hsum.
        cbn [holdsJob List.length] in *. split; [lia|done].
      * intros [= <-]. unfold inTransit. cbn. rewrite Hjobs.
        pose proof (sum_list_with_insert holdsJob _ _ _ (Holding job) Hw) as Hsum.
        cbn [holdsJob List.length] in *. split; [lia|done].
    + destruct (_ <? _)%nat; [|done].
      intros [= <-]. unfold inTransit. cbn. rewrite length_app.
      pose proof (sum_list_with_insert holdsJob _ _ _ Waiting Hw) as Hsum.
      cbn [holdsJob List.length] in *. split; [lia|done].
Qed.

Lemma runSchedule_inTransit (schedule : list Actor) (p p' : Pool) :
  runSchedule schedule p = Some p' →
  (inTransit p' ≤ inTransit p)%nat ∧ Pool_capacity p' = Pool_capacity p.
Proof.
  revert p. induction schedule as [|a schedule IH]; intros p; cbn [runSchedule].
  - by intros [= <-].
  - destruct (step a p) as [p1|] eqn:Hstep; [|done].
    intros Hrun. destruct (IH _ Hrun) as [Hle Hcap].
    destruct (step_inTransit _ _ _ Hstep) as [Hle1 Hcap1].
    split; [lia|congruence].
Qed.

Lemma sum_list_with_replicate_Waiting (f : WorkerState → nat) (n : nat) :
  sum_list_with f (replicate n Waiting) = (n * f Waiting)%nat.
Proof. induction n as [|n IH]; [done|]. simpl. lia. Qed.

Lemma sum_list_with_lookup {A : Type} (f : A → nat) (l : list A) (i : nat) (x : A) :
  l !! i = Some x → (f x ≤ sum_list_with f l)%nat.
Proof.
  intros Hi. apply list_elem_of_lookup_2 in Hi.
  by apply sum_list_with_in.
Qed.

Lemma allExited_workerSteps (workers : list WorkerState) :
  allExited workers = true → sum_list_with workerSteps workers = 0%nat.
Proof.
  unfold allExited. induction workers as [|w workers IH]; [done|].
  simpl. intros [Hw Hws]%andb_prop.
  rewrite IH by done. by destruct w.
Qed.

(** A worker that has not left can be found when not all have. *)
Lemma not_allExited (workers : list WorkerState) :
  allExited workers = false →
  ∃ i w, workers !! i = Some w ∧ w ≠ Exited.
Proof.
  unfold allExited. induction workers as [|w workers IH]; [done|].
  cbn [forallb]. destruct w.
  - intros _. by exists 0%nat, Waiting.
  - intros _. by exists 0%nat, (Holding job).
  - cbn [andb]. intros H. destruct (IH H) as (i & w & Hi & Hw).
    by exists (S i), w.
Qed.

Lemma workerSteps_allExited (workers : list WorkerState) :
  sum_list_with workerSteps workers = 0%nat → allExited workers = true.
Proof.
  unfold allExited. induction workers as [|w workers IH]; [done|].
  simpl. intros Hsum. rewrite IH by lia. by destruct w.
Qed.

Lemma scanPool_start (s : Scanner) (workers : Z) (baselines : BaselineMap) :
  poolInvariant (scanPool s workers baselines)
  ∧ (inTransit (scanPool s workers baselines)
     ≤ Pool_capacity (scanPool s workers baselines))%nat
  ∧ stepsLeft (scanPool s workers baselines)
    = (4 * List.length (queueJobs s baselines)
       + Z.to_nat (if (workers <=? 0)%Z then 5%Z else workers) + 1)%nat.
Proof.
  unfold scanPool, startPool, poolInvariant, inTransit, stepsLeft. cbn.
  rewrite !sum_list_with_replicate_Waiting. cbn [workerSteps holdsJob].
  pose proof (length_queueJobs s baselines).
  split; [split; [done|by intros [? _]%elem_of_replicate]|split; lia].
Qed.

(** X1. The concurrent scan stops, whatever the scheduler does: with [n] jobs
    queued and [w] workers, the goroutines of the pool can make
    [4 * n + w + 1] steps and no more, and the pool is through exactly
    when they have made them all. *)
Theorem pool_stops (schedule : list Actor) (s : Scanner) (workers : Z)
    (baselines : BaselineMap) (p : Pool) :
  runSchedule schedule (scanPool s workers baselines) = Some p →
  let total :=
    (4 * List.length (queueJobs s baselines)
     + Z.to_nat (if (workers <=? 0)%Z then 5%Z else workers) + 1)%nat in
  (List.length schedule + stepsLeft p)%nat = total
  ∧ (finished p = true ↔ List.length schedule = total).
Proof.
  intros Hrun total.
  destruct (scanPool_start s workers baselines) as (Hinv & _ & Hstart).
  pose proof (runSchedule_stepsLeft _ _ _ Hrun) as Hsteps.
  destruct (runSchedule_invariants _ _ _ Hrun Hinv) as [[Hclosed Hexited] Hlen].
  assert (Hworkers : Pool_workers p ≠ []).
  { intros Hnil. rewrite Hnil in Hlen. unfold scanPool, startPool in Hlen.
    cbn in Hlen. rewrite length_replicate in Hlen.
    by pose proof (workers_nonzero workers). }
  split; [subst total; lia|].
  assert (Hzero : finished p = true ↔ stepsLeft p = 0%nat);
    [|rewrite Hzero; subst total; lia].
  unfold finished, stepsLeft. split.
  - destruct (Pool_pending p); [|done]. destruct (Pool_results p); [|done].
    intros [Hc Hall]%andb_prop. rewrite Hc.
    destruct Hexited as [_ ->]; [by apply allExited_elem|].
    rewrite allExited_workerSteps by done. done.
  - intros Hsum.
    destruct (Pool_pending p); [|cbn [List.length] in Hsum; lia].
    destruct (Pool_results p); [|cbn [List.length] in Hsum; lia].
    destruct (Pool_closed p); [|lia].
    rewrite workerSteps_allExited; [done|lia].
Qed.

(** X2. No goroutine of the concurrent scan ever waits on a full channel, and
    the pool cannot come to a halt before it is through: a send of a job
    and a send of a result can always go ahead, and as long as main has
    not left the collecting loop some goroutine can move. *)
Theorem pool_never_stuck (schedule : list Actor) (s : Scanner) (workers : Z)
    (baselines : BaselineMap) (p : Pool) :
  runSchedule schedule (scanPool s workers baselines) = Some p →
  (Pool_pending p ≠ [] → is_Some (step Main p))
  ∧ (∀ i job, Pool_workers p !! i = Some (Holding job) →
       is_Some (step (Worker i) p))
  ∧ (finished p = false → ∃ a, is_Some (step a p)).
Proof.
  intros Hrun.
  destruct (scanPool_start s workers baselines) as (Hinv & Hfit & _).
  destruct (runSchedule_invariants _ _ _ Hrun Hinv) as [[Hclosed _] _].
  destruct (runSchedule_inTransit _ _ _ Hrun) as [Hle Hcap].
  assert (Hroom : (inTransit p ≤ Pool_capacity p)%nat) by lia.
  clear Hle Hcap Hfit Hinv Hrun.
  assert (Hsend : Pool_pending p ≠ [] → is_Some (step Main p)).
  { intros Hpending. cbn [step]. unfold stepMain.
    destruct (Pool_pending p) as [|job pending] eqn:Hp; [done|].
    unfold inTransit in Hroom. rewrite Hp in Hroom. cbn [List.length] in Hroom.
    destruct (Nat.ltb_spec (List.length (Pool_jobs p)) (Pool_capacity p));
      [by eexists|lia]. }
  assert (Hresult : ∀ i job, Pool_workers p !! i = Some (Holding job) →
                      is_Some (step (Worker i) p)).
  { intros i job Hw. cbn [step]. unfold stepWorker. rewrite Hw.
    pose proof (sum_list_with_lookup holdsJob _ _ _ Hw) as Hheld.
    cbn [holdsJob] in Hheld. unfold inTransit in Hroom.
    destruct (Nat.ltb_spec (List.length (Pool_results p)) (Pool_capacity p));
      [by eexists|lia]. }
  split; [done|]. split; [done|].
  intros Hfinished.
  destruct (Pool_pending p) as [|job pending] eqn:Hp;
    [|exists Main; by apply Hsend].
  destruct (Pool_closed p) eqn:Hc.
  - destruct (Pool_results p) as [|result results] eqn:Hr.
    + unfold finished in Hfinished. rewrite Hp, Hr, Hc in Hfinished.
      cbn [andb] in Hfinished.
      destruct (not_allExited _ Hfinished) as (i & w & Hw & Hne).
      exists (Worker i). destruct w as [|job|]; [|by apply (Hresult i job)|done].
      cbn [step]. unfold stepWorker. rewrite Hw, Hc.
      destruct (Pool_jobs p); by eexists.
    + exists Main. cbn [step]. unfold stepMain. rewrite Hp, Hc, Hr.
      cbn [negb]. by eexists.
  - exists Main. cbn [step]. unfold stepMain. rewrite Hp, Hc.
    cbn [negb]. by eexists.
Qed.

(** ** What the baseline map holds *)

Lemma runConcurrent_scanPool (schedule : list Actor) (s : Scanner) (workers : Z)
    (baselines : BaselineMap) :
  runConcurrentWithBaselines schedule s workers baselines
  = match runSchedule schedule (scanPool s workers baselines) with
    | Some p => if finished p then Some (noAuthTests s (Pool_findings p)) else None
    | None => None
    end.
Proof. reflexivity. Qed.

(** One turn of the inner loop of [CaptureBaselines], read at any key. *)
Lemma lookupBaseline_captureBaseline (req : APIRequest) (endpoint : string)
    (baselines : BaselineMap) (user : User) (endpoint' name : string) :
  lookupBaseline (captureBaseline req endpoint baselines user) endpoint' name
  = match ownExchange req user with
    | Some resp =>
        if decide (endpoint = endpoint' ∧ User_Name user = name)
        then Some (baselineOf resp)
        else lookupBaseline baselines endpoint' name
    | None => lookupBaseline baselines endpoint' name
    end.
Proof.
  unfold captureBaseline, ownExchange.
  destruct (buildRequest req user (User_Params user)) as [testReq|]; [|done].
  cbn [mbind option_bind].
  destruct (executeRequest testReq) as [resp|]; [|done].
  cbn zeta. rewrite lookupBaseline_insert.
  destruct (decide (endpoint = endpoint')) as [<-|Hne].
  - rewrite lookup_insert. unfold lookupBaseline.
    destruct (decide (User_Name user = name)) as [<-|Hname].
    + by rewrite decide_True.
    + rewrite decide_False by (by intros [_ ?]).
      by destruct (baselines !! endpoint).
  - by rewrite decide_False by (by intros [? _]).
Qed.

Lemma captureBaseline_other_name (req : APIRequest) (endpoint : string)
    (users : list User) (baselines : BaselineMap) (endpoint' name : string) :
  name ∉ User_Name <$> users →
  lookupBaseline (foldl (captureBaseline req endpoint) baselines users)
                 endpoint' name
  = lookupBaseline baselines endpoint' name.
Proof.
  revert baselines. induction users as [|user users IH]; intros baselines Hname;
    [done|].
  cbn [foldl]. rewrite fmap_cons in Hname.
  apply not_elem_of_cons in Hname as [Hne Hname].
  rewrite IH by done. rewrite lookupBaseline_captureBaseline.
  destruct (ownExchange req user); [|done].
  by rewrite decide_False by (intros [_ ?]; congruence).
Qed.

Lemma captureBaseline_other_endpoint (req : APIRequest) (endpoint : string)
    (users : list User) (baselines : BaselineMap) (endpoint' name : string) :
  endpoint ≠ endpoint' →
  lookupBaseline (foldl (captureBaseline req endpoint) baselines users)
                 endpoint' name
  = lookupBaseline baselines endpoint' name.
Proof.
  intros Hne. revert baselines.
  induction users as [|user users IH]; intros baselines; [done|].
  cbn [foldl]. rewrite IH, lookupBaseline_captureBaseline.
  destruct (ownExchange req user); [|done].
  by rewrite decide_False by (by intros [? _]).
Qed.

(** The inner loop of [CaptureBaselines] over users of distinct names
    leaves, for each of them, the baseline of its own exchange, or what
    was there when the exchange failed. *)
Lemma captureBaseline_own (req : APIRequest) (endpoint : string)
    (users : list User) (baselines : BaselineMap) (user : User) :
  NoDup (User_Name <$> users) → user ∈ users →
  lookupBaseline (foldl (captureBaseline req endpoint) baselines users)
                 endpoint (User_Name user)
  = match ownExchange req user with
    | Some resp => Some (baselineOf resp)
    | None => lookupBaseline baselines endpoint (User_Name user)
    end.
Proof.
  revert baselines. induction users as [|u users IH]; intros baselines Hnodup Hin.
  - by apply elem_of_nil in Hin.
  - rewrite fmap_cons in Hnodup. apply NoDup_cons in Hnodup as [Hfresh Hnodup].
    cbn [foldl]. apply elem_of_cons in Hin as [<-|Hin].
    + rewrite captureBaseline_other_name by done.
      rewrite lookupBaseline_captureBaseline.
      destruct (ownExchange req user); [|done]. by rewrite decide_True.
    + rewrite IH by done.
      destruct (ownExchange req user); [done|].
      rewrite lookupBaseline_captureBaseline.
      destruct (ownExchange req u); [|done].
      rewrite decide_False; [done|].
      intros [_ Heq]. apply Hfresh. rewrite Heq. by apply list_elem_of_fmap_2.
Qed.

(** The templates after the last one of an endpoint leave its entries
    alone. *)
Lemma CaptureBaselines_later (users : list User) (requests : list APIRequest)
    (baselines : BaselineMap) (endpoint name : string) :
  endpoint ∉ endpointOf <$> requests →
  lookupBaseline
    (foldl (fun baselines req =>
              let endpoint := endpointOf req in
              let baselines := <[endpoint := ∅]> baselines in
              foldl (captureBaseline req endpoint) baselines users)
           baselines requests)
    endpoint name
  = lookupBaseline baselines endpoint name.
Proof.
  revert baselines. induction requests as [|req requests IH];
    intros baselines Hfresh; [done|].
  rewrite fmap_cons in Hfresh. apply not_elem_of_cons in Hfresh as [Hne Hfresh].
  cbn [foldl]. rewrite IH by done. cbn zeta.
  rewrite captureBaseline_other_endpoint by done.
  rewrite lookupBaseline_insert. by rewrite decide_False by done.
Qed.

(** X3. Baselines come from the last template of an endpoint. For a template
    that no later template shares its method and URL with, and users of
    pairwise distinct names, the map of [CaptureBaselines] holds under the
    template's endpoint and a user's name the status and body size of the
    response to that user's own request, nothing when the request could
    not be built or got no response, and nothing under any other name;
    what an earlier template with the same method and URL recorded is
    gone. *)
Theorem CaptureBaselines_last_template (s : Scanner)
    (earlier later : list APIRequest) (req : APIRequest) :
  Requests s = earlier ++ req :: later →
  endpointOf req ∉ endpointOf <$> later →
  NoDup (User_Name <$> Users s) →
  (∀ user, user ∈ Users s →
     lookupBaseline (CaptureBaselines s) (endpointOf req) (User_Name user)
     = baselineOf <$> ownExchange req user)
  ∧ (∀ name, name ∉ User_Name <$> Users s →
       lookupBaseline (CaptureBaselines s) (endpointOf req) name = None).
Proof.
  intros Hrequests Hlast Hnodup. unfold CaptureBaselines.
  rewrite Hrequests, foldl_app. cbn [foldl].
  set (before := foldl _ ∅ earlier).
  split.
  - intros user Huser. rewrite CaptureBaselines_later by done. cbn zeta.
    rewrite captureBaseline_own by done.
    destruct (ownExchange req user); [done|].
    rewrite lookupBaseline_insert, decide_True by done. by rewrite lookup_empty.
  - intros name Hname. rewrite CaptureBaselines_later by done. cbn zeta.
    rewrite captureBaseline_other_name by done.
    rewrite lookupBaseline_insert, decide_True by done. by rewrite lookup_empty.
Qed.

(** X4. The map of [CaptureBaselines] has entries only under the endpoint of a
    template and the name of a user; each holds the status and the body
    size of a response that was received, a size that is not negative, and
    an empty [BodyHash]: the hash is never computed. *)
Theorem CaptureBaselines_entries (s : Scanner) (endpoint name : string)
    (baseline : Baseline) :
  lookupBaseline (CaptureBaselines s) endpoint name = Some baseline →
  endpoint ∈ endpointOf <$> Requests s
  ∧ name ∈ User_Name <$> Users s
  ∧ 0 <= Baseline_BodySize baseline
  ∧ Baseline_BodyHash baseline = EmptyString
  ∧ ∃ req user resp,
      req ∈ Requests s ∧ user ∈ Users s ∧
      endpointOf req = endpoint ∧ User_Name user = name ∧
      ownExchange req user = Some resp ∧ baseline = baselineOf resp.
Proof.
  intros Hlookup.
  destruct (CaptureBaselines_captured s endpoint name baseline Hlookup)
    as (req & user & testReq & resp & Hreq & Huser & <- & <- & Hbuild & Hexec & ->).
  split; [by apply list_elem_of_fmap_2|].
  split; [by apply list_elem_of_fmap_2|].
  split; [apply len_nonneg|]. split; [done|].
  exists req, user, resp. repeat split; try done.
  unfold ownExchange. by rewrite Hbuild.
Qed.

(** ** The scan without baselines *)

Lemma forEachIndexPair_inner {A : Type} (body : User → User → A → A)
    (iu : nat * User) (others : list (nat * User)) (acc : A) :
  foldl (fun acc '(j, user2) =>
           if Nat.eqb iu.1 j then acc else body iu.2 user2 acc)
        acc others
  = foldl (fun acc p => body p.1 p.2 acc) acc
          ((fun ju => (iu.2, ju.2)) <$> filter (fun ju => iu.1 ≠ ju.1) others).
Proof.
  revert acc. induction others as [|[j user2] others IH]; intros acc; [done|].
  cbn [foldl]. rewrite filter_cons. cbn [fst snd].
  destruct (Nat.eqb_spec iu.1 j) as [Heq|Hne].
  - rewrite decide_False by (intros H; by apply H). apply IH.
  - rewrite decide_True by done. cbn [fmap list_fmap foldl fst snd]. apply IH.
Qed.

Lemma forEachIndexPair_bind {A : Type} (body : User → User → A → A)
    (users : list User) (acc : A) :
  forEachIndexPair users body acc
  = foldl (fun acc p => body p.1 p.2 acc) acc (indexed users ≫= othersOf users).
Proof.
  unfold forEachIndexPair. fold (indexed users).
  assert (H : ∀ firsts acc,
             foldl (fun acc '(i, user1) =>
                      foldl (fun acc '(j, user2) =>
                               if Nat.eqb i j then acc else body user1 user2 acc)
                            acc (indexed users))
                   acc firsts
             = foldl (fun acc p => body p.1 p.2 acc) acc (firsts ≫= othersOf users));
    [|apply H].
  induction firsts as [|[i user1] firsts IH]; intros acc'; [done|].
  cbn [foldl mbind list_bind]. rewrite foldl_app, <- IH. f_equal.
  exact (forEachIndexPair_inner body (i, user1) (indexed users) acc').
Qed.

Lemma indexPairs_bind (users : list User) :
  indexPairs users = indexed users ≫= othersOf users.
Proof. unfold indexPairs. rewrite forEachIndexPair_bind. apply foldl_snoc_pair. Qed.

(** Among entries of distinct keys, all but one have a key other than a
    key that occurs. *)
Lemma length_filter_other_key {A K : Type} `{EqDecision K} (key : A → K)
    (l : list A) (k : K) :
  NoDup (key <$> l) → k ∈ key <$> l →
  List.length (filter (fun x => k ≠ key x) l) = (List.length l - 1)%nat.
Proof.
  induction l as [|x l IH]; intros Hnodup Hin; [by apply elem_of_nil in Hin|].
  rewrite fmap_cons in Hnodup, Hin. apply NoDup_cons in Hnodup as [Hfresh Hnodup].
  rewrite filter_cons. destruct (decide (k = key x)) as [->|Hne].
  - rewrite decide_False by (intros H; by apply H).
    assert (Hall : List.length (filter (fun y => key x ≠ key y) l) = List.length l);
      [|cbn [List.length]; lia].
    clear IH Hin. induction l as [|y l IHl]; [done|].
    rewrite fmap_cons in Hfresh, Hnodup.
    apply not_elem_of_cons in Hfresh as [Hne Hfresh].
    apply NoDup_cons in Hnodup as [_ Hnodup].
    rewrite filter_cons, decide_True by done. cbn [List.length].
    by rewrite IHl.
  - rewrite decide_True by done. cbn [List.length].
    apply elem_of_cons in Hin as [?|Hin]; [done|].
    rewrite IH by done.
    destruct l; [by apply elem_of_nil in Hin|]. cbn [List.length]. lia.
Qed.

Lemma indexed_keys (users : list User) :
  fst <$> indexed users = seq 0 (List.length users).
Proof. unfold indexed. apply fst_zip. by rewrite length_seq. Qed.

Lemma length_indexed (users : list User) :
  List.length (indexed users) = List.length users.
Proof. by rewrite <- (length_fmap fst), indexed_keys, length_seq. Qed.

Lemma length_indexPairs (users : list User) :
  List.length (indexPairs users)
  = (List.length users * (List.length users - 1))%nat.
Proof.
  rewrite indexPairs_bind.
  assert (H : ∀ firsts, firsts ⊆ indexed users →
             List.length (firsts ≫= othersOf users)
             = (List.length firsts * (List.length users - 1))%nat).
  { induction firsts as [|iu firsts IH]; intros Hsub; [done|].
    cbn [mbind list_bind List.length]. rewrite length_app, IH.
    - unfold othersOf. rewrite length_fmap.
      rewrite (length_filter_other_key fst).
      + rewrite length_indexed. lia.
      + rewrite indexed_keys. apply NoDup_seq.
      + apply list_elem_of_fmap_2, Hsub. by left.
    - intros x Hx. apply Hsub. by right. }
  rewrite H by done. by rewrite length_indexed.
Qed.

(** [Run], template by template. *)
Lemma Run_bind (s : Scanner) :
  Run s
  = Requests s ≫= (fun req =>
      omap (fun p => testCrossUserAccess req p.1 p.2) (indexPairs (Users s))
      ++ option_list (testNoAuth req)).
Proof.
  unfold Run.
  assert (H : ∀ requests findings,
             foldl (fun findings req =>
                      let findings :=
                        forEachIndexPair (Users s)
                          (fun user1 user2 findings =>
                             appendFinding findings
                               (testCrossUserAccess req user1 user2))
                          findings in
                      appendFinding findings (testNoAuth req))
                   findings requests
             = findings ++ (requests ≫= (fun req =>
                 omap (fun p => testCrossUserAccess req p.1 p.2)
                      (indexPairs (Users s))
                 ++ option_list (testNoAuth req)))).
  { induction requests as [|req requests IH]; intros findings;
      cbn [foldl mbind list_bind].
    - by rewrite app_nil_r.
    - rewrite IH. cbn zeta.
      rewrite forEachIndexPair_bind, <- indexPairs_bind.
      rewrite (foldl_appendFinding (fun p => testCrossUserAccess req p.1 p.2)).
      rewrite appendFinding_app. by rewrite <- !app_assoc. }
  apply (H (Requests s) []).
Qed.

Lemma length_bind_le {A B : Type} (f : A → list B) (l : list A) (n : nat) :
  (∀ x, x ∈ l → (List.length (f x) ≤ n)%nat) →
  (List.length (l ≫= f) ≤ List.length l * n)%nat.
Proof.
  induction l as [|x l IH]; intros Hle; [done|].
  cbn [mbind list_bind List.length]. rewrite length_app.
  assert (List.length (f x) ≤ n)%nat by (apply Hle; by left).
  assert (List.length (l ≫= f) ≤ List.length l * n)%nat
    by (apply IH; intros y Hy; apply Hle; by right).
  lia.
Qed.

Lemma length_option_list {A : Type} (o : option A) :
  (List.length (option_list o) ≤ 1)%nat.
Proof. destruct o; cbn; lia. Qed.

(** X5. [Run] skips a pair of users by index, not by name: with [k] users,
    whatever they are called, it makes [k * (k - 1)] cross-user tests for
    each template, then one no-auth test, and returns their findings in
    that order; so at most [k * (k - 1) + 1] findings for a template. *)
Theorem Run_tests (s : Scanner) :
  let k := List.length (Users s) in
  List.length (indexPairs (Users s)) = (k * (k - 1))%nat
  ∧ Run s
    = Requests s ≫= (fun req =>
        omap (fun p => testCrossUserAccess req p.1 p.2) (indexPairs (Users s))
        ++ option_list (testNoAuth req))
  ∧ (List.length (Run s) ≤ List.length (Requests s) * (k * (k - 1) + 1))%nat.
Proof.
  intros k. split; [apply length_indexPairs|]. split; [apply Run_bind|].
  rewrite Run_bind. apply length_bind_le. intros req _.
  rewrite length_app.
  pose proof (length_omap_le (fun p => testCrossUserAccess req p.1 p.2)
                (indexPairs (Users s))).
  pose proof (length_option_list (testNoAuth req)).
  rewrite length_indexPairs in *. subst k. lia.
Qed.

(** X6. [testCrossUserAccess] looks at the status alone: it returns a finding
    exactly when the request was built and answered with 200 or 201,
    whatever the body, an empty one too; the finding is CRITICAL and names
    the template's URL and method. *)
Theorem testCrossUserAccess_finding (req : APIRequest) (attacker victim : User) :
  (is_Some (testCrossUserAccess req attacker victim) ↔
     ∃ testReq resp,
       buildRequest req attacker (User_Params victim) = Some testReq ∧
       executeRequest testReq = Some resp ∧
       (Response_StatusCode resp = 200 ∨ Response_StatusCode resp = 201))
  ∧ (∀ f, testCrossUserAccess req attacker victim = Some f →
       Finding_Severity f = "CRITICAL" ∧
       Finding_Endpoint f = APIRequest_URL req ∧
       Finding_Method f = APIRequest_Method req).
Proof.
  unfold testCrossUserAccess. split; [split|].
  - destruct (buildRequest _ _ _) as [testReq|]; [|by intros [? ?]].
    destruct (executeRequest testReq) as [resp|] eqn:Hexec; [|by intros [? ?]].
    cbn zeta.
    destruct (Z.eqb_spec (Response_StatusCode resp) 200) as [H200|H200].
    + intros _. exists testReq, resp. auto.
    + destruct (Z.eqb_spec (Response_StatusCode resp) 201) as [H201|H201].
      * intros _. exists testReq, resp. auto.
      * by intros [? ?].
  - intros (testReq & resp & -> & -> & Hstatus). cbn zeta.
    destruct Hstatus as [-> | ->]; by eexists.
  - intros f.
    destruct (buildRequest _ _ _) as [testReq|]; [|done].
    destruct (executeRequest testReq) as [resp|]; [|done].
    cbn zeta. destruct (_ || _); [|done]. by intros [= <-].
Qed.

(** ** The summary of [runScan] *)

Lemma countSeverities_counts (findings : list Finding) :
  countSeverities findings
  = (countOf "CRITICAL" findings, countOf "HIGH" findings, countOf "MEDIUM" findings).
Proof.
  unfold countSeverities, countOf.
  assert (H : ∀ critical high medium,
             foldl (fun '(critical, high, medium) f =>
                      if String.eqb (Finding_Severity f) "CRITICAL"
                      then (critical + 1, high, medium)
                      else if String.eqb (Finding_Severity f) "HIGH"
                      then (critical, high + 1, medium)
                      else if String.eqb (Finding_Severity f) "MEDIUM"
                      then (critical, high, medium + 1)
                      else (critical, high, medium))
                   (critical, high, medium) findings
             = (critical + Z.of_nat (List.length
                   (filter (fun f => Finding_Severity f = "CRITICAL") findings)),
                high + Z.of_nat (List.length
                   (filter (fun f => Finding_Severity f = "HIGH") findings)),
                medium + Z.of_nat (List.length
                   (filter (fun f => Finding_Severity f = "MEDIUM") findings))));
    [|apply (H 0 0 0)].
  induction findings as [|f findings IH]; intros critical high medium.
  - cbn. by rewrite !Z.add_0_r.
  - cbn [foldl]. rewrite !filter_cons.
    destruct (String.eqb_spec (Finding_Severity f) "CRITICAL") as [Hc|Hc].
    + rewrite IH, Hc. rewrite decide_True by done.
      rewrite !decide_False by done. cbn [List.length]. repeat match goal with |- (_, _) = (_, _) => f_equal end; lia.
    + rewrite (decide_False (P := Finding_Severity f = "CRITICAL")) by done.
      destruct (String.eqb_spec (Finding_Severity f) "HIGH") as [Hh|Hh].
      * rewrite IH, Hh. rewrite decide_True by done.
        rewrite decide_False by done. cbn [List.length]. repeat match goal with |- (_, _) = (_, _) => f_equal end; lia.
      * rewrite (decide_False (P := Finding_Severity f = "HIGH")) by done.
        destruct (String.eqb_spec (Finding_Severity f) "MEDIUM") as [Hm|Hm].
        -- rewrite IH, decide_True by done. cbn [List.length].
           repeat match goal with |- (_, _) = (_, _) => f_equal end; lia.
        -- by rewrite IH, decide_False by done.
Qed.

Lemma countOf_Permutation (severity : string) (l1 l2 : list Finding) :
  l1 ≡ₚ l2 → countOf severity l1 = countOf severity l2.
Proof. intros Hperm. unfold countOf. by rewrite Hperm. Qed.

Lemma countOf_total (findings : list Finding) :
  Forall criticalOrHigh findings →
  countOf "CRITICAL" findings + countOf "HIGH" findings
  = Z.of_nat (List.length findings).
Proof.
  unfold countOf. induction 1 as [|f findings Hf Hall IH]; [done|].
  rewrite !filter_cons.
  destruct Hf as [Hf|Hf]; rewrite Hf.
  - rewrite decide_True by done. rewrite decide_False by done.
    cbn [List.length]. lia.
  - rewrite decide_False by done. rewrite decide_True by done.
    cbn [List.length]. lia.
Qed.

(** X7. The summary does not depend on the mode. Whatever the number of
    workers asked for and whatever the schedule of the pool, the three
    counters [runScan] prints are those of the sequential scan, as is the
    number of findings; the critical and the high ones add up to that
    number. *)
Theorem summary_same_in_both_modes (schedule : list Actor) (s : Scanner)
    (workers : Z) (findings : list Finding) :
  scanFindings schedule s workers = Some findings →
  countSeverities findings = countSeverities (RunWithBaseline s)
  ∧ List.length findings = List.length (RunWithBaseline s)
  ∧ countOf "CRITICAL" findings + countOf "HIGH" findings
    = Z.of_nat (List.length findings).
Proof.
  unfold scanFindings. intros Hscan.
  assert (Hperm : findings ≡ₚ RunWithBaseline s).
  { destruct (1 <? workers); [|by injection Hscan as <-].
    unfold RunWithBaselineConcurrent in Hscan.
    rewrite runConcurrent_scanPool in Hscan.
    destruct (runSchedule _ _) as [p|] eqn:Hrun; [|done].
    destruct (finished p) eqn:Hfinished; [|done].
    injection Hscan as <-.
    apply concurrent_findings_Permutation.
    by apply (pool_collects_all _ _ _ _ _ (workers_nonzero workers) Hrun). }
  split; [|split].
  - rewrite !countSeverities_counts.
    by rewrite !(countOf_Permutation _ _ _ Hperm).
  - by rewrite Hperm.
  - apply countOf_total. rewrite Hperm. apply runWithBaselines_severity.
Qed.

(** ** What a finding names *)

Lemma testCrossUserWithBaseline_names (req : APIRequest) (attacker victim : User)
    (baselines : BaselineMap) (f : Finding) :
  testCrossUserWithBaseline req attacker victim baselines = Some f →
  Finding_Endpoint f = APIRequest_URL req ∧ Finding_Method f = APIRequest_Method req.
Proof.
  unfold testCrossUserWithBaseline.
  destruct (lookupBaseline _ _ _) as [victimBaseline|]; [|done].
  destruct (buildRequestWithSwap _ _ _) as [testReq|]; [|done].
  destruct (executeRequest testReq) as [resp|]; [|done].
  cbn zeta. destruct (_ || _); [|done].
  destruct (_ && _); [by intros [= <-]|].
  destruct (50 <? _); [by intros [= <-]|done].
Qed.

Lemma testNoAuth_names (req : APIRequest) (f : Finding) :
  testNoAuth req = Some f →
  Finding_Endpoint f = APIRequest_URL req ∧ Finding_Method f = APIRequest_Method req.
Proof.
  unfold testNoAuth.
  destruct (buildRequestNoAuth req) as [testReq|]; [|done].
  destruct (executeRequest testReq) as [resp|]; [|done].
  cbn zeta. destruct (_ && _); [|done].
  destruct (_ || _); [done|]. by intros [= <-].
Qed.

(** X8. A finding of the scan with baselines, in either mode, names the URL
    and the method of a template of the scan as they stand in the
    template, placeholders and all, not the URL that was requested; and
    the scan returns at most one finding for each test, so at most
    [len(crossPairs) + 1] for a template. *)
Theorem findings_name_templates (schedule : list Actor) (s : Scanner)
    (workers : Z) (findings : list Finding) :
  scanFindings schedule s workers = Some findings →
  (∀ f, f ∈ findings →
     ∃ req, req ∈ Requests s ∧
            Finding_Endpoint f = APIRequest_URL req ∧
            Finding_Method f = APIRequest_Method req)
  ∧ (List.length findings
     ≤ List.length (Requests s) * (List.length (crossPairs (Users s)) + 1))%nat.
Proof.
  intros Hscan.
  assert (Hperm : findings ≡ₚ RunWithBaseline s).
  { unfold scanFindings in Hscan.
    destruct (1 <? workers); [|by injection Hscan as <-].
    unfold RunWithBaselineConcurrent in Hscan.
    rewrite runConcurrent_scanPool in Hscan.
    destruct (runSchedule _ _) as [p|] eqn:Hrun; [|done].
    destruct (finished p) eqn:Hfinished; [|done].
    injection Hscan as <-.
    apply concurrent_findings_Permutation.
    by apply (pool_collects_all _ _ _ _ _ (workers_nonzero workers) Hrun). }
  unfold RunWithBaseline in Hperm. rewrite runWithBaselines_bind in Hperm.
  split.
  - intros f Hf. rewrite Hperm in Hf.
    apply list_elem_of_bind in Hf as (req & Hf & Hreq).
    exists req. split; [done|].
    apply elem_of_app in Hf as [Hf|Hf].
    + apply list_elem_of_omap in Hf as (p & _ & Hf).
      by apply testCrossUserWithBaseline_names in Hf.
    + destruct (testNoAuth req) as [f'|] eqn:Htest; [|by apply elem_of_nil in Hf].
      apply list_elem_of_singleton in Hf as ->.
      by apply testNoAuth_names.
  - rewrite Hperm. apply length_bind_le. intros req _.
    rewrite length_app.
    pose proof (length_omap_le
                  (fun p => testCrossUserWithBaseline req p.1 p.2 (CaptureBaselines s))
                  (crossPairs (Users s))).
    pose proof (length_option_list (testNoAuth req)). lia.
Qed.

(** ** Headers, once more *)
















(** ** Swapping between identities that cannot be told apart *)

Lemma replaceBodyLiteral_same (victimParams : gmap string string)
    (order : list (string * string)) (body : string) :
  (∀ key val victimVal,
     (key, val) ∈ order → victimParams !! key = Some victimVal → val = victimVal) →
  foldl (replaceBodyLiteral victimParams) body order = body.
Proof.
  induction order as [|[key val] order IH]; intros Hsame; [done|].
  cbn [foldl].
  assert (Hone : replaceBodyLiteral victimParams body (key, val) = body).
  { unfold replaceBodyLiteral. cbn [fst snd].
    destruct (victimParams !! key) as [victimVal|] eqn:Hvictim; [|done].
    rewrite (Hsame key val victimVal) by (by left || done).
    by rewrite String.eqb_refl. }
  rewrite Hone. apply IH. intros k v vv Hin. apply (Hsame k v vv). by right.
Qed.

(** X11. Between an attacker and a victim with the same value under every
    key they share, [BuildSwappedURL] and [BuildSwappedBody] do no more
    than fill in the victim's placeholders; a URL or a body that holds no
    placeholder of the victim comes back unchanged. *)
Theorem swap_between_equal_identities (originalURL originalBody : string)
    (attackerParams victimParams : gmap string string) :
  (∀ key attackerVal victimVal,
     attackerParams !! key = Some attackerVal →
     victimParams !! key = Some victimVal →
     attackerVal = victimVal) →
  BuildSwappedURL originalURL attackerParams victimParams
  = replacePlaceholders (range victimParams) originalURL
  ∧ BuildSwappedBody originalBody attackerParams victimParams
    = replacePlaceholders (range victimParams) originalBody
  ∧ ((∀ key val, victimParams !! key = Some val →
        Contains originalURL ("{" +:+ key +:+ "}") = false ∧
        Contains originalURL (":" +:+ key) = false) →
     BuildSwappedURL originalURL attackerParams victimParams = originalURL)
  ∧ ((∀ key val, victimParams !! key = Some val →
        Contains originalBody ("{" +:+ key +:+ "}") = false ∧
        Contains originalBody (":" +:+ key) = false) →
     BuildSwappedBody originalBody attackerParams victimParams = originalBody).
Proof.
  intros Hsame.
  assert (Hin : ∀ (m : gmap string string) key val,
             (key, val) ∈ range m → m !! key = Some val).
  { intros m key val Hkv. apply elem_of_map_to_list. by rewrite <- (range_perm m). }
  assert (Hurl : BuildSwappedURL originalURL attackerParams victimParams
                 = replacePlaceholders (range victimParams) originalURL)
    by (by apply BuildSwappedURL_same_values).
  assert (Hbody : BuildSwappedBody originalBody attackerParams victimParams
                  = replacePlaceholders (range victimParams) originalBody).
  { unfold BuildSwappedBody. apply replaceBodyLiteral_same.
    intros key val victimVal Hkv Hvictim.
    apply (Hsame key val victimVal); [by apply Hin|done]. }
  split; [done|]. split; [done|]. split.
  - intros Hclean. rewrite Hurl. apply replacePlaceholders_absent.
    intros key val Hkv. apply (Hclean key val). by apply Hin.
  - intros Hclean. rewrite Hbody. apply replacePlaceholders_absent.
    intros key val Hkv. apply (Hclean key val). by apply Hin.
Qed.

(** ** [urlContainsParams] *)

(** X12. [urlContainsParams] answers whether some value of the map that is not
    empty occurs in the URL, in whatever order the map is visited; an empty
    map and empty values never count. *)
Theorem urlContainsParams_spec (urlStr : string) (params : gmap string string) :
  urlContainsParams urlStr params = true ↔
  ∃ key val, params !! key = Some val ∧ val ≠ EmptyString
             ∧ Contains urlStr val = true.
Proof.
  unfold urlContainsParams. split.
  - destruct (Nat.eqb (size params) 0); [done|].
    intros Hex. apply existsb_exists in Hex as ([key val] & Hin & Htest).
    cbn [snd] in Htest. apply andb_prop in Htest as [Hne Hcontains].
    exists key, val. split; [|split; [|done]].
    + apply elem_of_map_to_list. rewrite <- (range_perm params).
      by apply list_elem_of_In.
    + intros ->. done.
  - intros (key & val & Hkey & Hne & Hcontains).
    destruct (Nat.eqb_spec (size params) 0) as [Hsize|Hsize].
    + apply map_size_empty_inv in Hsize. subst params.
      by rewrite lookup_empty in Hkey.
    + apply existsb_exists. exists (key, val). split.
      * apply list_elem_of_In. rewrite (range_perm params).
        by apply elem_of_map_to_list.
      * cbn [snd]. rewrite Hcontains.
        destruct (String.eqb_spec val EmptyString); done.
Qed.

(** ** Identifiers in URLs *)

Lemma foldl_app_bind {A B : Type} (f : A → list B) (l : list A) (acc : list B) :
  foldl (fun acc x => acc ++ f x) acc l = acc ++ (l ≫= f).
Proof.
  revert acc. induction l as [|x l IH]; intros acc; cbn [foldl mbind list_bind].
  - by rewrite app_nil_r.
  - rewrite IH. by rewrite <- app_assoc.
Qed.

Lemma elem_of_zip_seq {A : Type} (l : list A) (i : nat) (x : A) :
  (i, x) ∈ zip (seq 0 (List.length l)) l ↔ l !! i = Some x.
Proof.
  rewrite list_elem_of_lookup. split.
  - intros (k & Hk). rewrite lookup_zip_with in Hk.
    destruct (seq 0 (List.length l) !! k) as [n|] eqn:Hseq; [|done].
    destruct (l !! k) as [y|] eqn:Hl; [|done].
    cbn in Hk. apply lookup_seq in Hseq as [-> _]. by inversion Hk; subst.
  - intros Hl. exists i. rewrite lookup_zip_with.
    rewrite lookup_seq_lt by (by eapply lookup_lt_Some). cbn. by rewrite Hl.
Qed.

Lemma foldl_pointwise {A B : Type} (f g : A → B → A) (l : list B) (a : A) :
  (∀ a b, f a b = g a b) → foldl f a l = foldl g a l.
Proof.
  intros Hfg. revert a. induction l as [|b l IH]; intros a; [done|].
  cbn [foldl]. by rewrite Hfg, IH.
Qed.

(** The identifiers one segment of a URL gives. *)
Lemma ExtractIDsFromURL_bind (urlStr : string) :
  ExtractIDsFromURL urlStr
  = zip (seq 0 (List.length (SplitByte "/" urlStr))) (SplitByte "/" urlStr)
    ≫= (fun ip =>
          if String.eqb ip.2 EmptyString then []
          else
            match ip.1 with
            | O => []
            | S j =>
                let prevPart :=
                  ToLower (default EmptyString (SplitByte "/" urlStr !! j)) in
                if existsb (fun seg => String.eqb prevPart seg
                                       || HasSuffix prevPart seg)
                           idSegmentPatterns
                   && existsb (fun re => MatchString re ip.2) idPatterns
                then [ {| IDPattern_Location := "path";
                          IDPattern_Key := prevPart;
                          IDPattern_Value := ip.2 |} ]
                else []
            end
            ++ (if HasPrefix ip.2 "{" && HasSuffix ip.2 "}"
                then [ {| IDPattern_Location := "path";
                          IDPattern_Key := Trim ip.2 "{}";
                          IDPattern_Value := ip.2 |} ]
                else [])).
Proof.
  unfold ExtractIDsFromURL. cbn zeta.
  rewrite <- (app_nil_l (_ ≫= _)), <- foldl_app_bind.
  apply foldl_pointwise. intros patterns [i part]. cbn [fst snd].
  destruct (String.eqb part EmptyString); [by rewrite app_nil_r|].
  destruct i as [|j].
  - cbn [app]. by destruct (HasPrefix part "{" && HasSuffix part "}");
      rewrite ?app_nil_r.
  - cbn zeta.
    destruct (existsb _ idSegmentPatterns); cbn [andb];
      [destruct (existsb _ idPatterns)|];
      destruct (HasPrefix part "{" && HasSuffix part "}");
      cbn [app]; by rewrite <- ?app_assoc, ?app_nil_r.
Qed.

(** X13. [ExtractIDsFromURL] reports a segment of the URL, as an identifier in
    the path, in two cases and no other: the segment before it, in lower
    case, ends in one of the listed names and the segment matches one of
    the three expressions (the key is that segment before it, in lower
    case); or the segment starts with an opening and ends with a closing
    brace (the key is the segment without the braces at its ends). Empty
    segments are never reported, and a segment is reported at most
    twice. *)
Theorem ExtractIDsFromURL_spec (urlStr : string) :
  let parts := SplitByte "/" urlStr in
  (∀ id, id ∈ ExtractIDsFromURL urlStr ↔
     ∃ i part,
       parts !! i = Some part ∧ part ≠ EmptyString ∧
       ((∃ j prev,
           i = S j ∧ parts !! j = Some prev ∧
           existsb (fun seg => String.eqb (ToLower prev) seg
                               || HasSuffix (ToLower prev) seg)
                   idSegmentPatterns = true ∧
           existsb (fun re => MatchString re part) idPatterns = true ∧
           id = {| IDPattern_Location := "path";
                   IDPattern_Key := ToLower prev;
                   IDPattern_Value := part |})
        ∨ (HasPrefix part "{" = true ∧ HasSuffix part "}" = true ∧
           id = {| IDPattern_Location := "path";
                   IDPattern_Key := Trim part "{}";
                   IDPattern_Value := part |})))
  ∧ (List.length (ExtractIDsFromURL urlStr)
     ≤ 2 * List.length (filter (fun part => part ≠ EmptyString) parts))%nat.
Proof.
  intros parts. split.
  - intros id. rewrite ExtractIDsFromURL_bind. fold parts.
    rewrite list_elem_of_bind. split.
    + intros ([i part] & Hid & Hin). apply elem_of_zip_seq in Hin.
      cbn [fst snd] in Hid. exists i, part. split; [done|].
      destruct (String.eqb_spec part EmptyString) as [Heq|Hne];
        [by apply elem_of_nil in Hid|].
      split; [done|].
      apply elem_of_app in Hid as [Hid|Hid].
      * left. destruct i as [|j]; [by apply elem_of_nil in Hid|].
        cbn zeta in Hid.
        assert (Hprev : is_Some (parts !! j)).
        { apply lookup_lt_is_Some. apply lookup_lt_Some in Hin. lia. }
        destruct Hprev as [prev Hprev]. rewrite Hprev in Hid. cbn [default] in Hid.
        destruct (existsb _ idSegmentPatterns) eqn:Hseg; cbn [andb] in Hid;
          [|by apply elem_of_nil in Hid].
        destruct (existsb _ idPatterns) eqn:Hre; [|by apply elem_of_nil in Hid].
        apply list_elem_of_singleton in Hid. by exists j, prev.
      * right.
        destruct (HasPrefix part "{") eqn:Hpre; cbn [andb] in Hid;
          [|by apply elem_of_nil in Hid].
        destruct (HasSuffix part "}") eqn:Hsuf; [|by apply elem_of_nil in Hid].
        by apply list_elem_of_singleton in Hid.
    + intros (i & part & Hin & Hne & Hcase). exists (i, part).
      split; [|by apply elem_of_zip_seq]. cbn [fst snd].
      destruct (String.eqb_spec part EmptyString) as [Heq|_]; [done|].
      apply elem_of_app. destruct Hcase as [(j & prev & -> & Hprev & Hseg & Hre & ->)
                                           |(Hpre & Hsuf & ->)].
      * left. cbn zeta. rewrite Hprev.
        change (default EmptyString (Some prev)) with prev. rewrite Hseg, Hre.
        cbn [andb]. by apply list_elem_of_singleton.
      * right. rewrite Hpre, Hsuf. cbn [andb]. by apply list_elem_of_singleton.
  - rewrite ExtractIDsFromURL_bind. fold parts.
    match goal with |- context [_ ≫= ?f] => set (F := f) end.
    assert (Hone : ∀ (b : bool) (x : IDPattern),
              (List.length (if b then [x] else []) ≤ 1)%nat)
      by (by intros []; cbn; lia).
    assert (HF : ∀ i part,
              (List.length (F (i, part))
               ≤ if decide (part ≠ EmptyString) then 2 else 0)%nat).
    { intros i part. unfold F. cbn [fst snd].
      destruct (String.eqb_spec part EmptyString) as [Heq|Hne].
      - rewrite decide_False by (intros H; by apply H). done.
      - rewrite decide_True by done. rewrite length_app.
        pose proof (Hone (HasPrefix part "{" && HasSuffix part "}")
                      {| IDPattern_Location := "path";
                         IDPattern_Key := Trim part "{}";
                         IDPattern_Value := part |}) as Hph.
        destruct i as [|j]; [cbn [List.length]; lia|].
        cbn zeta.
        match goal with
        | |- context [(List.length (if ?b then [?x] else []) + _)%nat] =>
            pose proof (Hone b x)
        end. lia. }
    clearbody F.
    assert (Hlen : ∀ (l : list string) (k : nat),
              (List.length (zip (seq k (List.length l)) l ≫= F)
               ≤ 2 * List.length (filter (fun part => part ≠ EmptyString) l))%nat);
      [|apply Hlen].
    induction l as [|part l IH]; intros k; [cbn; lia|].
    cbn [List.length seq zip zip_with mbind list_bind].
    fold (zip (seq (S k) (List.length l)) l).
    rewrite length_app, filter_cons. specialize (IH (S k)).
    specialize (HF k part).
    destruct (decide (part ≠ EmptyString)); cbn [List.length]; lia.
Qed.

(** X14. [SwapIDsInURL] leaves the URL as it is when no parameter of the
    target has a name that fits the key of an identifier: neither
    contains the other, letter case apart. It does so for a target
    without parameters and for an empty list of identifiers. With one
    identifier the result is the URL itself or the URL with the
    identifier replaced everywhere by the value of a parameter whose name
    fits. *)
Theorem SwapIDsInURL_spec (urlStr : string) (sourceIDs : list IDPattern)
    (targetParams : gmap string string) :
  ((∀ id key val,
      id ∈ sourceIDs → targetParams !! key = Some val →
      keyMatches key (IDPattern_Key id) = false) →
   SwapIDsInURL urlStr sourceIDs targetParams = urlStr)
  ∧ SwapIDsInURL urlStr sourceIDs ∅ = urlStr
  ∧ SwapIDsInURL urlStr [] targetParams = urlStr
  ∧ (∀ id,
       (SwapIDsInURL urlStr [id] targetParams = urlStr
        ∧ ∀ key val, targetParams !! key = Some val →
                     keyMatches key (IDPattern_Key id) = false)
       ∨ (∃ key val,
            targetParams !! key = Some val ∧
            keyMatches key (IDPattern_Key id) = true ∧
            SwapIDsInURL urlStr [id] targetParams
            = ReplaceAll urlStr (IDPattern_Value id) val)).
Proof.
  assert (Hnone : ∀ ids params,
            (∀ id key val, id ∈ ids → params !! key = Some val →
                           keyMatches key (IDPattern_Key id) = false) →
            SwapIDsInURL urlStr ids params = urlStr).
  { intros ids params Hno. unfold SwapIDsInURL.
    induction ids as [|id ids IH] using rev_ind; [done|].
    rewrite foldl_app. cbn [foldl].
    rewrite IH by (intros ???? ?; eapply Hno; [apply elem_of_app; by left|done]).
    destruct (List.find _ (range params)) as [[key val]|] eqn:Hfind; [|done].
    apply find_some in Hfind as [Hin Hmatch]. cbn [fst] in Hmatch.
    apply list_elem_of_In in Hin. rewrite range_perm in Hin.
    apply elem_of_map_to_list in Hin.
    rewrite (Hno id key val) in Hmatch;
      [done|apply elem_of_app; right; by left|done]. }
  split; [apply Hnone|]. split.
  { apply Hnone. intros ??? _ Hlook. by rewrite lookup_empty in Hlook. }
  split; [done|].
  intros id. unfold SwapIDsInURL. cbn [foldl].
  destruct (List.find _ (range targetParams)) as [[key val]|] eqn:Hfind.
  - right. apply find_some in Hfind as [Hin Hmatch]. cbn [fst] in Hmatch.
    apply list_elem_of_In in Hin. rewrite range_perm in Hin.
    apply elem_of_map_to_list in Hin. by exists key, val.
  - left. split; [done|]. intros key val Hlook.
    apply (find_none _ _ Hfind (key, val)).
    apply list_elem_of_In. rewrite range_perm. by apply elem_of_map_to_list.
Qed.

(** ** The OpenAPI catalog *)

Lemma append_inj_r (a b c : string) : a +:+ b = a +:+ c → b = c.
Proof.
  induction a as [|ch a IH]; [done|]. rewrite !append_cons.
  intros H. injection H as H. by apply IH.
Qed.

Lemma HasPrefix_app_self (a b : string) : HasPrefix (a +:+ b) a = true.
Proof.
  induction a as [|c a IH]; [apply HasPrefix_nil|].
  rewrite append_cons. by apply HasPrefix_cons.
Qed.

Lemma operationsOf_lookup (pathItem : PathItem) (method : string)
    (op : option Operation) :
  operationsOf pathItem !! method = Some op ↔
  (method = "GET" ∧ op = PathItem_Get pathItem)
  ∨ (method = "POST" ∧ op = PathItem_Post pathItem)
  ∨ (method = "PUT" ∧ op = PathItem_Put pathItem)
  ∨ (method = "PATCH" ∧ op = PathItem_Patch pathItem)
  ∨ (method = "DELETE" ∧ op = PathItem_Delete pathItem)
  ∨ (method = "OPTIONS" ∧ op = PathItem_Options pathItem)
  ∨ (method = "HEAD" ∧ op = PathItem_Head pathItem).
Proof.
  unfold operationsOf. rewrite !lookup_insert_Some, lookup_empty. split.
  - intros H.
    repeat match goal with
           | H : _ ∨ _ |- _ => destruct H as [H|H]
           | H : _ ∧ _ |- _ => destruct H as [? H]
           end; subst; try done; tauto.
  - intros H.
    repeat match goal with
           | H : _ ∨ _ |- _ => destruct H as [H|H]
           end; destruct H as [-> ->];
      repeat match goal with
             | |- (?k = ?k ∧ _) ∨ _ => left; done
             | |- _ ∨ _ => right; split; [done|]
             end.
Qed.

Lemma method_endpoint_inj (m1 m2 u1 u2 : string) :
  m1 ∈ ["GET"; "POST"; "PUT"; "PATCH"; "DELETE"; "OPTIONS"; "HEAD"] →
  m2 ∈ ["GET"; "POST"; "PUT"; "PATCH"; "DELETE"; "OPTIONS"; "HEAD"] →
  m1 +:+ " " +:+ u1 = m2 +:+ " " +:+ u2 → m1 = m2 ∧ u1 = u2.
Proof.
  intros H1 H2.
  repeat (apply elem_of_cons in H1 as [-> | H1]);
    [..|by apply elem_of_nil in H1];
    (repeat (apply elem_of_cons in H2 as [-> | H2]);
     [..|by apply elem_of_nil in H2]);
    intros H; cbv [String.append] in H; split; congruence.
Qed.

Lemma operationsOf_methods (pathItem : PathItem) (method : string)
    (op : option Operation) :
  operationsOf pathItem !! method = Some op →
  method ∈ ["GET"; "POST"; "PUT"; "PATCH"; "DELETE"; "OPTIONS"; "HEAD"].
Proof.
  intros H. apply operationsOf_lookup in H.
  repeat (destruct H as [[-> _]|H]; [by repeat constructor|]).
  destruct H as [-> _]. by repeat constructor.
Qed.

Lemma parseOpenAPISpec_bind (spec : OpenAPISpec) :
  parseOpenAPISpec spec
  = rangePaths (OpenAPISpec_Paths spec) ≫= (fun pp =>
      rangeOperations (operationsOf pp.2) ≫= (fun mo =>
        match mo.2 with
        | None => []
        | Some op => [openAPIRequest (baseURLOf spec) pp.1 mo.1 op]
        end)).
Proof.
  unfold parseOpenAPISpec. cbn zeta.
  rewrite <- (app_nil_l (_ ≫= _)), <- foldl_app_bind.
  apply foldl_pointwise. intros requests [path pathItem]. cbn [fst snd].
  rewrite <- foldl_app_bind. apply foldl_pointwise.
  intros acc [method [op|]]; cbn [fst snd]; [done|by rewrite app_nil_r].
Qed.

Lemma elem_of_rangePaths (m : gmap string PathItem) (path : string)
    (pathItem : PathItem) :
  (path, pathItem) ∈ rangePaths m ↔ m !! path = Some pathItem.
Proof. by rewrite rangePaths_perm, elem_of_map_to_list. Qed.

Lemma elem_of_rangeOperations (m : gmap string (option Operation))
    (method : string) (op : option Operation) :
  (method, op) ∈ rangeOperations m ↔ m !! method = Some op.
Proof. by rewrite rangeOperations_perm, elem_of_map_to_list. Qed.

Lemma elem_of_parseOpenAPISpec (spec : OpenAPISpec) (req : APIRequest) :
  req ∈ parseOpenAPISpec spec ↔
  ∃ path pathItem method op,
    OpenAPISpec_Paths spec !! path = Some pathItem ∧
    operationsOf pathItem !! method = Some (Some op) ∧
    req = openAPIRequest (baseURLOf spec) path method op.
Proof.
  rewrite parseOpenAPISpec_bind, list_elem_of_bind. split.
  - intros ([path pathItem] & Hreq & Hpath). cbn [fst snd] in Hreq.
    apply elem_of_rangePaths in Hpath.
    apply list_elem_of_bind in Hreq as ([method op] & Hreq & Hop).
    apply elem_of_rangeOperations in Hop. cbn [fst snd] in Hreq.
    destruct op as [op|]; [|by apply elem_of_nil in Hreq].
    apply list_elem_of_singleton in Hreq. by exists path, pathItem, method, op.
  - intros (path & pathItem & method & op & Hpath & Hop & ->).
    exists (path, pathItem). split; [|by apply elem_of_rangePaths].
    cbn [fst snd]. apply list_elem_of_bind. exists (method, Some op).
    split; [|by apply elem_of_rangeOperations].
    cbn [fst snd]. by apply list_elem_of_singleton.
Qed.

Lemma NoDup_parseOpenAPISpec (spec : OpenAPISpec) :
  NoDup (endpointOf <$> parseOpenAPISpec spec).
Proof.
  apply NoDup_fmap_2_strong.
    + intros req1 req2
        (path1 & item1 & method1 & op1 & Hpath1 & Hop1 & ->)%elem_of_parseOpenAPISpec
        (path2 & item2 & method2 & op2 & Hpath2 & Hop2 & ->)%elem_of_parseOpenAPISpec.
      unfold endpointOf, openAPIRequest. cbn [APIRequest_Method APIRequest_URL].
      intros Heq. apply method_endpoint_inj in Heq as [-> Hurl];
        [|by eapply operationsOf_methods..].
      apply append_inj_r in Hurl as ->.
      rewrite Hpath1 in Hpath2. injection Hpath2 as ->.
      rewrite Hop1 in Hop2. by injection Hop2 as ->.
    + rewrite parseOpenAPISpec_bind. apply NoDup_bind.
      * intros [path1 item1] [path2 item2] req Hin1 Hin2 Hreq1 Hreq2.
        apply elem_of_rangePaths in Hin1, Hin2. cbn [fst snd] in Hreq1, Hreq2.
        apply list_elem_of_bind in Hreq1 as ([method1 [op1|]] & Hreq1 & _);
          cbn [fst snd] in Hreq1; [|by apply elem_of_nil in Hreq1].
        apply list_elem_of_bind in Hreq2 as ([method2 [op2|]] & Hreq2 & _);
          cbn [fst snd] in Hreq2; [|by apply elem_of_nil in Hreq2].
        apply list_elem_of_singleton in Hreq1, Hreq2. subst req.
        unfold openAPIRequest in Hreq2. injection Hreq2 as _ Hurl _.
        apply append_inj_r in Hurl as ->.
        rewrite Hin1 in Hin2. by injection Hin2 as ->.
      * intros [path pathItem] _. cbn [fst snd]. apply NoDup_bind.
        -- intros [method1 op1] [method2 op2] req Hin1 Hin2 Hreq1 Hreq2.
           apply elem_of_rangeOperations in Hin1, Hin2.
           cbn [fst snd] in Hreq1, Hreq2.
           destruct op1 as [op1|]; [|by apply elem_of_nil in Hreq1].
           destruct op2 as [op2|]; [|by apply elem_of_nil in Hreq2].
           apply list_elem_of_singleton in Hreq1, Hreq2. subst req.
           unfold openAPIRequest in Hreq2. injection Hreq2 as -> _.
           rewrite Hin1 in Hin2. by injection Hin2 as ->.
        -- intros [method [op|]] _; cbn [fst snd];
             [apply NoDup_singleton|apply NoDup_nil_2].
        -- rewrite rangeOperations_perm. apply NoDup_map_to_list.
      * rewrite rangePaths_perm. apply NoDup_map_to_list.
Qed.

(** X15. The templates of an OpenAPI description are, in some order, one for
    every operation that a path of the description defines: the method of
    the operation, and the base URL followed by the path. No two of them
    are for the same endpoint, and there are at most seven for a path. *)
Theorem parseOpenAPISpec_templates (spec : OpenAPISpec) :
  (∀ req, req ∈ parseOpenAPISpec spec ↔
     ∃ path pathItem method op,
       OpenAPISpec_Paths spec !! path = Some pathItem ∧
       operationsOf pathItem !! method = Some (Some op) ∧
       req = openAPIRequest (baseURLOf spec) path method op)
  ∧ NoDup (endpointOf <$> parseOpenAPISpec spec)
  ∧ (List.length (parseOpenAPISpec spec)
     ≤ size (OpenAPISpec_Paths spec) * 7)%nat.
Proof.
  split; [apply elem_of_parseOpenAPISpec|]. split.
  - apply NoDup_parseOpenAPISpec.
  - rewrite parseOpenAPISpec_bind.
    etrans; [apply (length_bind_le _ _ 7)|].
    + intros [path pathItem] _. cbn [fst snd].
      etrans; [apply (length_bind_le _ _ 1)|].
      * by intros [method [op|]] _; cbn; lia.
      * rewrite rangeOperations_perm, length_map_to_list.
        assert (Hsize : size (operationsOf pathItem) = 7%nat)
          by (by vm_compute).
        rewrite Hsize. lia.
    + by rewrite rangePaths_perm, length_map_to_list.
Qed.

Lemma openAPIHeaders_lookup (parameters : list OpenAPIParameter)
    (key val : string) :
  openAPIHeaders parameters !! key = Some val ↔
  val = "{" +:+ key +:+ "}" ∧
  ∃ param, param ∈ parameters ∧ Parameter_In param = "header"
           ∧ Parameter_Name param = key.
Proof.
  unfold openAPIHeaders.
  induction parameters as [|param parameters IH] using rev_ind.
  - cbn [foldl]. rewrite lookup_empty. split; [done|].
    by intros (_ & param & ?%elem_of_nil & _).
  - rewrite foldl_app. cbn [foldl].
    destruct (String.eqb_spec (Parameter_In param) "header") as [Hin|Hin].
    + destruct (decide (Parameter_Name param = key)) as [Hname|Hname].
      * rewrite Hname, lookup_insert_eq. split.
        -- intros [= <-]. split; [done|]. exists param.
           split; [|done]. apply elem_of_app. right. by left.
        -- by intros [-> _].
      * rewrite lookup_insert_ne by done. rewrite IH. split.
        -- intros (-> & p & Hp & ? & ?). split; [done|].
           exists p. split; [|done]. apply elem_of_app. by left.
        -- intros (-> & p & Hp & Hpin & Hpname). split; [done|].
           apply elem_of_app in Hp as [Hp|Hp%list_elem_of_singleton];
             [by exists p|]. by subst p.
    + rewrite IH. split.
      * intros (-> & p & Hp & ? & ?). split; [done|].
        exists p. split; [|done]. apply elem_of_app. by left.
      * intros (-> & p & Hp & Hpin & Hpname). split; [done|].
        apply elem_of_app in Hp as [Hp|Hp%list_elem_of_singleton];
          [by exists p|]. by subst p.
Qed.

(** X16. What a template of an OpenAPI description holds: one of the seven
    methods, upper case; no body, whatever request body the operation
    describes; no parameters; and as headers exactly the parameters the
    operation sends in a header, each with the placeholder of its own
    name as value. *)
Theorem parseOpenAPISpec_contents (spec : OpenAPISpec) (req : APIRequest) :
  req ∈ parseOpenAPISpec spec →
  APIRequest_Method req ∈ ["GET"; "POST"; "PUT"; "PATCH"; "DELETE"; "OPTIONS"; "HEAD"]
  ∧ HasPrefix (APIRequest_URL req) (baseURLOf spec) = true
  ∧ APIRequest_Body req = EmptyString
  ∧ APIRequest_Params req = ∅
  ∧ ∃ path pathItem op,
      OpenAPISpec_Paths spec !! path = Some pathItem ∧
      operationsOf pathItem !! APIRequest_Method req = Some (Some op) ∧
      APIRequest_URL req = baseURLOf spec +:+ path ∧
      ∀ key val,
        APIRequest_Headers req !! key = Some val ↔
        val = "{" +:+ key +:+ "}" ∧
        ∃ param, param ∈ Operation_Parameters op
                 ∧ Parameter_In param = "header"
                 ∧ Parameter_Name param = key.
Proof.
  intros (path & pathItem & method & op & Hpath & Hop & ->)%elem_of_parseOpenAPISpec.
  cbn [openAPIRequest APIRequest_Method APIRequest_URL APIRequest_Body
       APIRequest_Params APIRequest_Headers].
  split; [by eapply operationsOf_methods|].
  split; [apply HasPrefix_app_self|].
  split; [done|]. split; [done|].
  exists path, pathItem, op. split; [done|]. split; [done|]. split; [done|].
  intros key val. apply openAPIHeaders_lookup.
Qed.

(** ** The HAR and Postman catalogs *)

(** A map filled from a list of headers, some passed over, holds under a
    name the value of the last header of that name, if the name is not
    passed over. *)
Lemma header_loop_lookup {H : Type} (name value : H → string)
    (skip : string → bool) (hs : list H) (headers : gmap string string)
    (key : string) :
  foldl (fun headers h =>
           if skip (name h) then headers else <[name h := value h]> headers)
        headers hs !! key
  = if skip key then headers !! key
    else match lastValue name value hs key with
         | Some val => Some val
         | None => headers !! key
         end.
Proof.
  unfold lastValue. revert headers.
  induction hs as [|h hs IH]; intros headers.
  - cbn. by destruct (skip key).
  - cbn [foldl]. rewrite IH. rewrite filter_cons.
    destruct (skip key) eqn:Hskip.
    + destruct (skip (name h)) eqn:Hskiph; [done|].
      rewrite lookup_insert_ne; [done|]. intros Heq. congruence.
    + destruct (decide (name h = key)) as [Heq|Hne].
      * rewrite fmap_cons.
        destruct (value <$> filter (fun h0 => name h0 = key) hs) as [|v vs] eqn:Hrest.
        -- cbn [last]. rewrite Heq, Hskip. by rewrite lookup_insert_eq.
        -- rewrite last_cons_cons.
           destruct (last (v :: vs)) eqn:Hlast; [done|].
           by apply last_None in Hlast.
      * destruct (last _); [done|].
        destruct (skip (name h)); [done|]. by rewrite lookup_insert_ne.
Qed.

(** *** HAR files *)

Lemma endpointOf_harRequest (entry : HAREntry) :
  endpointOf (harRequest entry) = harKey entry.
Proof. reflexivity. Qed.

Lemma harStep_invariant (processed : list HAREntry)
    (state : list APIRequest * gset string) (entry : HAREntry) :
  harInvariant processed state →
  harInvariant (processed ++ [entry]) (harStep state entry).
Proof.
  destruct state as [requests seen].
  intros (Hseen & Hkeys & Hnodup & Hfirst & Hlen). unfold harStep, harInvariant.
  cbn [fst snd] in *.
  destruct (decide (harKey entry ∈ seen)) as [Hin|Hnew]; cbn [fst snd].
  - split; [|split; [done|split; [done|split]]].
    + intros key. rewrite Hseen, fmap_app, elem_of_app. cbn.
      rewrite list_elem_of_singleton. split; [by left|].
      intros [? | ->]; [done|]. by apply Hseen.
    + intros req. rewrite Hfirst. split.
      * intros (before & e & after & -> & Hfresh & ->).
        exists before, e, (after ++ [entry]). by rewrite <- app_assoc.
      * intros (before & e & after & Heq & Hfresh & ->).
        destruct after as [|a after _] using rev_ind.
        -- apply app_inj_tail in Heq as [-> ->].
           exfalso. apply Hfresh. by apply Hseen.
        -- rewrite app_comm_cons, app_assoc in Heq.
           apply app_inj_tail in Heq as [-> _]. by exists before, e, after.
    + rewrite length_app. cbn [List.length]. lia.
  - split; [|split; [|split; [|split]]].
    + intros key. rewrite elem_of_union, elem_of_singleton, Hseen.
      rewrite fmap_app, elem_of_app. cbn. rewrite list_elem_of_singleton.
      split; intros [?|?]; auto.
    + intros key. rewrite elem_of_union, elem_of_singleton, Hkeys.
      rewrite fmap_app, elem_of_app. cbn. rewrite list_elem_of_singleton.
      split; intros [?|?]; auto.
    + rewrite fmap_app. cbn. apply NoDup_app. split; [done|]. split.
      * intros key Hkey [->|Hnil]%elem_of_cons; [|by apply elem_of_nil in Hnil].
        apply Hnew. by apply Hkeys.
      * apply NoDup_singleton.
    + intros req. rewrite elem_of_app, list_elem_of_singleton, Hfirst. split.
      * intros [(before & e & after & -> & Hfresh & ->)| ->].
        -- exists before, e, (after ++ [entry]). by rewrite <- app_assoc.
        -- exists processed, entry, []. split; [done|]. split; [|done].
           intros Hin. apply Hnew. by apply Hseen.
      * intros (before & e & after & Heq & Hfresh & ->).
        destruct after as [|a after _] using rev_ind.
        -- apply app_inj_tail in Heq as [-> ->]. by right.
        -- rewrite app_comm_cons, app_assoc in Heq.
           apply app_inj_tail in Heq as [-> _]. left. by exists before, e, after.
    + rewrite !length_app. cbn [List.length]. lia.
Qed.

Lemma harLoop_invariant (entries processed : list HAREntry)
    (state : list APIRequest * gset string) :
  harInvariant processed state →
  harInvariant (processed ++ entries) (foldl harStep state entries).
Proof.
  revert processed state.
  induction entries as [|entry entries IH]; intros processed state Hinv.
  - by rewrite app_nil_r.
  - cbn [foldl].
    replace (processed ++ entry :: entries) with ((processed ++ [entry]) ++ entries)
      by (by rewrite <- app_assoc).
    apply IH. by apply harStep_invariant.
Qed.

(** X17. The templates of a HAR file have pairwise distinct endpoints, one for
    each method and URL that occurs in the file, each made of the first
    entry with that method and URL; later entries with the same method and
    URL are dropped, whatever their headers and bodies. *)
Theorem parseHARFile_first_of_each_endpoint (har : HARFile) :
  let entries := HARLog_Entries (HARFile_Log har) in
  NoDup (endpointOf <$> parseHARFile har)
  ∧ (∀ key, key ∈ endpointOf <$> parseHARFile har ↔ key ∈ harKey <$> entries)
  ∧ (∀ req, req ∈ parseHARFile har ↔
       (∃ before entry after,
          entries = before ++ entry :: after ∧
          (harKey entry ∉ harKey <$> before) ∧
          req = harRequest entry))
  ∧ (List.length (parseHARFile har) ≤ List.length entries)%nat.
Proof.
  intros entries. unfold parseHARFile. fold entries.
  destruct (harLoop_invariant entries [] ([], ∅))
    as (Hseen & Hkeys & Hnodup & Hfirst & Hlen).
  { unfold harInvariant. cbn. split; [|split; [|split; [|split]]].
    - intros key. rewrite elem_of_empty. split; [done|]. by intros ?%elem_of_nil.
    - intros key. rewrite elem_of_empty. split; [done|]. by intros ?%elem_of_nil.
    - apply NoDup_nil_2.
    - intros req. split; [by intros ?%elem_of_nil|].
      intros (before & e & after & Heq & _). by destruct before.
    - lia. }
  cbn [app] in *. split; [done|]. split; [|split; [done|done]].
  intros key. by rewrite <- Hkeys, Hseen.
Qed.

Lemma parseHARFile_first_of_each_endpoint_aux (har : HARFile) (req : APIRequest) :
  req ∈ parseHARFile har →
  ∃ before entry after,
    HARLog_Entries (HARFile_Log har) = before ++ entry :: after ∧
    (harKey entry ∉ harKey <$> before) ∧
    req = harRequest entry.
Proof.
  unfold parseHARFile.
  destruct (harLoop_invariant (HARLog_Entries (HARFile_Log har)) [] ([], ∅))
    as (_ & _ & _ & Hfirst & _).
  { unfold harInvariant. cbn. split; [|split; [|split; [|split]]].
    - intros key. rewrite elem_of_empty. split; [done|]. by intros ?%elem_of_nil.
    - intros key. rewrite elem_of_empty. split; [done|]. by intros ?%elem_of_nil.
    - apply NoDup_nil_2.
    - intros r. split; [by intros ?%elem_of_nil|].
      intros (before & e & after & Heq & _). by destruct before.
    - lia. }
  cbn [app] in Hfirst. apply Hfirst.
Qed.

(** X18. The headers of a template made from a HAR entry: pseudo-headers
    (names that begin with a colon) and [Host], [Connection],
    [Accept-Encoding], [Accept-Language] and [User-Agent], in any case of
    letters, are left out; of the other headers that share a name the
    last one stands; [Authorization] and [Cookie] stay. The body is the
    text of the post data, the parameters are empty. *)
Theorem parseHARFile_headers (har : HARFile) (req : APIRequest) :
  req ∈ parseHARFile har →
  ∃ entry,
    entry ∈ HARLog_Entries (HARFile_Log har)
    ∧ req = harRequest entry
    ∧ (∀ name,
         APIRequest_Headers req !! name
         = if harSkipped name then None
           else lastValue HARHeader_Name HARHeader_Value
                  (HARRequest_Headers (HAREntry_Request entry)) name)
    ∧ (∀ name val, APIRequest_Headers req !! name = Some val →
         HasPrefix (ToLower name) ":" = false
         ∧ ToLower name ∉ ["host"; "connection"; "accept-encoding";
                            "accept-language"; "user-agent"])
    ∧ harSkipped "Authorization" = false ∧ harSkipped "Cookie" = false
    ∧ APIRequest_Params req = ∅.
Proof.
  intros Hreq.
  destruct (parseHARFile_first_of_each_endpoint_aux har req Hreq)
    as (before & entry & after & Hentries & _ & ->).
  exists entry. split; [rewrite Hentries; apply elem_of_app; right; by left|].
  split; [done|].
  assert (Hlookup : ∀ name,
             APIRequest_Headers (harRequest entry) !! name
             = if harSkipped name then None
               else lastValue HARHeader_Name HARHeader_Value
                      (HARRequest_Headers (HAREntry_Request entry)) name).
  { intros name. unfold harRequest, harHeaders. cbn [APIRequest_Headers].
    rewrite (header_loop_lookup HARHeader_Name HARHeader_Value harSkipped).
    rewrite lookup_empty. destruct (harSkipped name); [done|].
    by destruct (lastValue _ _ _ _). }
  split; [done|]. split; [|done].
  intros name val Hheader. rewrite Hlookup in Hheader.
  destruct (harSkipped name) eqn:Hskip; [done|].
  unfold harSkipped in Hskip. cbn zeta in Hskip.
  apply orb_false_elim in Hskip as [Hskip H5%String.eqb_neq].
  apply orb_false_elim in Hskip as [Hskip H4%String.eqb_neq].
  apply orb_false_elim in Hskip as [Hskip H3%String.eqb_neq].
  apply orb_false_elim in Hskip as [Hskip H2%String.eqb_neq].
  apply orb_false_elim in Hskip as [Hskip H1%String.eqb_neq].
  split; [done|].
  intros Hin. repeat (apply elem_of_cons in Hin as [Heq|Hin]; [congruence|]).
  by apply elem_of_nil in Hin.
Qed.

(** *** Postman collections *)

(** Induction on an item, with the property at hand for its sub-items. *)
Lemma PostmanItem_nested_ind (P : PostmanItem → Prop) :
  (∀ name request items, Forall P items → P (mkPostmanItem name request items)) →
  ∀ item, P item.
Proof.
  intros Hstep. fix IH 1. intros [name request items]. apply Hstep.
  induction items as [|subItem items IHitems]; constructor;
    [apply IH|exact IHitems].
Qed.

Lemma parseItems_folder (name : string) (request : PostmanRequest)
    (subItem : PostmanItem) (rest : list PostmanItem) :
  parseItems (mkPostmanItem name request (subItem :: rest))
  = (subItem :: rest) ≫= parseItems.
Proof. reflexivity. Qed.

Lemma parseItems_leaf (name : string) (request : PostmanRequest) :
  parseItems (mkPostmanItem name request [])
  = if negb (String.eqb (PostmanRequest_Method request) EmptyString)
    then [postmanRequest request] else [].
Proof. reflexivity. Qed.

Lemma parsePostmanCollection_bind (items : list PostmanItem) :
  parsePostmanCollection items = items ≫= parseItems.
Proof.
  unfold parsePostmanCollection.
  assert (H : ∀ requests,
             foldl (fun requests item => requests ++ parseItems item) requests items
             = requests ++ (items ≫= parseItems)); [|apply (H [])].
  induction items as [|item items IH]; intros requests; cbn [foldl mbind list_bind].
  - by rewrite app_nil_r.
  - rewrite IH. by rewrite <- app_assoc.
Qed.

Lemma elem_of_parseItems (item : PostmanItem) (req : APIRequest) :
  req ∈ parseItems item ↔
  ∃ leaf, leafOf item leaf
          ∧ PostmanRequest_Method (PostmanItem_Request leaf) ≠ EmptyString
          ∧ req = postmanRequest (PostmanItem_Request leaf).
Proof.
  revert req. induction item as [name request items IH] using PostmanItem_nested_ind.
  intros req. destruct items as [|subItem rest].
  - rewrite parseItems_leaf. split.
    + destruct (String.eqb_spec (PostmanRequest_Method request) EmptyString)
        as [Heq|Hne]; cbn [negb]; [by intros ?%elem_of_nil|].
      intros ->%list_elem_of_singleton.
      exists (mkPostmanItem name request []). split; [by constructor|done].
    + intros (leaf & Hleaf & Hmethod & ->).
      inversion Hleaf as [? _ Heq|? subItem ? Hin _]; subst.
      * cbn [PostmanItem_Request] in *.
        destruct (String.eqb_spec (PostmanRequest_Method request) EmptyString);
          [done|]. by left.
      * by apply elem_of_nil in Hin.
  - rewrite parseItems_folder, list_elem_of_bind. split.
    + intros (item & Hreq & Hitem).
      rewrite Forall_forall in IH. apply (IH item Hitem) in Hreq
        as (leaf & Hleaf & Hmethod & ->).
      exists leaf. split; [|done]. by apply (leafOf_under _ item).
    + intros (leaf & Hleaf & Hmethod & ->).
      inversion Hleaf as [? Hnil Heq|? item ? Hin Hunder]; subst; [done|].
      cbn [PostmanItem_Item] in Hin.
      exists item. split; [|done].
      rewrite Forall_forall in IH. apply (IH item Hin). by exists leaf.
Qed.

(** X19. The templates of a Postman collection are the requests of its items
    without sub-items that name a method, at any depth. An item with
    sub-items is a folder: a request of its own is dropped. Every template
    has a method, and no parameters. *)
Theorem parsePostmanCollection_leaves (items : list PostmanItem) :
  (∀ req, req ∈ parsePostmanCollection items ↔
     ∃ item leaf,
       item ∈ items ∧ leafOf item leaf
       ∧ PostmanRequest_Method (PostmanItem_Request leaf) ≠ EmptyString
       ∧ req = postmanRequest (PostmanItem_Request leaf))
  ∧ (∀ req, req ∈ parsePostmanCollection items →
       APIRequest_Method req ≠ EmptyString ∧ APIRequest_Params req = ∅)
  ∧ (∀ name request subItem rest,
       parseItems (mkPostmanItem name request (subItem :: rest))
       = (subItem :: rest) ≫= parseItems).
Proof.
  assert (Hiff : ∀ req, req ∈ parsePostmanCollection items ↔
            ∃ item leaf,
              item ∈ items ∧ leafOf item leaf
              ∧ PostmanRequest_Method (PostmanItem_Request leaf) ≠ EmptyString
              ∧ req = postmanRequest (PostmanItem_Request leaf)).
  { intros req. rewrite parsePostmanCollection_bind, list_elem_of_bind. split.
    - intros (item & Hreq & Hitem).
      apply elem_of_parseItems in Hreq as (leaf & Hleaf & Hmethod & ->).
      by exists item, leaf.
    - intros (item & leaf & Hitem & Hleaf & Hmethod & ->).
      exists item. split; [|done]. apply elem_of_parseItems. by exists leaf. }
  split; [done|]. split; [|apply parseItems_folder].
  intros req Hreq. apply Hiff in Hreq as (item & leaf & _ & _ & Hmethod & ->).
  done.
Qed.

(** X20. The headers of a template made from a Postman request: under a key,
    the value of the last header of the list with that key; nothing is
    left out, credentials included, and headers that share a key are not
    merged. *)
Theorem postmanRequest_headers (request : PostmanRequest) (key : string) :
  APIRequest_Headers (postmanRequest request) !! key
  = lastValue PostmanHeader_Key PostmanHeader_Value
      (PostmanRequest_Header request) key.
Proof.
  unfold postmanRequest. cbn [APIRequest_Headers].
  rewrite (header_loop_lookup PostmanHeader_Key PostmanHeader_Value
             (fun _ => false)).
  rewrite lookup_empty. by destruct (lastValue _ _ _ _).
Qed.

(** ** The size difference and the request rate *)

(** X21. [abs] is the absolute value on every [int] but the least, which it
    returns as it is, negative. On the difference of two body sizes it is
    exact: the subtraction does not wrap around and the least [int] does
    not occur. *)
Theorem abs_exact (x size baseline : Z) :
  in_int x → 0 <= size < 2 ^ 63 → 0 <= baseline < 2 ^ 63 →
  abs x = (if x =? - 2 ^ 63 then - 2 ^ 63 else Z.abs x)
  ∧ (abs x < 0 ↔ x = - 2 ^ 63)
  ∧ abs (int_sub size baseline) = Z.abs (size - baseline).
Proof.
  intros Hx Hsize Hbase. unfold in_int in Hx.
  assert (Habs : ∀ y, in_int y →
            abs y = if y =? - 2 ^ 63 then - 2 ^ 63 else Z.abs y).
  { intros y Hy. unfold in_int in Hy. unfold abs, int_neg.
    destruct (Z.eqb_spec y (- 2 ^ 63)) as [->|Hne]; [done|].
    destruct (Z.ltb_spec y 0).
    - rewrite wrap64_in_int by (unfold in_int; lia). lia.
    - lia. }
  split; [by apply Habs|]. split.
  - rewrite Habs by done. destruct (Z.eqb_spec x (- 2 ^ 63)); lia.
  - unfold int_sub. rewrite wrap64_in_int by (unfold in_int; lia).
    rewrite Habs by (unfold in_int; lia).
    destruct (Z.eqb_spec (size - baseline) (- 2 ^ 63)); lia.
Qed.

(** X22. [SetRateLimit] keeps the delay it finds when the rate is zero or
    negative. For a positive rate the delay is the second divided by the
    rate, rounded down: as many requests as the rate take at most one
    second, and the delay is zero, so that nothing limits the rate, exactly
    when the rate is above 10^9. The rate of 10 gives the delay a new
    scanner starts with. *)
Theorem SetRateLimit_delay (rateDelay requestsPerSecond : Z) :
  (requestsPerSecond <= 0 →
   SetRateLimit rateDelay requestsPerSecond = rateDelay)
  ∧ (0 < requestsPerSecond →
     let delay := SetRateLimit rateDelay requestsPerSecond in
     0 <= delay <= Second
     ∧ delay * requestsPerSecond <= Second < (delay + 1) * requestsPerSecond
     ∧ (delay = 0 ↔ Second < requestsPerSecond))
  ∧ SetRateLimit rateDelay 10 = defaultRateDelay.
Proof.
  unfold SetRateLimit. split; [|split; [|done]].
  - intros Hle. by destruct (Z.ltb_spec 0 requestsPerSecond); [lia|].
  - intros Hpos. cbn zeta.
    destruct (Z.ltb_spec 0 requestsPerSecond); [|lia].
    rewrite Z.quot_div_nonneg by (unfold Second; lia).
    pose proof (Z.mul_div_le Second requestsPerSecond Hpos).
    pose proof (Z.mul_succ_div_gt Second requestsPerSecond Hpos).
    assert (0 <= Second `div` requestsPerSecond)
      by (apply Z.div_pos; unfold Second; lia).
    assert (Second `div` requestsPerSecond <= Second)
      by (apply Z.div_le_upper_bound; unfold Second in *; nia).
    split; [lia|]. split; [lia|]. split.
    + intros Hzero. rewrite Hzero in *. lia.
    + intros Hlt. apply Z.div_small. unfold Second in *. lia.
Qed.

(** X23. [NewRateLimiter], unlike [SetRateLimit], divides by any rate: a rate
    of zero is a division by zero, and a negative rate gives a delay that
    is not positive, with which [Wait] never sleeps. With a positive rate
    the two agree, and [Wait] sleeps just long enough for the delay to
    have passed since the call before. *)
Theorem NewRateLimiter_delay (requestsPerSecond elapsed : Z) :
  0 <= elapsed < 2 ^ 63 →
  (NewRateLimiter requestsPerSecond = None ↔ requestsPerSecond = 0)
  ∧ (requestsPerSecond < 0 →
     ∃ delay, NewRateLimiter requestsPerSecond = Some delay
              ∧ delay <= 0 ∧ Wait delay elapsed = 0)
  ∧ (0 < requestsPerSecond →
     ∃ delay, NewRateLimiter requestsPerSecond = Some delay
              ∧ (∀ rateDelay, SetRateLimit rateDelay requestsPerSecond = delay)
              ∧ 0 <= Wait delay elapsed
              ∧ Wait delay elapsed = Z.max 0 (delay - elapsed)).
Proof.
  intros Helapsed. unfold NewRateLimiter. split; [|split].
  - by destruct (Z.eqb_spec requestsPerSecond 0).
  - intros Hneg. destruct (Z.eqb_spec requestsPerSecond 0); [lia|].
    eexists. split; [done|].
    assert (Hle : Second ÷ requestsPerSecond <= 0).
    { replace requestsPerSecond with (- - requestsPerSecond) by lia.
      rewrite Z.quot_opp_r by lia.
      assert (0 <= Second ÷ - requestsPerSecond)
        by (apply Z.quot_pos; unfold Second; lia).
      lia. }
    split; [done|]. unfold Wait.
    by destruct (Z.ltb_spec elapsed (Second ÷ requestsPerSecond)); [lia|].
  - intros Hpos. destruct (Z.eqb_spec requestsPerSecond 0); [lia|].
    eexists. split; [done|].
    assert (Hdelay : 0 <= Second ÷ requestsPerSecond <= Second).
    { rewrite Z.quot_div_nonneg by (unfold Second; lia). split.
      - apply Z.div_pos; unfold Second; lia.
      - apply Z.div_le_upper_bound; unfold Second in *; nia. }
    split.
    { intros rateDelay. unfold SetRateLimit.
      by destruct (Z.ltb_spec 0 requestsPerSecond); [|lia]. }
    unfold Wait.
    destruct (Z.ltb_spec elapsed (Second ÷ requestsPerSecond)); [|lia].
    unfold int_sub. rewrite wrap64_in_int by (unfold in_int, Second in *; lia).
    lia.
Qed.

(** ** Catalogs and baselines together *)

Lemma NoDup_parseHARFile (har : HARFile) :
  NoDup (endpointOf <$> parseHARFile har).
Proof.
  unfold parseHARFile.
  destruct (harLoop_invariant (HARLog_Entries (HARFile_Log har)) [] ([], ∅))
    as (_ & _ & Hnodup & _).
  { unfold harInvariant. cbn. split; [|split; [|split; [|split]]].
    - intros key. rewrite elem_of_empty. split; [done|]. by intros ?%elem_of_nil.
    - intros key. rewrite elem_of_empty. split; [done|]. by intros ?%elem_of_nil.
    - apply NoDup_nil_2.
    - intros r. split; [by intros ?%elem_of_nil|].
      intros (before & e & after & Heq & _). by destruct before.
    - lia. }
  exact Hnodup.
Qed.

Lemma CaptureBaselines_unique_endpoints (s : Scanner) (req : APIRequest)
    (user : User) :
  NoDup (endpointOf <$> Requests s) →
  NoDup (User_Name <$> Users s) →
  req ∈ Requests s → user ∈ Users s →
  lookupBaseline (CaptureBaselines s) (endpointOf req) (User_Name user)
  = baselineOf <$> ownExchange req user.
Proof.
  intros Hendpoints Hnames Hreq Huser.
  apply list_elem_of_split in Hreq as (earlier & later & Hrequests).
  rewrite Hrequests, fmap_app, fmap_cons in Hendpoints.
  apply NoDup_app in Hendpoints as (_ & _ & Hlater).
  apply NoDup_cons in Hlater as [Hlast _].
  unfold CaptureBaselines. rewrite Hrequests, foldl_app. cbn [foldl].
  rewrite CaptureBaselines_later by done. cbn zeta.
  rewrite captureBaseline_own by done.
  destruct (ownExchange req user); [done|].
  rewrite lookupBaseline_insert, decide_True by done. by rewrite lookup_empty.
Qed.

(** X24. With the templates of a HAR file or of an OpenAPI description, and
    users of pairwise distinct names, no baseline is lost to another
    template: for every template and every user the map of
    [CaptureBaselines] holds what the response to that user's own request
    showed, and nothing when there was no response. *)
Theorem catalog_baselines_own (s : Scanner) (har : HARFile)
    (spec : OpenAPISpec) (req : APIRequest) (user : User) :
  Requests s = parseHARFile har ∨ Requests s = parseOpenAPISpec spec →
  NoDup (User_Name <$> Users s) →
  req ∈ Requests s → user ∈ Users s →
  lookupBaseline (CaptureBaselines s) (endpointOf req) (User_Name user)
  = baselineOf <$> ownExchange req user.
Proof.
  intros Hcatalog Hnames Hreq Huser.
  apply CaptureBaselines_unique_endpoints; [|done..].
  destruct Hcatalog as [-> | ->];
    [apply NoDup_parseHARFile|apply NoDup_parseOpenAPISpec].
Qed.

End Scanner.

(* ===================================================================== *)
(** * The worked scan, and where two sentences of the specification fail *)
(* ===================================================================== *)

Example ReplaceAll_examples :
  ReplaceAll "/api/users/{id}/x{id}" "{id}" "42" = "/api/users/42/x42"
  ∧ ReplaceAll "aaa" "aa" "b" = "ba"
  ∧ ReplaceAll "/api/users/123" "/456/" "/789/" = "/api/users/123".
Proof. repeat split; reflexivity. Qed.

Example suffix_examples :
  HasSuffix "/api/users/123" "/123" = true
  ∧ TrimSuffix "/api/users/123" "/123" = "/api/users"
  ∧ HasSuffix "/api/users/1234" "/123" = false
  ∧ TrimSuffix "/api/users/1234" "/123" = "/api/users/1234".
Proof. repeat split; reflexivity. Qed.

Example CanonicalMIMEHeaderKey_examples :
  CanonicalMIMEHeaderKey "authorization" = "Authorization"
  ∧ CanonicalMIMEHeaderKey "x-api-KEY" = "X-Api-Key"
  ∧ CanonicalMIMEHeaderKey "Content-Type" = "Content-Type"
  ∧ CanonicalMIMEHeaderKey "my header" = "my header".
Proof. repeat split; reflexivity. Qed.

Example isAuth_examples :
  isAuth "Authorization" = true ∧ isAuth "X-API-Key" = true
  ∧ isAuth "Set-Cookie" = true ∧ isAuth "Accept" = false.
Proof. repeat split; reflexivity. Qed.

(** The three cases of section 8 of the specification. *)
Example severityRule_examples :
  severityRule 200 120 118 = Some "CRITICAL"
  ∧ severityRule 200 120 0 = Some "HIGH"
  ∧ severityRule 403 120 118 = None.
Proof. repeat split; reflexivity. Qed.

Example BuildSwappedURL_examples :
  BuildSwappedURL map_to_list "http://localhost:8888/api/users/{user_id}/orders"
    (User_Params bob) (User_Params alice)
  = "http://localhost:8888/api/users/123/orders"
  ∧ BuildSwappedURL map_to_list "http://localhost:8888/api/users/456/orders?owner=456"
      (User_Params bob) (User_Params alice)
    = "http://localhost:8888/api/users/123/orders?owner=123".
Proof. split; vm_compute; reflexivity. Qed.

(** The end-to-end scenario of the specification: against a server that
    checks no ownership, each of alice and bob reads the other's profile,
    at the size of the victim's baseline. *)
Example RunWithBaseline_example :
  (fun f => (Finding_Severity f, Finding_Description f))
    <$> RunWithBaseline map_to_list acceptAll vulnerableServer swapRequest
          {| Users := [alice; bob]; Requests := [getUser] |}
  = [ ("CRITICAL",
       "User 'alice' accessed 'bob's data (response matches victim's baseline)");
      ("CRITICAL",
       "User 'bob' accessed 'alice's data (response matches victim's baseline)") ].
Proof. vm_compute. reflexivity. Qed.

(** C1 on the worked scan: bob's request for alice's profile comes back
    with 66 bytes, the size of her baseline: CRITICAL in both modes. *)
Lemma severity_is_severityRule_witness :
  lookupBaseline aliceOnly (endpointOf getUser) (User_Name alice) = Some aliceBaseline
  ∧ Finding_Severity <$>
      testCrossUserWithBaseline vulnerableServer swapRequest getUser bob alice aliceOnly
    = Some "CRITICAL"
  ∧ Finding_Severity <$>
      executeScanJob vulnerableServer swapRequest
        {| ScanJob_Request := getUser; ScanJob_Attacker := bob;
           ScanJob_Victim := alice; ScanJob_Baseline := aliceBaseline |}
    = Some "CRITICAL".
Proof.
  assert (Hbase : lookupBaseline aliceOnly (endpointOf getUser) (User_Name alice)
                  = Some aliceBaseline) by (vm_compute; reflexivity).
  assert (Hint : in_int (Baseline_BodySize aliceBaseline))
    by (unfold in_int; cbn; lia).
  assert (Hlen : len (Response_Body aliceProfile) < 2 ^ 63)
    by (vm_compute; reflexivity).
  assert (Hbuild : swapRequest getUser bob alice = Some bobAsAlice)
    by (vm_compute; reflexivity).
  assert (Hexec : vulnerableServer bobAsAlice = Some aliceProfile)
    by (vm_compute; reflexivity).
  destruct (severity_is_severityRule vulnerableServer swapRequest getUser bob alice
              aliceOnly aliceBaseline bobAsAlice aliceProfile
              Hbase Hint Hlen Hbuild Hexec) as (Hseq & Hjob & _).
  split; [exact Hbase|]. split; [exact Hseq|exact Hjob].
Defined.

(** C2 on the worked scan: a server that answers everyone with a page of
    64 bytes gives a finding for the no-auth test. *)
Lemma testNoAuth_finding_witness :
  is_Some (testNoAuth map_to_list acceptAll openServer getUser).
Proof.
  destruct (testNoAuth_finding map_to_list acceptAll openServer getUser)
    as [[_ Hfinding] _].
  apply Hfinding. eexists _, _.
  split; [vm_compute; reflexivity|].
  split; [vm_compute; reflexivity|].
  split; [reflexivity|]. split; [vm_compute; reflexivity|].
  split; vm_compute; reflexivity.
Defined.

(** C3 on the worked scan: alice is tested against bob, under two names. *)
Lemma no_self_pairs_witness :
  (alice, bob) ∈ crossPairs (Users demoScanner)
  ∧ User_Name alice ≠ User_Name bob.
Proof.
  assert (Hin : (alice, bob) ∈ crossPairs (Users demoScanner)).
  { apply list_elem_of_In. vm_compute. left. reflexivity. }
  split; [exact Hin|].
  exact (proj1 (proj2 (no_self_pairs map_to_list acceptAll vulnerableServer
                         swapRequest demoScanner ∅)) alice bob Hin).
Defined.

(** C4 on the worked scan: the job of alice on bob carries the baseline
    captured for bob. *)
Lemma jobs_have_captured_baselines_witness :
  match head (queueJobs demoScanner
                (CaptureBaselines map_to_list acceptAll vulnerableServer demoScanner))
  with
  | Some job =>
      lookupBaseline
        (CaptureBaselines map_to_list acceptAll vulnerableServer demoScanner)
        (endpointOf (ScanJob_Request job)) (User_Name (ScanJob_Victim job))
      = Some (ScanJob_Baseline job)
  | None => False
  end.
Proof.
  destruct (queueJobs demoScanner _) as [|job jobs] eqn:Hjobs;
    [vm_compute in Hjobs; discriminate|].
  cbn [head].
  apply (jobs_have_captured_baselines map_to_list acceptAll vulnerableServer
           swapRequest demoScanner).
  rewrite Hjobs. by left.
Defined.

(** C5 as it stands fails: with the one parameter [a] of value [{a}x] the
    pass turns [{a}] into [{a}x], and a second run turns that into
    [{a}xx]. *)
Lemma placeholder_pass_not_idempotent :
  ¬ (∀ (params : gmap string string) (order : list (string * string)) (s : string),
       order ≡ₚ map_to_list params →
       replacePlaceholders order (replacePlaceholders order s)
       = replacePlaceholders order s).
Proof.
  intros Hidem.
  specialize (Hidem {[ "a" := "{a}x" ]} [("a", "{a}x")] "{a}").
  rewrite map_to_list_singleton in Hidem.
  specialize (Hidem (Permutation_refl _)).
  vm_compute in Hidem. discriminate.
Qed.

(** C5 as amended, on the worked scan: the URL of the template after the
    pass with the parameters of alice holds no placeholder, and a second
    run leaves it as it is. *)
Lemma placeholder_pass_stable_witness :
  replacePlaceholders [("user_id", "123")]
    (replacePlaceholders [("user_id", "123")] (APIRequest_URL getUser))
  = replacePlaceholders [("user_id", "123")] (APIRequest_URL getUser).
Proof.
  apply (placeholder_pass_stable {[ "user_id" := "123" ]}).
  - by rewrite map_to_list_singleton.
  - by rewrite map_to_list_singleton.
  - intros key val [<- <-]%lookup_singleton_Some.
    split; vm_compute; reflexivity.
Defined.

(** C6 on an example: 123 on both sides under the shared key. *)
Lemma literal_pass_identity_witness :
  replaceLiterals [("user_id", "123")]
    (<[ "org" := "7" ]> {[ "user_id" := "123" ]})
    "http://localhost:8888/api/users/123/orders?owner=123"
  = "http://localhost:8888/api/users/123/orders?owner=123".
Proof.
  apply (literal_pass_identity {[ "user_id" := "123" ]}).
  - by rewrite map_to_list_singleton.
  - intros key attackerVal victimVal [<- <-]%lookup_singleton_Some Hvictim.
    vm_compute in Hvictim. by injection Hvictim.
Defined.

(** C7 as it stands fails: two identities under one name are never tested
    against each other, where [2 * (2 - 1)] tests are claimed. *)
Lemma same_name_counterexample :
  ¬ (∀ s : Scanner,
       List.length (crossPairs (Users s))
       = (List.length (Users s) * (List.length (Users s) - 1))%nat).
Proof.
  intros Hcount. specialize (Hcount twoAlices).
  vm_compute in Hcount. discriminate.
Qed.

(** C7 as amended, on the worked scan: two tests for the template, and,
    with a baseline for alice alone, one job. *)
Lemma cross_test_count_witness :
  NoDup (User_Name <$> Users demoScanner)
  ∧ List.length (crossPairs (Users demoScanner)) = 2%nat
  ∧ List.length (queueJobsFor (Users demoScanner) aliceOnly getUser []) = 1%nat.
Proof.
  assert (Hnodup : NoDup (User_Name <$> Users demoScanner)).
  { apply (bool_decide_unpack _). vm_compute. exact I. }
  destruct (cross_test_count demoScanner aliceOnly getUser Hnodup)
    as (Htests & _ & Hjobs).
  split; [exact Hnodup|]. split; [exact Htests|].
  rewrite Hjobs. vm_compute. reflexivity.
Defined.

(** C8 on the worked scan: under [interleaved] the two workers return the
    four findings of the sequential scan in another order. *)
Lemma concurrent_same_findings_witness :
  match RunWithBaselineConcurrent map_to_list acceptAll vulnerableServer
          swapRequest interleaved demoScanner 2 with
  | Some findings =>
      findings ≡ₚ RunWithBaseline map_to_list acceptAll vulnerableServer
                    swapRequest demoScanner
      ∧ List.length findings = 4%nat
  | None => False
  end.
Proof.
  destruct (RunWithBaselineConcurrent _ _ _ _ interleaved demoScanner 2)
    as [findings|] eqn:Hrun; [|vm_compute in Hrun; discriminate].
  destruct (proj2 (concurrent_same_findings map_to_list acceptAll vulnerableServer
                     swapRequest demoScanner 2) interleaved findings Hrun)
    as [Hperm Hlen].
  split; [exact Hperm|]. rewrite Hlen. vm_compute. reflexivity.
Defined.

(** C9 on the worked scan, with the order of [map_to_list]: the request
    of mallory goes out with the credential recorded in the template. *)
Lemma template_header_overrides_identity_witness :
  ∃ testReq,
    buildRequest map_to_list acceptAll getAliceRecorded mallory (User_Params mallory)
    = Some testReq
    ∧ Request_Header testReq !! "Authorization" = Some "Bearer alice-token".
Proof.
  destruct (template_header_overrides_identity map_to_list
              (fun m => Permutation_refl _) acceptAll eq_refl)
    as (_ & testReq & Hbuild & Hheader & _).
  exists testReq. split; [exact Hbuild|exact Hheader].
Defined.

(** C10 on the worked scan: the finding of the no-auth test against the
    open server is HIGH. *)
Lemma findings_critical_or_high_witness :
  match testNoAuth map_to_list acceptAll openServer getUser with
  | Some f => criticalOrHigh f ∧ Finding_Severity f ≠ "MEDIUM"
  | None => False
  end.
Proof.
  destruct (testNoAuth map_to_list acceptAll openServer getUser) as [f|] eqn:Htest;
    [|vm_compute in Htest; discriminate].
  apply (proj1 (findings_critical_or_high map_to_list acceptAll openServer
                  swapRequest demoScanner 2)
           getUser alice bob ∅
           {| ScanJob_Request := getUser; ScanJob_Attacker := alice;
              ScanJob_Victim := bob; ScanJob_Baseline := aliceBaseline |} f).
  do 3 right. exact Htest.
Defined.

(** ** Further properties, on the worked scan *)

(** Under [interleaved] the pool of the worked scan, two workers on four
    jobs, has made its nineteen steps and is at its end. *)
Lemma pool_stops_witness :
  match runSchedule vulnerableServer swapRequest interleaved
          (scanPool demoScanner 2
             (CaptureBaselines map_to_list acceptAll vulnerableServer demoScanner))
  with
  | Some p => finished p = true ∧ stepsLeft p = 0%nat
  | None => False
  end.
Proof.
  destruct (runSchedule vulnerableServer swapRequest interleaved _)
    as [p|] eqn:Hrun; [|vm_compute in Hrun; discriminate].
  destruct (pool_stops vulnerableServer swapRequest interleaved demoScanner 2
              (CaptureBaselines map_to_list acceptAll vulnerableServer demoScanner)
              p Hrun) as [Hsteps Hfinished].
  assert (Htotal : (4 * List.length
                          (queueJobs demoScanner
                             (CaptureBaselines map_to_list acceptAll
                                vulnerableServer demoScanner))
                    + Z.to_nat (if (2 <=? 0)%Z then 5%Z else 2%Z) + 1)%nat
                   = List.length interleaved)
    by (vm_compute; reflexivity).
  cbn zeta in Hsteps, Hfinished. rewrite Htotal in Hsteps, Hfinished.
  split; [by apply Hfinished|]. lia.
Defined.

(** After the first two steps of [interleaved] main has jobs left to
    send, and can send one. *)
Lemma pool_never_stuck_witness :
  match runSchedule vulnerableServer swapRequest [Main; Main]
          (scanPool demoScanner 2
             (CaptureBaselines map_to_list acceptAll vulnerableServer demoScanner))
  with
  | Some p =>
      Pool_pending p ≠ [] ∧ is_Some (step vulnerableServer swapRequest Main p)
  | None => False
  end.
Proof.
  destruct (runSchedule vulnerableServer swapRequest [Main; Main] _)
    as [p|] eqn:Hrun; [|vm_compute in Hrun; discriminate].
  assert (Hpending : Pool_pending p ≠ []).
  { vm_compute in Hrun. injection Hrun as <-. discriminate. }
  split; [exact Hpending|].
  exact (proj1 (pool_never_stuck vulnerableServer swapRequest [Main; Main]
                  demoScanner 2
                  (CaptureBaselines map_to_list acceptAll vulnerableServer
                     demoScanner) p Hrun) Hpending).
Defined.

(** The baseline of alice for the profile template is what her own
    request showed: 200 and 66 bytes. *)
Lemma CaptureBaselines_last_template_witness :
  lookupBaseline (CaptureBaselines map_to_list acceptAll vulnerableServer demoScanner)
    (endpointOf getUser) (User_Name alice)
  = Some aliceBaseline.
Proof.
  assert (Hnodup : NoDup (User_Name <$> Users demoScanner)).
  { apply (bool_decide_unpack _). vm_compute. exact I. }
  assert (Hlast : endpointOf getUser ∉ endpointOf <$> [getHealth]).
  { apply (bool_decide_unpack _). vm_compute. exact I. }
  destruct (CaptureBaselines_last_template map_to_list acceptAll vulnerableServer
              demoScanner [] [getHealth] getUser eq_refl Hlast Hnodup)
    as [Hown _].
  rewrite (Hown alice) by (by left). vm_compute. reflexivity.
Defined.

(** The entry of bob for the health check comes from a response to bob. *)
Lemma CaptureBaselines_entries_witness :
  ∃ baseline,
    lookupBaseline (CaptureBaselines map_to_list acceptAll vulnerableServer demoScanner)
      (endpointOf getHealth) "bob" = Some baseline
    ∧ 0 <= Baseline_BodySize baseline
    ∧ Baseline_BodyHash baseline = EmptyString.
Proof.
  destruct (lookupBaseline
              (CaptureBaselines map_to_list acceptAll vulnerableServer demoScanner)
              (endpointOf getHealth) "bob") as [baseline|] eqn:Hlookup;
    [|vm_compute in Hlookup; discriminate].
  exists baseline. split; [reflexivity|].
  destruct (CaptureBaselines_entries map_to_list acceptAll vulnerableServer
              demoScanner (endpointOf getHealth) "bob" baseline Hlookup)
    as (_ & _ & Hsize & Hhash & _).
  split; [exact Hsize|exact Hhash].
Defined.

(** The worked scan with two workers under [interleaved]: the summary
    counts what the sequential scan counts. *)
Lemma summary_same_in_both_modes_witness :
  match scanFindings map_to_list acceptAll vulnerableServer swapRequest
          interleaved demoScanner 2 with
  | Some findings =>
      countSeverities findings
      = countSeverities (RunWithBaseline map_to_list acceptAll vulnerableServer
                           swapRequest demoScanner)
  | None => False
  end.
Proof.
  destruct (scanFindings _ _ _ _ interleaved demoScanner 2)
    as [findings|] eqn:Hscan; [|vm_compute in Hscan; discriminate].
  exact (proj1 (summary_same_in_both_modes map_to_list acceptAll vulnerableServer
                  swapRequest interleaved demoScanner 2 findings Hscan)).
Defined.

(** The findings of the worked scan name the two templates, and are at
    most six. *)
Lemma findings_name_templates_witness :
  match scanFindings map_to_list acceptAll vulnerableServer swapRequest
          interleaved demoScanner 2 with
  | Some findings => (List.length findings ≤ 6)%nat
  | None => False
  end.
Proof.
  destruct (scanFindings _ _ _ _ interleaved demoScanner 2)
    as [findings|] eqn:Hscan; [|vm_compute in Hscan; discriminate].
  destruct (findings_name_templates map_to_list acceptAll vulnerableServer
              swapRequest interleaved demoScanner 2 findings Hscan)
    as [_ Hlen].
  etrans; [exact Hlen|]. vm_compute. lia.
Defined.



(** Alice against herself: the URL with her identifier comes back with
    it, and the placeholder gets her value. *)
Lemma swap_between_equal_identities_witness :
  BuildSwappedURL map_to_list "http://localhost:8888/api/users/123/orders"
    (User_Params alice) (User_Params alice)
  = "http://localhost:8888/api/users/123/orders"
  ∧ BuildSwappedBody map_to_list "{owner: {user_id}}"
      (User_Params alice) (User_Params alice)
    = "{owner: 123}".
Proof.
  destruct (swap_between_equal_identities map_to_list (fun m => Permutation_refl _)
              "http://localhost:8888/api/users/123/orders" "{owner: {user_id}}"
              (User_Params alice) (User_Params alice))
    as (Hurl & Hbody & _).
  { intros key attackerVal victimVal Ha Hv. rewrite Ha in Hv. by injection Hv. }
  split; [rewrite Hurl|rewrite Hbody]; vm_compute; reflexivity.
Defined.

(** The URL of the request of bob for alice holds the identifier of
    alice. *)
Lemma urlContainsParams_spec_witness :
  urlContainsParams map_to_list "http://localhost:8888/api/users/123"
    (User_Params alice) = true.
Proof.
  apply (urlContainsParams_spec map_to_list (fun m => Permutation_refl _)).
  exists "user_id", "123". split; [vm_compute; reflexivity|].
  split; [discriminate|vm_compute; reflexivity].
Defined.

Example SplitByte_examples :
  SplitByte "/" "http://localhost:8888/api/users/123"
  = ["http:"; ""; "localhost:8888"; "api"; "users"; "123"]
  ∧ SplitByte "/" "" = [""]
  ∧ SplitByte "/" "/a/" = [""; "a"; ""]
  ∧ Trim "{{user_id}}" "{}" = "user_id"
  ∧ Trim "{a}b}" "{}" = "a}b".
Proof. repeat split; reflexivity. Qed.

(** With a matcher for decimal numbers: the number after [users] and the
    placeholder are reported, the number after [v] is not. *)
Example ExtractIDsFromURL_example :
  ExtractIDsFromURL digitsOnly "http://localhost:8888/v/2/users/123/orders/{order_id}"
  = [ {| IDPattern_Location := "path"; IDPattern_Key := "users";
         IDPattern_Value := "123" |};
      {| IDPattern_Location := "path"; IDPattern_Key := "order_id";
         IDPattern_Value := "{order_id}" |} ].
Proof. vm_compute. reflexivity. Qed.

Example parseHARFile_example :
  (fun req => (endpointOf req, map_to_list (APIRequest_Headers req), APIRequest_Body req))
    <$> parseHARFile demoHAR
  = [ ("GET http://localhost:8888/api/users/123",
       map_to_list (<["Accept" := "application/json"]>
                      {[ "Authorization" := "Bearer alice-token" ]} : gmap string string),
       EmptyString);
      ("POST http://localhost:8888/api/orders",
       [("Content-Type", "application/json")],
       "{owner: 123}") ].
Proof. vm_compute. reflexivity. Qed.

Example parseOpenAPISpec_example :
  (fun req => (endpointOf req, map_to_list (APIRequest_Headers req)))
    <$> parseOpenAPISpec map_to_list map_to_list demoSpec
  ≡ₚ [ ("GET http://localhost:8888/api/users/{user_id}",
        [("X-Api-Key", "{X-Api-Key}")]);
       ("DELETE http://localhost:8888/api/users/{user_id}", []) ].
Proof.
  apply (bool_decide_unpack _). vm_compute. exact I.
Qed.

(** The identifier under the key [users] is replaced by the value of the
    parameter [user_id] of bob, whose name contains the key [user]. *)
Lemma SwapIDsInURL_spec_witness :
  SwapIDsInURL map_to_list "http://localhost:8888/api/users/123"
    [ {| IDPattern_Location := "path"; IDPattern_Key := "user";
         IDPattern_Value := "123" |} ]
    (User_Params bob)
  = "http://localhost:8888/api/users/456"
  ∧ SwapIDsInURL map_to_list "http://localhost:8888/api/users/123"
      [ {| IDPattern_Location := "path"; IDPattern_Key := "order";
           IDPattern_Value := "123" |} ]
      (User_Params bob)
    = "http://localhost:8888/api/users/123".
Proof.
  split.
  - destruct (SwapIDsInURL_spec map_to_list (fun m => Permutation_refl _)
                "http://localhost:8888/api/users/123" [] (User_Params bob))
      as (_ & _ & _ & Hone).
    destruct (Hone {| IDPattern_Location := "path"; IDPattern_Key := "user";
                      IDPattern_Value := "123" |})
      as [[_ Hnone]|(key & val & Hlookup & _ & ->)].
    + specialize (Hnone "user_id" "456" eq_refl). vm_compute in Hnone.
      discriminate.
    + unfold bob in Hlookup. cbn [User_Params] in Hlookup.
      apply lookup_singleton_Some in Hlookup as [<- <-]. vm_compute. reflexivity.
  - apply (SwapIDsInURL_spec map_to_list (fun m => Permutation_refl _)).
    intros id key val ->%list_elem_of_singleton Hlookup.
    unfold bob in Hlookup. cbn [User_Params] in Hlookup.
    apply lookup_singleton_Some in Hlookup as [<- <-]. vm_compute. reflexivity.
Defined.

(** The description of the worked scan gives two templates, for two
    endpoints. *)
Lemma parseOpenAPISpec_templates_witness :
  openAPIRequest "http://localhost:8888" "/api/users/{user_id}" "DELETE"
    deleteUserOperation
  ∈ parseOpenAPISpec map_to_list map_to_list demoSpec
  ∧ (List.length (parseOpenAPISpec map_to_list map_to_list demoSpec) ≤ 7)%nat.
Proof.
  destruct (parseOpenAPISpec_templates map_to_list (fun m => Permutation_refl _)
              map_to_list (fun m => Permutation_refl _) demoSpec)
    as (Hin & _ & Hlen).
  split.
  - apply Hin.
    exists "/api/users/{user_id}",
           {| PathItem_Get := Some getUserOperation;
              PathItem_Post := None;
              PathItem_Put := None;
              PathItem_Patch := None;
              PathItem_Delete := Some deleteUserOperation;
              PathItem_Options := None;
              PathItem_Head := None |},
           "DELETE", deleteUserOperation.
    split; [vm_compute; reflexivity|].
    split; [vm_compute; reflexivity|reflexivity].
  - etrans; [exact Hlen|]. vm_compute. lia.
Defined.

(** The template for reading a user has no body, and the key of the API
    as its one header, with a placeholder as value. *)
Lemma parseOpenAPISpec_contents_witness :
  APIRequest_Body
    (openAPIRequest "http://localhost:8888" "/api/users/{user_id}" "GET"
       getUserOperation) = EmptyString
  ∧ APIRequest_Method
      (openAPIRequest "http://localhost:8888" "/api/users/{user_id}" "GET"
         getUserOperation)
    ∈ ["GET"; "POST"; "PUT"; "PATCH"; "DELETE"; "OPTIONS"; "HEAD"].
Proof.
  assert (Hin : openAPIRequest "http://localhost:8888" "/api/users/{user_id}" "GET"
                  getUserOperation
                ∈ parseOpenAPISpec map_to_list map_to_list demoSpec).
  { apply list_elem_of_In. vm_compute. left. reflexivity. }
  destruct (parseOpenAPISpec_contents map_to_list (fun m => Permutation_refl _)
              map_to_list (fun m => Permutation_refl _) demoSpec _ Hin)
    as (Hmethod & _ & Hbody & _).
  split; [exact Hbody|exact Hmethod].
Defined.

(** The recording of the worked scan: the profile of alice is one
    template, and her baseline for it is that of her own request. *)
Lemma catalog_baselines_own_witness :
  lookupBaseline (CaptureBaselines map_to_list acceptAll vulnerableServer harScanner)
    "GET http://localhost:8888/api/users/123" "alice"
  = Some aliceBaseline.
Proof.
  assert (Hnodup : NoDup (User_Name <$> Users harScanner)).
  { apply (bool_decide_unpack _). vm_compute. exact I. }
  assert (Hreq : harRequest harGetAlice ∈ Requests harScanner).
  { apply list_elem_of_In. vm_compute. left. reflexivity. }
  assert (Huser : alice ∈ Users harScanner) by (by left).
  pose proof (catalog_baselines_own map_to_list acceptAll vulnerableServer
                map_to_list (fun m => Permutation_refl _)
                map_to_list (fun m => Permutation_refl _)
                harScanner demoHAR demoSpec (harRequest harGetAlice) alice
                (or_introl eq_refl) Hnodup Hreq Huser) as Hown.
  change (endpointOf (harRequest harGetAlice))
    with "GET http://localhost:8888/api/users/123" in Hown.
  change (User_Name alice) with "alice" in Hown.
  rewrite Hown. vm_compute. reflexivity.
Defined.

(** The template of the first entry of the recording: the last [Accept]
    header stands, [Host] is left out. *)
Lemma parseHARFile_headers_witness :
  harRequest harGetAlice ∈ parseHARFile demoHAR
  ∧ ∃ entry,
      entry ∈ HARLog_Entries (HARFile_Log demoHAR)
      ∧ harRequest harGetAlice = harRequest entry
      ∧ APIRequest_Headers (harRequest harGetAlice) !! "Host" = None.
Proof.
  assert (Hin : harRequest harGetAlice ∈ parseHARFile demoHAR).
  { apply list_elem_of_In. vm_compute. left. reflexivity. }
  split; [exact Hin|].
  destruct (parseHARFile_headers demoHAR (harRequest harGetAlice) Hin)
    as (entry & Hentry & Heq & Hlookup & _).
  exists entry. split; [exact Hentry|]. split; [exact Heq|].
  rewrite Hlookup. reflexivity.
Defined.

(** A response of 66 bytes against a baseline of 120: a difference of
    54. *)
Lemma abs_exact_witness :
  abs (int_sub 66 120) = 54 ∧ abs (- 2 ^ 63) = - 2 ^ 63.
Proof.
  assert (Hmin : in_int (- 2 ^ 63)) by (unfold in_int; lia).
  destruct (abs_exact (- 2 ^ 63) 66 120 Hmin) as (Habs & _ & Hdiff); [lia..|].
  split; [rewrite Hdiff; reflexivity|rewrite Habs; reflexivity].
Defined.

(** A limiter for ten requests a second, forty milliseconds after the
    call before: sixty milliseconds of sleep. A limiter for no request a
    second cannot be made. *)
Lemma NewRateLimiter_delay_witness :
  NewRateLimiter 0 = None
  ∧ ∃ delay, NewRateLimiter 10 = Some delay
             ∧ Wait delay (40 * Millisecond) = 60 * Millisecond.
Proof.
  assert (Helapsed : 0 <= 40 * Millisecond < 2 ^ 63) by (unfold Millisecond; lia).
  split.
  - by apply (proj1 (NewRateLimiter_delay 0 (40 * Millisecond) Helapsed)).
  - destruct (NewRateLimiter_delay 10 (40 * Millisecond) Helapsed)
      as (_ & _ & Hpos).
    destruct Hpos as (delay & Hnew & _ & _ & Hwait); [lia|].
    exists delay. split; [exact Hnew|]. rewrite Hwait.
    vm_compute in Hnew. injection Hnew as <-. reflexivity.
Defined.
